(** * chess-puzzle: the move engine of js/chess.ts

    A shallow embedding of the coordinate mapper ([algebraicToIndices],
    [indicesToAlgebraic]), the position parser ([fenToBoard]) and the move
    engine ([isValidMove], [makeMove]) of js/chess.ts, with the properties
    the specification states about them; then the glyph table
    ([getPieceUnicode]) and the puzzle page of js/main.js
    ([initializeBoardUI], [displayPieces], [loadPuzzleByIndex],
    [handleSquareClick]), with further properties of the code.

    Conventions of the embedding
    - a JS number that the code only uses as an integer is a [Z]; the one
      place where NaN can arise and is tested ([parseInt]) returns an
      [option Z], [None] being NaN;
    - a JS string is a [string]; its characters are 8-bit code units (the
      Latin-1 part of the UTF-16 code units), which contains every character
      the code compares against;
    - an array is a list; reading beyond its end yields [Undefined], reading
      a property of [undefined] throws a TypeError ([Throw TypeError]);
    - arrays that are created, copied or written by the code live in a store
      ([state]), addressed by locations, so that two boards can share rows. *)

From Stdlib Require Import ZArith Ascii String Lia.
From stdpp Require Import base option list gmap strings pretty.

Open Scope Z_scope.

(** ** Results of fallible code *)

Inductive error :=
  | TypeError   (* a property of undefined was read or written *)
  | BadRef.     (* a location that the store does not hold: no JS value does this *)

Inductive Result (A : Type) :=
  | Ok (a : A)
  | Throw (e : error).
Arguments Ok {A} a.
Arguments Throw {A} e.

#[global] Instance Result_ret : MRet Result := λ A a, Ok a.
#[global] Instance Result_bind : MBind Result := λ A B f m,
  match m with
  | Ok a => f a
  | Throw e => Throw e
  end.

(** ** Characters and strings *)

Definition charCode (c : ascii) : Z := Z.of_N (N_of_ascii c).

(** [String.fromCharCode(n)] for a code in the 8-bit range. *)
Definition fromCharCode (n : Z) : string :=
  String (ascii_of_N (Z.to_N n)) EmptyString.

Definition isDigit (c : ascii) : bool :=
  (48 <=? charCode c) && (charCode c <=? 57).

(** [parseInt(c)] for a one-character string [c]: the digit's value, or NaN
    ([None]) for every other character (a sign or a blank alone is NaN). *)
Definition parseInt (c : ascii) : option Z :=
  if isDigit c then Some (charCode c - 48) else None.

(** [c === c.toUpperCase()] for a one-character string.  In the Latin-1 range
    the characters that [toUpperCase] changes are a-z, the micro sign (to
    U+039C), sharp s (to SS), the accented small letters 0xE0-0xFE except the
    division sign 0xF7, and y with diaeresis (to U+0178). *)
Definition isUpperCase (c : ascii) : bool :=
  let n := charCode c in
  negb (((97 <=? n) && (n <=? 122))
        || (n =? 181) || (n =? 223)
        || ((224 <=? n) && (n <=? 255) && negb (n =? 247))).

(** [c.toLowerCase()] for a one-character string: A-Z and the accented
    capitals 0xC0-0xDE except the multiplication sign 0xD7 move up by 32. *)
Definition toLowerCase (c : ascii) : ascii :=
  let n := charCode c in
  if ((65 <=? n) && (n <=? 90))
     || ((192 <=? n) && (n <=? 222) && negb (n =? 215))
  then ascii_of_N (Z.to_N (n + 32)) else c.

(** [s.split(sep)] for a one-character separator: never the empty list. *)
Fixpoint split (sep : ascii) (s : string) : list string :=
  match s with
  | EmptyString => [EmptyString]
  | String c s' =>
      if Ascii.eqb c sep then EmptyString :: split sep s'
      else match split sep s' with
           | [] => [String c EmptyString]
           | x :: xs => String c x :: xs
           end
  end.

(** ** Coordinate mapper *)

Record AlgebraicMapping := { row : Z; col : Z }.

(** js/chess.ts, algebraicToIndices.  The [typeof] test is discharged by the
    type of the argument. *)
Definition algebraicToIndices (algebraic : string) : option AlgebraicMapping :=
  match algebraic with
  | String file (String rankChar EmptyString) =>
      let col := charCode file - charCode "a" in
      match parseInt rankChar with
      | Some n =>
          let row := 8 - n in
          if (col <? 0) || (col >? 7) || (row <? 0) || (row >? 7)
          then None
          else Some {| row := row; col := col |}
      | None => None            (* isNaN(row) *)
      end
  | _ => None                   (* algebraic.length !== 2 *)
  end.

(** js/chess.ts, indicesToAlgebraic.  [pretty] writes an integer in decimal,
    as [toString] does. *)
Definition indicesToAlgebraic (row col : Z) : option string :=
  if (row <? 0) || (row >? 7) || (col <? 0) || (col >? 7) then None
  else
    let file := fromCharCode (charCode "a" + col) in
    let rank := pretty (8 - row) in
    Some (file ++ rank)%string.

(** ** Boards *)

(** What a square of a board can hold at run time: a one-character string
    (a piece code; [fenToBoard] stores whatever character it reads), [null],
    or the [undefined] that JS yields when a row is read beyond its end.
    The declared type [SquareState = PieceCode | null] covers the first two. *)
Inductive SquareState :=
  | Piece (c : ascii)
  | Null
  | Undefined.

#[global] Instance SquareState_eq_dec : EqDecision SquareState.
Proof. solve_decision. Defined.

(** Truthiness: a one-character string is truthy, null and undefined are not. *)
Definition truthy (v : SquareState) : bool :=
  match v with
  | Piece _ => true
  | Null | Undefined => false
  end.

(** The contents of a board, [SquareState[][]], row 0 first. *)
Abbreviation BoardState := (list (list SquareState)).

(** [a[i]] for an integer [i]: [None] stands for undefined. *)
Definition index {A : Type} (a : list A) (i : Z) : option A :=
  if i <? 0 then None else a !! Z.to_nat i.

(** [boardState[r][c]]: indexing a missing row throws, a missing column reads
    as undefined. *)
Definition cellAt (boardState : BoardState) (r c : Z) : Result SquareState :=
  match index boardState r with
  | None => Throw TypeError
  | Some rw => Ok (default Undefined (index rw c))
  end.

(** [PlayerTurn = 'w' | 'b']. *)
Inductive PlayerTurn := White | Black.

#[global] Instance PlayerTurn_eq_dec : EqDecision PlayerTurn.
Proof. solve_decision. Defined.

Definition isW (t : PlayerTurn) : bool := if t is White then true else false.
Definition isB (t : PlayerTurn) : bool := if t is Black then true else false.

(** ** Move engine: isValidMove *)

(** The obstruction loops [for (let i = 1; i < bound; i++) if (boardState
    [..][..]) return false;]: [sq i] is the square read at step [i], [n] the
    number of iterations left.  [Ok true] means that the loop ran to its end. *)
Fixpoint scan (boardState : BoardState) (sq : Z → Z * Z) (i : Z) (n : nat)
  : Result bool :=
  match n with
  | O => Ok true
  | S n' =>
      v ← cellAt boardState (sq i).1 (sq i).2;
      if truthy v then Ok false else scan boardState sq (i + 1) n'
  end.

(** The loop from [i = 1] up to [bound - 1]. *)
Definition unobstructed (boardState : BoardState) (sq : Z → Z * Z) (bound : Z)
  : Result bool :=
  scan boardState sq 1 (Z.to_nat (bound - 1)).

(** js/chess.ts, isValidMove.  [boardState] is the contents of the board the
    caller passes: the function only reads it.  The steps [dr / absDr] and
    [dc / absDc] are NaN in the source when the divisor is 0; they are read
    only inside a loop body, which runs when the divisor exceeds 1, where the
    quotient is exact. *)
Definition isValidMove (boardState : BoardState)
    (fromAlgebraic toAlgebraic : string) (playerTurn : PlayerTurn)
  : Result bool :=
  match algebraicToIndices fromAlgebraic, algebraicToIndices toAlgebraic with
  | Some from, Some to =>
    piece ← cellAt boardState (row from) (col from);
    match piece with
    | Piece piece =>
      let pieceIsWhite := isUpperCase piece in
      if (isW playerTurn && negb pieceIsWhite) || (isB playerTurn && pieceIsWhite)
      then Ok false
      else
      destPiece ← cellAt boardState (row to) (col to);
      if match destPiece with
         | Piece destPiece =>
             let destPieceIsWhite := isUpperCase destPiece in
             (isW playerTurn && destPieceIsWhite)
             || (isB playerTurn && negb destPieceIsWhite)
         | _ => false
         end
      then Ok false
      else
      let dr := row to - row from in
      let dc := col to - col from in
      let absDr := Z.abs dr in
      let absDc := Z.abs dc in
      let kind := toLowerCase piece in
      if Ascii.eqb kind "p" then
        let moveDir := if pieceIsWhite then -1 else 1 in
        if dc =? 0 then
          dest ← cellAt boardState (row to) (col to);
          if truthy dest then Ok false
          else if dr =? moveDir then Ok true
          else if dr =? 2 * moveDir then
            let startingRank := if pieceIsWhite then 6 else 1 in
            if row from =? startingRank then
              mid ← cellAt boardState (row from + moveDir) (col from);
              Ok (negb (truthy mid))
            else Ok false
          else Ok false
        else if (absDc =? 1) && (dr =? moveDir) then
          dest ← cellAt boardState (row to) (col to);
          Ok (truthy dest)
        else Ok false
      else if Ascii.eqb kind "n" then
        Ok (((absDr =? 2) && (absDc =? 1)) || ((absDr =? 1) && (absDc =? 2)))
      else if Ascii.eqb kind "b" then
        if negb (absDr =? absDc) then Ok false
        else
          let stepR := dr / absDr in
          let stepC := dc / absDc in
          unobstructed boardState
            (λ i, (row from + i * stepR, col from + i * stepC)) absDr
      else if Ascii.eqb kind "r" then
        if negb (dr =? 0) && negb (dc =? 0) then Ok false
        else if dr =? 0 then
          let stepC := dc / absDc in
          unobstructed boardState (λ i, (row from, col from + i * stepC)) absDc
        else
          let stepR := dr / absDr in
          unobstructed boardState (λ i, (row from + i * stepR, col from)) absDr
      else if Ascii.eqb kind "q" then
        if absDr =? absDc then
          let stepR := dr / absDr in
          let stepC := dc / absDc in
          unobstructed boardState
            (λ i, (row from + i * stepR, col from + i * stepC)) absDr
        else if (dr =? 0) || (dc =? 0) then
          if dr =? 0 then
            let stepC := dc / absDc in
            unobstructed boardState (λ i, (row from, col from + i * stepC)) absDc
          else
            let stepR := dr / absDr in
            unobstructed boardState (λ i, (row from + i * stepR, col from)) absDr
        else Ok false
      else if Ascii.eqb kind "k" then
        Ok ((absDr <=? 1) && (absDc <=? 1))
      else Ok false
    | _ => Ok false          (* !piece *)
    end
  | _, _ => Ok false         (* !from || !to *)
  end.

(** ** Position parser: fenToBoard *)

(** [a[c] = v] on one array: inside the array the element is replaced; beyond
    its end JS extends the array, the skipped elements reading as undefined.
    A negative [c] names no element. *)
Definition writeAt (a : list SquareState) (c : Z) (v : SquareState)
  : list SquareState :=
  if c <? 0 then a
  else if c <? Z.of_nat (length a) then <[Z.to_nat c := v]> a
  else a ++ replicate (Z.to_nat c - length a) Undefined ++ [v].

(** [board[r][c] = v] on the board under construction: a missing row throws. *)
Definition setCell (board : BoardState) (r c : Z) (v : SquareState)
  : Result BoardState :=
  match index board r with
  | None => Throw TypeError
  | Some rw => Ok (<[Z.to_nat r := writeAt rw c v]> board)
  end.

(** The inner loop over the characters of one rank string. *)
Fixpoint fillRank (board : BoardState) (r : Z) (rankStr : string) (colIndex : Z)
  : Result BoardState :=
  match rankStr with
  | EmptyString => Ok board
  | String char rest =>
      match parseInt char with
      | None =>                         (* isNaN(parseInt(char)): a piece *)
          if colIndex <? 8 then
            board' ← setCell board r colIndex (Piece char);
            fillRank board' r rest (colIndex + 1)
          else fillRank board r rest colIndex
      | Some n => fillRank board r rest (colIndex + n)
      end
  end.

(** The outer loop [for (let r = 0; r < ranks.length; r++)]. *)
Fixpoint fillRanks (board : BoardState) (r : Z) (ranks : list string)
  : Result BoardState :=
  match ranks with
  | [] => Ok board
  | rankStr :: rest =>
      board' ← fillRank board r rankStr 0;
      fillRanks board' (r + 1) rest
  end.

(** js/chess.ts, fenToBoard.  The board is local to the call until it is
    returned, so its contents are threaded through the loops; [map] builds
    one array per row, so the eight rows are distinct arrays.  [split] never
    returns an empty array, so element 0 exists. *)
Definition fenToBoard (fenString : string) : Result BoardState :=
  let board := replicate 8 (replicate 8 Null) in
  let piecePlacement := hd EmptyString (split " " fenString) in
  let ranks := split "/" piecePlacement in
  fillRanks board 0 ranks.

(** ** The store: boards and rows as shared arrays *)

(** A board value is a reference to an array of references to rows. *)
Abbreviation loc := nat.

Inductive object :=
  | ORow (cells : list SquareState)
  | OBoard (rows : list loc).

(** The part of the world [makeMove] can touch: the arrays and the console. *)
Record state := { heap : gmap loc object; console : list string }.

Definition alloc (σ : state) (o : object) : state * loc :=
  let l := fresh (dom (heap σ)) in
  ({| heap := <[l := o]> (heap σ); console := console σ |}, l).

Definition consoleError (σ : state) (msg : string) : state :=
  {| heap := heap σ; console := console σ ++ [msg] |}.

Definition rowCells (σ : state) (l : loc) : option (list SquareState) :=
  match heap σ !! l with
  | Some (ORow cells) => Some cells
  | _ => None
  end.

Definition boardRows (σ : state) (b : loc) : option (list loc) :=
  match heap σ !! b with
  | Some (OBoard rows) => Some rows
  | _ => None
  end.

(** The contents of the board that [b] refers to, when every reference in it
    is live. *)
Definition contents (σ : state) (b : loc) : option BoardState :=
  rows ← boardRows σ b; mapM (rowCells σ) rows.

Definition deref {A : Type} (o : option A) : Result A :=
  match o with
  | Some a => Ok a
  | None => Throw BadRef
  end.

(** [board[r][c]] through the store. *)
Definition load (σ : state) (board : loc) (r c : Z) : Result SquareState :=
  rows ← deref (boardRows σ board);
  match index rows r with
  | None => Throw TypeError
  | Some l =>
      cells ← deref (rowCells σ l);
      Ok (default Undefined (index cells c))
  end.

(** [board[r][c] = v] through the store: the row array is updated in place. *)
Definition store (σ : state) (board : loc) (r c : Z) (v : SquareState)
  : Result state :=
  rows ← deref (boardRows σ board);
  match index rows r with
  | None => Throw TypeError
  | Some l =>
      cells ← deref (rowCells σ l);
      Ok {| heap := <[l := ORow (writeAt cells c v)]> (heap σ);
            console := console σ |}
  end.

(** [rows.map(row => [...row])], the callback applied row by row: each call
    allocates a new array with the elements of [row]. *)
Fixpoint copyRows (σ : state) (rows : list loc) : Result (state * list loc) :=
  match rows with
  | [] => Ok (σ, [])
  | l :: rest =>
      cells ← deref (rowCells σ l);
      let '(σ1, l') := alloc σ (ORow cells) in
      '(σ2, rest') ← copyRows σ1 rest;
      Ok (σ2, l' :: rest')
  end.

(** [boardState.map(row => [...row])]: a new outer array of new rows. *)
Definition copyBoard (σ : state) (boardState : loc) : Result (state * loc) :=
  rows ← deref (boardRows σ boardState);
  '(σ1, rows') ← copyRows σ rows;
  Ok (alloc σ1 (OBoard rows')).

(** ** Move engine: makeMove *)

(** The line that [makeMove] writes with [console.error]. *)
Definition invalidNotation : string :=
  "Invalid algebraic notation passed to makeMove, returning original boardState.".

(** js/chess.ts, makeMove. *)
Definition makeMove (σ : state) (boardState : loc)
    (fromAlgebraic toAlgebraic : string) : Result (state * loc) :=
  match algebraicToIndices fromAlgebraic, algebraicToIndices toAlgebraic with
  | Some from, Some to =>
      '(σ1, newBoardState) ← copyBoard σ boardState;
      piece ← load σ1 newBoardState (row from) (col from);
      σ2 ← store σ1 newBoardState (row to) (col to) piece;
      σ3 ← store σ2 newBoardState (row from) (col from) Null;
      Ok (σ3, newBoardState)
  | _, _ =>
      Ok (consoleError σ invalidNotation, boardState)
  end.

(** Placing the contents of a board into the store, one new array per row:
    how the result of [fenToBoard] reaches its caller. *)
Fixpoint allocRows (σ : state) (g : BoardState) : state * list loc :=
  match g with
  | [] => (σ, [])
  | cells :: rest =>
      let '(σ1, l) := alloc σ (ORow cells) in
      let '(σ2, ls) := allocRows σ1 rest in
      (σ2, l :: ls)
  end.

Definition allocBoard (σ : state) (g : BoardState) : state * loc :=
  let '(σ1, rows) := allocRows σ g in alloc σ1 (OBoard rows).

Definition emptyState : state := {| heap := ∅; console := [] |}.

(** ** Glyphs: getPieceUnicode *)

(** js/chess.ts, getPieceUnicode: the table of glyphs, by the code points of
    the chess symbols U+2654 to U+265F.  A glyph is a string of one UTF-16
    code unit, here a list of code units; a key that is not in the table
    reads as undefined, which the function turns into the empty string. *)
Definition pieces : gmap ascii Z :=
  list_to_map
    [("P"%char, 9817); ("R"%char, 9814); ("N"%char, 9816);
     ("B"%char, 9815); ("Q"%char, 9813); ("K"%char, 9812);
     ("p"%char, 9823); ("r"%char, 9820); ("n"%char, 9822);
     ("b"%char, 9821); ("q"%char, 9819); ("k"%char, 9818)].

Definition getPieceUnicode (pieceCode : SquareState) : list Z :=
  match pieceCode with
  | Piece c =>
      match pieces !! c with
      | Some glyph => [glyph]
      | None => []
      end
  | Null | Undefined => []           (* !pieceCode *)
  end.

(** * js/main.js: the puzzle page *)

(** main.js runs in the page together with js/chess.js, whose functions are
    those of js/chess.ts except that [makeMove] writes no line on the
    console when a square is invalid.

    Conventions of the embedding
    - the global variables of main.js, the elements of the page that it
      reads or writes, and the store of the engine make up a [World]; a
      function of main.js is a function from the world to a result and the
      world after it ([Js]), so that what a function has changed before it
      throws stays changed;
    - an element that the code looks up by id is there or not ([option]);
      the squares are the children of the chessboard element, in the order
      in which they were appended, and nothing else in the page has the
      class square;
    - a puzzle of puzzles.json has the properties that the code reads, with
      strings where it expects strings;
    - [handleSquareClick] is the listener of every square and is called
      with the square that was clicked;
    - the start of the page (the DOMContentLoaded listener and
      [loadPuzzles], which fetches puzzles.json) is not part of the
      embedding: the functions below are what runs once the puzzles are
      there. *)

(** ** The page *)

(** An element of the page, by the properties that main.js reads or
    writes. *)
Record Element := {
  textContent : string;
  className : list string;          (* the classes, in order *)
  styleDisplay : string;            (* style.display *)
  disabled : bool }.

(** The span that shows a piece. *)
Record PieceElement := {
  pieceText : list Z;               (* textContent: the glyph *)
  pieceClassList : list string }.

(** A square of the board: a div with its classes, its data-algebraic
    attribute and the spans inside it. *)
Record SquareElement := {
  dataAlgebraic : string;
  classList : list string;
  children : list PieceElement }.

(** [classList.add] and [classList.remove]. *)
Definition classAdd (c : string) (l : list string) : list string :=
  if decide (c ∈ l) then l else l ++ [c].

Definition classRemove (c : string) (l : list string) : list string :=
  filter (λ x, x ≠ c) l.

(** The elements that main.js looks up by id: each is there or not.  The
    squares are the children of the chessboard element. *)
Record Page := {
  chessboard : option (list SquareElement);
  puzzle_description : option Element;
  turn_indicator : option Element }.

(** A puzzle of puzzles.json, with the progress that [loadPuzzleByIndex]
    adds to it. *)
Record Puzzle := {
  puzzleId : string;
  fen : string;
  solution : list string;
  description : string;
  turn : PlayerTurn;
  currentMoveIndexInSolution : Z }.

(** The global variables of main.js, the page, and the arrays and the
    console of the engine.  [currentPuzzle] refers to an element of
    [puzzles], here by its position. *)
Record World := {
  js : state;
  document : Page;
  currentBoardState : option loc;
  puzzles : list Puzzle;
  currentPuzzle : option nat;
  currentPuzzleIndex : Z;
  selectedSquare : option string;
  playerTurn : PlayerTurn;
  messageArea : option Element;
  nextPuzzleButton : option Element }.

Definition set_js (v : state) (w : World) : World :=
  {| js := v; document := document w;
     currentBoardState := currentBoardState w; puzzles := puzzles w;
     currentPuzzle := currentPuzzle w;
     currentPuzzleIndex := currentPuzzleIndex w;
     selectedSquare := selectedSquare w; playerTurn := playerTurn w;
     messageArea := messageArea w; nextPuzzleButton := nextPuzzleButton w |}.

Definition set_document (v : Page) (w : World) : World :=
  {| js := js w; document := v;
     currentBoardState := currentBoardState w; puzzles := puzzles w;
     currentPuzzle := currentPuzzle w;
     currentPuzzleIndex := currentPuzzleIndex w;
     selectedSquare := selectedSquare w; playerTurn := playerTurn w;
     messageArea := messageArea w; nextPuzzleButton := nextPuzzleButton w |}.

Definition set_currentBoardState (v : option loc) (w : World) : World :=
  {| js := js w; document := document w;
     currentBoardState := v; puzzles := puzzles w;
     currentPuzzle := currentPuzzle w;
     currentPuzzleIndex := currentPuzzleIndex w;
     selectedSquare := selectedSquare w; playerTurn := playerTurn w;
     messageArea := messageArea w; nextPuzzleButton := nextPuzzleButton w |}.

Definition set_puzzles (v : list Puzzle) (w : World) : World :=
  {| js := js w; document := document w;
     currentBoardState := currentBoardState w; puzzles := v;
     currentPuzzle := currentPuzzle w;
     currentPuzzleIndex := currentPuzzleIndex w;
     selectedSquare := selectedSquare w; playerTurn := playerTurn w;
     messageArea := messageArea w; nextPuzzleButton := nextPuzzleButton w |}.

Definition set_currentPuzzle (v : option nat) (w : World) : World :=
  {| js := js w; document := document w;
     currentBoardState := currentBoardState w; puzzles := puzzles w;
     currentPuzzle := v;
     currentPuzzleIndex := currentPuzzleIndex w;
     selectedSquare := selectedSquare w; playerTurn := playerTurn w;
     messageArea := messageArea w; nextPuzzleButton := nextPuzzleButton w |}.

Definition set_currentPuzzleIndex (v : Z) (w : World) : World :=
  {| js := js w; document := document w;
     currentBoardState := currentBoardState w; puzzles := puzzles w;
     currentPuzzle := currentPuzzle w;
     currentPuzzleIndex := v;
     selectedSquare := selectedSquare w; playerTurn := playerTurn w;
     messageArea := messageArea w; nextPuzzleButton := nextPuzzleButton w |}.

Definition set_selectedSquare (v : option string) (w : World) : World :=
  {| js := js w; document := document w;
     currentBoardState := currentBoardState w; puzzles := puzzles w;
     currentPuzzle := currentPuzzle w;
     currentPuzzleIndex := currentPuzzleIndex w;
     selectedSquare := v; playerTurn := playerTurn w;
     messageArea := messageArea w; nextPuzzleButton := nextPuzzleButton w |}.

Definition set_playerTurn (v : PlayerTurn) (w : World) : World :=
  {| js := js w; document := document w;
     currentBoardState := currentBoardState w; puzzles := puzzles w;
     currentPuzzle := currentPuzzle w;
     currentPuzzleIndex := currentPuzzleIndex w;
     selectedSquare := selectedSquare w; playerTurn := v;
     messageArea := messageArea w; nextPuzzleButton := nextPuzzleButton w |}.

Definition set_messageArea (v : option Element) (w : World) : World :=
  {| js := js w; document := document w;
     currentBoardState := currentBoardState w; puzzles := puzzles w;
     currentPuzzle := currentPuzzle w;
     currentPuzzleIndex := currentPuzzleIndex w;
     selectedSquare := selectedSquare w; playerTurn := playerTurn w;
     messageArea := v; nextPuzzleButton := nextPuzzleButton w |}.

Definition set_nextPuzzleButton (v : option Element) (w : World) : World :=
  {| js := js w; document := document w;
     currentBoardState := currentBoardState w; puzzles := puzzles w;
     currentPuzzle := currentPuzzle w;
     currentPuzzleIndex := currentPuzzleIndex w;
     selectedSquare := selectedSquare w; playerTurn := playerTurn w;
     messageArea := messageArea w; nextPuzzleButton := v |}.

(** ** Statements of main.js *)

(** A piece of code of main.js: it changes the world and then returns a
    value or throws; what it changed before it threw stays changed. *)
Definition Js (A : Type) : Type := World → Result A * World.

#[global] Instance Js_ret : MRet Js := λ A a w, (Ok a, w).
#[global] Instance Js_bind : MBind Js := λ A B f m w,
  match m w with
  | (Ok a, w') => f a w'
  | (Throw e, w') => (Throw e, w')
  end.

Definition read {A : Type} (f : World → A) : Js A := λ w, (Ok (f w), w).
Definition write (f : World → World) : Js unit := λ w, (Ok tt, f w).
Definition throw {A : Type} (e : error) : Js A := λ w, (Throw e, w).
Definition skip : Js unit := λ w, (Ok tt, w).

(** A [for] loop over the values of [l]. *)
Fixpoint forEach {A : Type} (l : list A) (body : A → Js unit) : Js unit :=
  match l with
  | [] => skip
  | x :: rest => _ ← body x; forEach rest body
  end.

(** [console.log] and [console.error]: one line, the arguments separated by
    blanks. *)
Definition consoleLine (args : list string) : Js unit :=
  write (λ w, set_js (consoleError (js w) (String.concat " " args)) w).

(** js/chess.js, makeMove: as in js/chess.ts, without the console line. *)
Definition makeMoveJs (σ : state) (boardState : loc)
    (fromAlgebraic toAlgebraic : string) : Result (state * loc) :=
  match algebraicToIndices fromAlgebraic, algebraicToIndices toAlgebraic with
  | Some from, Some to =>
      '(σ1, newBoardState) ← copyBoard σ boardState;
      piece ← load σ1 newBoardState (row from) (col from);
      σ2 ← store σ1 newBoardState (row to) (col to) piece;
      σ3 ← store σ2 newBoardState (row from) (col from) Null;
      Ok (σ3, newBoardState)
  | _, _ => Ok (σ, boardState)
  end.

(** A call of an engine function that works on the arrays. *)
Definition engine {A : Type} (f : state → Result (state * A)) : Js A :=
  λ w, match f (js w) with
       | Ok (σ, a) => (Ok a, set_js σ w)
       | Throw e => (Throw e, w)
       end.

(** A call of an engine function that returns a value or throws. *)
Definition pure {A : Type} (r : Result A) : Js A := λ w, (r, w).

(** What a board variable holds, for a function that reads it: null has no
    rows. *)
Definition boardOf (w : World) (boardState : option loc) : Result BoardState :=
  match boardState with
  | None => Ok []
  | Some b => deref (contents (js w) b)
  end.

(** [isValidMove(boardState, f, t, playerTurn)] on a board variable. *)
Definition callIsValidMove (boardState : option loc) (f t : string)
    (playerTurn : PlayerTurn) : Js bool :=
  λ w, (g ← boardOf w boardState; isValidMove g f t playerTurn, w).

(** [fenToBoard(fenString)]: the board goes into the store. *)
Definition callFenToBoard (fenString : string) : Js loc :=
  engine (λ σ, g ← fenToBoard fenString; Ok (allocBoard σ g)).

(** [makeMove(boardState, f, t)] on a board variable: with two valid squares
    null has no [map]; with an invalid square the variable comes back. *)
Definition callMakeMove (boardState : option loc) (f t : string)
  : Js (option loc) :=
  match boardState with
  | None =>
      match algebraicToIndices f, algebraicToIndices t with
      | Some _, Some _ => throw TypeError
      | _, _ => mret None
      end
  | Some b => engine (λ σ, '(σ', b') ← makeMoveJs σ b f t; Ok (σ', Some b'))
  end.

(** [document.querySelector('.square[data-algebraic="name"]')]: the first
    square with class square and that name, by its position; for a name
    without quotation mark or backslash, as the names of the squares are. *)
Definition querySquare (name : string) (w : World) : option nat :=
  squares ← chessboard (document w);
  fst <$> list_find
            (λ sq, "square"%string ∈ classList sq ∧ dataAlgebraic sq = name)
            squares.

(** A change of the square at position [i]. *)
Definition changeSquare (i : nat) (f : SquareElement → SquareElement) : Js unit :=
  write (λ w,
    set_document
      {| chessboard := alter f i <$> chessboard (document w);
         puzzle_description := puzzle_description (document w);
         turn_indicator := turn_indicator (document w) |} w).

Definition flipTurn (t : PlayerTurn) : PlayerTurn :=
  if isW t then Black else White.       (* (t === 'w') ? 'b' : 'w' *)

Definition sideName (t : PlayerTurn) : string :=
  if isW t then "White" else "Black".   (* t === 'w' ? 'White' : 'Black' *)

(** js/main.js, updateTurnIndicator. *)
Definition updateTurnIndicator : Js unit :=
  turnIndicatorEl ← read (λ w, turn_indicator (document w));
  match turnIndicatorEl with
  | Some el =>
      side ← read playerTurn;
      write (λ w,
        set_document
          {| chessboard := chessboard (document w);
             puzzle_description := puzzle_description (document w);
             turn_indicator :=
               Some {| textContent := sideName side +:+ " to move";
                       className := className el;
                       styleDisplay := styleDisplay el;
                       disabled := disabled el |} |} w)
  | None => skip
  end.

(** js/main.js, displayMessage. *)
Definition displayMessage (text type : string) : Js unit :=
  area ← read messageArea;
  match area with
  | None => skip
  | Some el =>
      write (set_messageArea
        (Some {| textContent := text;
                 className :=
                   if String.eqb type "success" then classAdd "success" []
                   else if String.eqb type "error" then classAdd "error" []
                   else [];
                 styleDisplay := styleDisplay el;
                 disabled := disabled el |}))
  end.

Definition files : list string := ["a"; "b"; "c"; "d"; "e"; "f"; "g"; "h"]%string.

(** [files[fileIndex] + (8 - rankIndex)], for the file indices 0..7 of the
    loops. *)
Definition squareName (rankIndex fileIndex : Z) : string :=
  default EmptyString (index files fileIndex) +:+ pretty (8 - rankIndex).

(** js/main.js, initializeBoardUI.  The listener of every square is
    [handleSquareClick]. *)
Definition initializeBoardUI : Js unit :=
  chessboardEl ← read (λ w, chessboard (document w));
  match chessboardEl with
  | None => consoleLine ["Chessboard element not found!"%string]
  | Some _ =>
      let addSquare (square : SquareElement) : Js unit :=
        write (λ w,
          set_document
            {| chessboard := (λ l, l ++ [square]) <$> chessboard (document w);
               puzzle_description := puzzle_description (document w);
               turn_indicator := turn_indicator (document w) |} w) in
      _ ← write (λ w,
            set_document
              {| chessboard := Some [];
                 puzzle_description := puzzle_description (document w);
                 turn_indicator := turn_indicator (document w) |} w);
      _ ← forEach (seqZ 0 8) (λ rankIndex,
            forEach (seqZ 0 8) (λ fileIndex,
              let algebraicName := squareName rankIndex fileIndex in
              addSquare
                {| dataAlgebraic := algebraicName;
                   classList :=
                     classAdd
                       (if Z.rem (rankIndex + fileIndex) 2 =? 0
                        then "light-square" else "dark-square")
                       (classAdd "square" []);
                   children := [] |}));
      consoleLine ["Chessboard UI initialized."%string]
  end.

(** js/main.js, displayPieces. *)
Definition displayPieces (boardState : option loc) : Js unit :=
  match boardState with
  | None => consoleLine ["Board state is not available to display pieces."%string]
  | Some board =>
      _ ← forEach (seqZ 0 8) (λ rankIndex,
            forEach (seqZ 0 8) (λ fileIndex,
              pieceCode ← (λ w, (load (js w) board rankIndex fileIndex, w));
              let algebraicName := squareName rankIndex fileIndex in
              squareElement ← read (querySquare algebraicName);
              match squareElement with
              | Some i =>
                  _ ← changeSquare i (λ sq,
                        {| dataAlgebraic := dataAlgebraic sq;
                           classList := classList sq;
                           children := [] |});
                  match pieceCode with
                  | Piece c =>
                      let pieceUnicode := getPieceUnicode pieceCode in
                      let pieceElement :=
                        {| pieceText := pieceUnicode;
                           pieceClassList :=
                             classAdd
                               (if isUpperCase c then "white" else "black")
                               (classAdd "piece" []) |} in
                      changeSquare i (λ sq,
                        {| dataAlgebraic := dataAlgebraic sq;
                           classList := classList sq;
                           children := children sq ++ [pieceElement] |})
                  | _ => skip
                  end
              | None => skip
              end));
      consoleLine ["Pieces displayed on board."%string]
  end.

(** The puzzle that [currentPuzzle] refers to: reading a property of null
    throws. *)
Definition thePuzzle : Js Puzzle :=
  λ w, match currentPuzzle w with
       | None => (Throw TypeError, w)
       | Some p => (deref (puzzles w !! p), w)
       end.

(** [currentPuzzle.currentMoveIndexInSolution = v]: the puzzle in the list is
    the one that changes. *)
Definition setMoveIndex (v : Z) : Js unit :=
  λ w, match currentPuzzle w with
       | None => (Throw TypeError, w)
       | Some p =>
           (Ok tt,
            set_puzzles
              (alter (λ pz,
                        {| puzzleId := puzzleId pz; fen := fen pz;
                           solution := solution pz;
                           description := description pz; turn := turn pz;
                           currentMoveIndexInSolution := v |}) p (puzzles w))
              w)
       end.

(** Removes the class selected from the square named [name], when there is
    such a square. *)
Definition deselect (name : string) : Js unit :=
  prevSelectedElement ← read (querySquare name);
  match prevSelectedElement with
  | Some i =>
      changeSquare i (λ sq,
        {| dataAlgebraic := dataAlgebraic sq;
           classList := classRemove "selected" (classList sq);
           children := children sq |})
  | None => skip
  end.

(** [if (descriptionEl) descriptionEl.textContent = text]. *)
Definition setDescription (text : string) : Js unit :=
  write (λ w,
    match puzzle_description (document w) with
    | Some el =>
        set_document
          {| chessboard := chessboard (document w);
             puzzle_description :=
               Some {| textContent := text;
                       className := className el;
                       styleDisplay := styleDisplay el;
                       disabled := disabled el |};
             turn_indicator := turn_indicator (document w) |} w
    | None => w
    end).

(** [if (messageArea) { messageArea.textContent = ''; messageArea.className
    = ''; }]. *)
Definition clearMessage : Js unit :=
  write (λ w,
    match messageArea w with
    | Some el =>
        set_messageArea
          (Some {| textContent := EmptyString; className := [];
                   styleDisplay := styleDisplay el;
                   disabled := disabled el |}) w
    | None => w
    end).

(** [if (nextPuzzleButton) nextPuzzleButton.style.display = display]. *)
Definition displayNextPuzzleButton (display : string) : Js unit :=
  write (λ w,
    match nextPuzzleButton w with
    | Some el =>
        set_nextPuzzleButton
          (Some {| textContent := textContent el;
                   className := className el;
                   styleDisplay := display;
                   disabled := disabled el |}) w
    | None => w
    end).

(** js/main.js, loadPuzzleByIndex. *)
Definition loadPuzzleByIndex (index : Z) : Js unit :=
  puzzlesLength ← read (λ w, Z.of_nat (length (puzzles w)));
  if (index <? 0) || (index >=? puzzlesLength) then
    consoleLine ["Invalid puzzle index:"; pretty index]%string
  else
    _ ← write (set_currentPuzzle (Some (Z.to_nat index)));
    _ ← write (set_currentPuzzleIndex index);
    p ← thePuzzle;
    _ ← write (set_playerTurn (turn p));
    _ ← setMoveIndex 0;
    _ ← consoleLine ["Loading puzzle:"; puzzleId p; "FEN:"; fen p]%string;
    board ← callFenToBoard (fen p);
    _ ← write (set_currentBoardState (Some board));
    _ ← displayPieces (Some board);
    _ ← setDescription (description p);
    _ ← updateTurnIndicator;
    _ ← clearMessage;
    _ ← displayNextPuzzleButton "none";
    selected ← read selectedSquare;
    _ ← match selected return Js unit with
        | Some (String c s) =>          (* a string that is not empty *)
            _ ← deselect (String c s);
            write (set_selectedSquare None)
        | _ => skip
        end;
    side ← read playerTurn;
    consoleLine
      ["Puzzle " +:+ puzzleId p +:+ " loaded. " +:+ sideName side
       +:+ "'s turn."]%string.

(** The statements of [handleSquareClick] for a solved puzzle, which stand
    at its two exits: the next-puzzle button is shown and labelled; setting
    a property of a button that is not there throws. *)
Definition showNextPuzzleButton : Js unit :=
  _ ← displayNextPuzzleButton "block";
  last ← read (λ w,
           currentPuzzleIndex w >=? Z.of_nat (length (puzzles w)) - 1);
  button ← read nextPuzzleButton;
  match button with
  | None => throw TypeError
  | Some el =>
      write (set_nextPuzzleButton
        (Some {| textContent :=
                   if (last : bool) then "All Puzzles Solved!"
                   else "Next Puzzle";
                 className := className el;
                 styleDisplay := styleDisplay el;
                 disabled := last |}))
  end.

(** [makeMove] on [currentBoardState], [displayPieces], and the progress of
    the puzzle moved on by one. *)
Definition playMove (f t : string) : Js unit :=
  board ← read currentBoardState;
  board' ← callMakeMove board f t;
  _ ← write (set_currentBoardState board');
  _ ← displayPieces board';
  p ← thePuzzle;
  setMoveIndex (currentMoveIndexInSolution p + 1).

Definition switchTurn : Js unit :=
  _ ← write (λ w, set_playerTurn (flipTurn (playerTurn w)) w);
  updateTurnIndicator.

(** js/main.js, handleSquareClick; [target] is the position of the square
    that was clicked, [event.currentTarget]. *)
Definition handleSquareClick (target : nat) : Js unit :=
  clickedSquareElement ← read (λ w, chessboard (document w) ≫= (.!! target));
  match clickedSquareElement with
  | None => throw BadRef              (* no such square: no such event *)
  | Some el =>
    let clickedSquareAlgebraic := dataAlgebraic el in
    current ← read currentPuzzle;
    match current with
    | None => skip
    | Some _ =>
      selected ← read selectedSquare;
      match selected with
      | None =>
          m ← pure match algebraicToIndices clickedSquareAlgebraic with
                   | Some m => Ok m
                   | None => Throw TypeError
                   end;
          board ← read currentBoardState;
          pieceCodeOnSquare ←
            match board with
            | None => throw TypeError
            | Some b => λ w, (load (js w) b (row m) (col m), w)
            end;
          match pieceCodeOnSquare with
          | Piece c =>
              let isWhitePiece := isUpperCase c in
              side ← read playerTurn;
              if (isW side && isWhitePiece) || (isB side && negb isWhitePiece)
              then
                _ ← write (set_selectedSquare (Some clickedSquareAlgebraic));
                _ ← changeSquare target (λ sq,
                      {| dataAlgebraic := dataAlgebraic sq;
                         classList := classAdd "selected" (classList sq);
                         children := children sq |});
                displayMessage "Piece selected. Click destination square." "info"
              else displayMessage "Not your turn or not your piece." "error"
          | _ => displayMessage "Clicked an empty square. Select a piece." "info"
          end
      | Some sourceSquare =>
          let destinationSquare := clickedSquareAlgebraic in
          _ ← deselect sourceSquare;
          _ ← write (set_selectedSquare None);
          if String.eqb sourceSquare destinationSquare then
            displayMessage "Selection cancelled." "info"
          else
            board ← read currentBoardState;
            side ← read playerTurn;
            valid ← callIsValidMove board sourceSquare destinationSquare side;
            if negb (valid : bool) then
              displayMessage "Invalid move for that piece." "error"
            else
              let attemptedMoveString := (sourceSquare +:+ destinationSquare)%string in
              p ← thePuzzle;
              let expectedMoveString :=
                index (solution p) (currentMoveIndexInSolution p) in
              if bool_decide (expectedMoveString = Some attemptedMoveString)
              then
                _ ← playMove sourceSquare destinationSquare;
                _ ← displayMessage "Correct move!" "success";
                p ← thePuzzle;
                if currentMoveIndexInSolution p
                   >=? Z.of_nat (length (solution p))
                then
                  _ ← displayMessage "Puzzle Solved!" "success";
                  showNextPuzzleButton
                else
                  _ ← switchTurn;
                  let currentSolutionMovePlayer :=
                    if negb (Z.rem (currentMoveIndexInSolution p) 2 =? 0)
                    then flipTurn (turn p) else turn p in
                  side ← read playerTurn;
                  if bool_decide (side = currentSolutionMovePlayer) then
                    _ ← consoleLine ["Computer to play..."%string];
                    compMoveString ←
                      pure match index (solution p)
                                   (currentMoveIndexInSolution p) with
                           | Some s => Ok s
                           | None => Throw TypeError
                           end;
                    let compFromSq := substring 0 2 compMoveString in
                    let compToSq := substring 2 2 compMoveString in
                    board ← read currentBoardState;
                    valid ← callIsValidMove board compFromSq compToSq side;
                    if (valid : bool) then
                      _ ← playMove compFromSq compToSq;
                      p ← thePuzzle;
                      if currentMoveIndexInSolution p
                         >=? Z.of_nat (length (solution p))
                      then
                        _ ← displayMessage
                              "Puzzle Solved! (after computer move)" "success";
                        showNextPuzzleButton
                      else switchTurn
                    else
                      _ ← consoleLine
                            ["Invalid computer move in solution:";
                             compMoveString]%string;
                      _ ← displayMessage
                            "Error in puzzle solution (computer move)." "error";
                      switchTurn
                  else skip
              else displayMessage "Incorrect move. Try again." "error"
      end
    end
  end.

(** * Notions of the specification *)

(** The valid algebraic squares: a letter a..h followed by a digit 1..8. *)
Definition valid_square (s : string) : bool :=
  match s with
  | String f (String d EmptyString) =>
      (charCode "a" <=? charCode f) && (charCode f <=? charCode "h")
      && (charCode "1" <=? charCode d) && (charCode d <=? charCode "8")
  | _ => false
  end.

(** The valid rows and columns. *)
Definition valid_index (i : Z) : Prop := 0 <= i <= 7.

(** The squares named by the index pairs, row by row from a8 to h1. *)
Definition allSquares : list string :=
  flat_map
    (λ r, flat_map (λ c, option_list (indicesToAlgebraic r c)) (seqZ 0 8))
    (seqZ 0 8).

(** An 8x8 grid. *)
Definition wf_board (g : BoardState) : bool :=
  (length g =? 8)%nat && forallb (λ rw, (length rw =? 8)%nat) g.

(** The square at row [r], column [c], as a total function. *)
Definition get (g : BoardState) (r c : Z) : SquareState :=
  match index g r with
  | Some rw => default Undefined (index rw c)
  | None => Undefined
  end.

(** The side a piece code belongs to: case encodes colour. *)
Definition colorOf (c : ascii) : PlayerTurn :=
  if isUpperCase c then White else Black.

(** The square holds a piece of side [t]. *)
Definition sameSide (t : PlayerTurn) (v : SquareState) : bool :=
  match v with
  | Piece c => bool_decide (colorOf c = t)
  | _ => false
  end.

(** The twelve piece codes: a kind and a side. *)
Inductive Kind := Pawn | Knight | Bishop | Rook | Queen | King.

Definition pieceCode (t : PlayerTurn) (k : Kind) : ascii :=
  match t, k with
  | White, Pawn => "P" | White, Knight => "N" | White, Bishop => "B"
  | White, Rook => "R" | White, Queen => "Q" | White, King => "K"
  | Black, Pawn => "p" | Black, Knight => "n" | Black, Bishop => "b"
  | Black, Rook => "r" | Black, Queen => "q" | Black, King => "k"
  end%char.

Definition opponent (t : PlayerTurn) : PlayerTurn :=
  if t is White then Black else White.

Definition forwardDir (t : PlayerTurn) : Z := if t is White then -1 else 1.
Definition startRow (t : PlayerTurn) : Z := if t is White then 6 else 1.

(** The [k]-th square on the way from [from] to [to]: one step moves by the
    sign of the row and column differences. *)
Definition lineSquare (from to : AlgebraicMapping) (k : Z) : Z * Z :=
  (row from + k * Z.sgn (row to - row from),
   col from + k * Z.sgn (col to - col from)).

(** The number of steps from [from] to [to] along a rank, file or diagonal. *)
Definition distance (from to : AlgebraicMapping) : Z :=
  Z.max (Z.abs (row to - row from)) (Z.abs (col to - col from)).

(** Every square strictly between [from] and [to] is empty. *)
Definition pathClear (g : BoardState) (from to : AlgebraicMapping) : Prop :=
  ∀ k, 1 <= k < distance from to →
       truthy (get g (lineSquare from to k).1 (lineSquare from to k).2) = false.

Definition diagonal (dr dc : Z) : Prop := Z.abs dr = Z.abs dc ∧ 0 < Z.abs dr.

Definition straight (dr dc : Z) : Prop :=
  (dr = 0 ∧ dc ≠ 0) ∨ (dr ≠ 0 ∧ dc = 0).

(** The geometry of the specification for the sliding pieces. *)
Definition geometry (k : Kind) (dr dc : Z) : Prop :=
  match k with
  | Bishop => diagonal dr dc
  | Rook => straight dr dc
  | Queen => diagonal dr dc ∨ straight dr dc
  | _ => False
  end.

Definition slides (k : Kind) : bool :=
  match k with
  | Bishop | Rook | Queen => true
  | _ => false
  end.

(** The board [g] with [v] on the square at row [r], column [c]. *)
Definition place (g : BoardState) (r c : Z) (v : SquareState) : BoardState :=
  match index g r with
  | Some rw => <[Z.to_nat r := writeAt rw c v]> g
  | None => g
  end.

(** [rows] are live rows of [σ] whose cells are the rows of [g]. *)
Definition holds (σ : state) (rows : list loc) (g : BoardState) : Prop :=
  Forall2 (λ l cells, rowCells σ l = Some cells) rows g.

(** ** Example positions *)

(** The starting position. *)
Definition startPosition : BoardState :=
  Eval vm_compute in
    match fenToBoard "rnbqkbnr/pppppppp/8/8/8/8/PPPPPPPP/RNBQKBNR w KQkq - 0 1" with
    | Ok g => g
    | Throw _ => []
    end.

(** A white rook on a8 with a black knight on c8. *)
Definition rookPosition : BoardState :=
  Eval vm_compute in
    match fenToBoard "R1n5/8/8/8/8/8/8/k6K w - - 0 1" with
    | Ok g => g
    | Throw _ => []
    end.

(** A white queen on a8, the black king on a1. *)
Definition queenPosition : BoardState :=
  Eval vm_compute in
    match fenToBoard "Q7/8/8/8/8/8/8/k6K w - - 0 1" with
    | Ok g => g
    | Throw _ => []
    end.

(** The two kings on their squares. *)
Definition kingPosition : BoardState :=
  Eval vm_compute in
    match fenToBoard "4k3/8/8/8/8/8/8/4K3 w - - 0 1" with
    | Ok g => g
    | Throw _ => []
    end.

(** The starting position in a store of its own. *)
Definition startState : state := (allocBoard emptyState startPosition).1.
Definition startBoard : loc := (allocBoard emptyState startPosition).2.

(** ** Notions for the further properties *)

(** The kind of piece a code stands for, read as the switch of [isValidMove]
    reads it: by the lower-case form of the code. *)
Definition kindOf (c : ascii) : option Kind :=
  let kind := toLowerCase c in
  if Ascii.eqb kind "p" then Some Pawn
  else if Ascii.eqb kind "n" then Some Knight
  else if Ascii.eqb kind "b" then Some Bishop
  else if Ascii.eqb kind "r" then Some Rook
  else if Ascii.eqb kind "q" then Some Queen
  else if Ascii.eqb kind "k" then Some King
  else None.

(** The 64 index pairs, and the number of squares of a board whose content
    satisfies [P]. *)
Definition allCoords : list (Z * Z) :=
  flat_map (λ r, map (λ c, (r, c)) (seqZ 0 8)) (seqZ 0 8).

Definition countSquares (P : SquareState → bool) (g : BoardState) : Z :=
  Z.of_nat (length (List.filter (λ rc, P (get g rc.1 rc.2)) allCoords)).

(** A row without pieces. *)
Definition emptyRow : list SquareState := replicate 8 Null.

(** What a rank string describes: a digit stands for that many empty
    squares, every other character for a square that holds it. *)
Fixpoint expandRank (rankStr : string) : list SquareState :=
  match rankStr with
  | EmptyString => []
  | String char rest =>
      match parseInt char with
      | Some n => replicate (Z.to_nat n) Null
      | None => [Piece char]
      end ++ expandRank rest
  end.

(** The first eight squares of a description, empty squares added when it
    is short. *)
Definition padded (cells : list SquareState) : list SquareState :=
  take 8 (cells ++ emptyRow).

(** The row of the board that a rank string describes. *)
Definition rankRow (rankStr : string) : list SquareState :=
  padded (expandRank rankStr).

(** The rank strings of a position description: the text before the first
    blank, cut at the slashes. *)
Definition ranksOf (fenString : string) : list string :=
  split "/" (hd EmptyString (split " " fenString)).

(** Whether a character occurs in a string. *)
Fixpoint occurs (c : ascii) (s : string) : bool :=
  match s with
  | EmptyString => false
  | String d s' => Ascii.eqb d c || occurs c s'
  end.

(** What a square of a parsed board can hold: nothing, or a character that
    is no digit. *)
Definition parsedCell (v : SquareState) : Prop :=
  match v with
  | Null => True
  | Piece c => isDigit c = false
  | Undefined => False
  end.
(** The piece of the other side: the same kind in the other case.  What is
    no piece code stays as it is. *)
Definition swapSide (v : SquareState) : SquareState :=
  match v with
  | Piece c =>
      match kindOf c with
      | Some k => Piece (pieceCode (opponent (colorOf c)) k)
      | None => v
      end
  | Null | Undefined => v
  end.

(** The board seen from the other side: the rows in reverse order, every
    piece changed into the piece of the other side. *)
Definition mirror (g : BoardState) : BoardState :=
  reverse (map (map swapSide) g).

Definition mirrorSquare (m : AlgebraicMapping) : AlgebraicMapping :=
  {| row := 7 - row m; col := col m |}.

(** A square that holds nothing or one of the twelve piece codes, and a
    board of such squares. *)
Definition standardSquare (v : SquareState) : bool :=
  match v with
  | Piece c => bool_decide (is_Some (kindOf c))
  | Null => true
  | Undefined => false
  end.

Definition standard (g : BoardState) : bool :=
  forallb (forallb standardSquare) g.

(** ** Notions for js/main.js *)

(** The game, as opposed to what the page shows of it: the board variable,
    the puzzles with their progress, the puzzle that is played, the side to
    move, and the arrays. *)
Definition game (w : World) :=
  (currentBoardState w, puzzles w, currentPuzzle w, currentPuzzleIndex w,
   playerTurn w, heap (js w)).

(** The move that the solution of the current puzzle has next. *)
Definition expectedMove (w : World) : option string :=
  p ← currentPuzzle w;
  pz ← puzzles w !! p;
  index (solution pz) (currentMoveIndexInSolution pz).

(** The text that a message area shows, when there is one. *)
Definition shown (text : string) (area : option Element) : Prop :=
  ∀ el, area = Some el → textContent el = text.

(** What a square shows for the content of a board square: nothing, or one
    span with the glyph of the piece and the class of its side. *)
Definition paint (v : SquareState) : list PieceElement :=
  match v with
  | Piece c =>
      [ {| pieceText := getPieceUnicode v;
           pieceClassList :=
             ["piece"; if isUpperCase c then "white" else "black"]%string |} ]
  | Null | Undefined => []
  end.

(** The squares of the page with the first [k] of them showing the board
    [g]: the square at position [i] shows row [i / 8], column [i mod 8]. *)
Definition paintedTo (k : nat) (g : BoardState) (squares : list SquareElement)
  : list SquareElement :=
  imap (λ i sq,
          if decide (i < k)%nat then
            {| dataAlgebraic := dataAlgebraic sq;
               classList := classList sq;
               children :=
                 paint (get g (Z.of_nat i `div` 8) (Z.of_nat i `mod` 8)) |}
          else sq)
       squares.

(** All squares showing the board. *)
Definition painted (g : BoardState) (squares : list SquareElement)
  : list SquareElement :=
  paintedTo (length squares) g squares.

(** The squares of a board as [initializeBoardUI] names them: 64 elements of
    class square, named a8, b8, ... h1 in this order. *)
Definition boardUI (squares : list SquareElement) : Prop :=
  dataAlgebraic <$> squares = allSquares
  ∧ Forall (λ sq, "square"%string ∈ classList sq) squares.

(** The page with other squares. *)
Definition withSquares (squares : option (list SquareElement)) (page : Page)
  : Page :=
  {| chessboard := squares;
     puzzle_description := puzzle_description page;
     turn_indicator := turn_indicator page |}.

(** The side that plays move [i] of the solution of a puzzle, as
    [handleSquareClick] reckons it: the puzzle's side moves first and the
    sides alternate. *)
Definition solutionPlayer (pz : Puzzle) (i : Z) : PlayerTurn :=
  if negb (Z.rem i 2 =? 0) then flipTurn (turn pz) else turn pz.

(** The puzzle with another progress. *)
Definition withProgress (v : Z) (pz : Puzzle) : Puzzle :=
  {| puzzleId := puzzleId pz; fen := fen pz; solution := solution pz;
     description := description pz; turn := turn pz;
     currentMoveIndexInSolution := v |}.

(** The board after a move from [from] to [to]. *)
Definition moved (g : BoardState) (from to : AlgebraicMapping) : BoardState :=
  place (place g (row to) (col to) (get g (row from) (col from)))
        (row from) (col from) Null.

(** The button for the next puzzle as a solved puzzle leaves it. *)
Definition solvedButton (last : bool) (btn : Element) : Element :=
  {| textContent := if last then "All Puzzles Solved!" else "Next Puzzle";
     className := className btn;
     styleDisplay := "block";
     disabled := last |}.

(** The squares that [initializeBoardUI] creates: one for every name, light
    where the sum of row and column is even, with nothing inside. *)
Definition freshSquares : list SquareElement :=
  imap (λ i name,
          {| dataAlgebraic := name;
             classList :=
               ["square";
                if Nat.even (i `div` 8 + i `mod` 8) then "light-square"
                else "dark-square"]%string;
             children := [] |})
       allSquares.

(** Whether squares are those of a board can be computed. *)
#[global] Instance boardUI_dec squares : Decision (boardUI squares) :=
  (_ : Decision (dataAlgebraic <$> squares = allSquares
                 ∧ Forall (λ sq, "square"%string ∈ classList sq) squares)).

(** ** An example page *)

(** An element without text, class or style. *)
Definition blank : Element :=
  {| textContent := ""; className := []; styleDisplay := "";
     disabled := false |}.

(** Four puzzles: the two of tests/main.test.ts, which are the two moves
    e2-e4 e7-e5 from the starting position and a rook move that is the whole
    solution; a solution whose reply is no valid move; a position with a
    ninth rank. *)
Definition examplePuzzles : list Puzzle :=
  [ {| puzzleId := "p1";
       fen := "rnbqkbnr/pppppppp/8/8/8/8/PPPPPPPP/RNBQKBNR w KQkq - 0 1";
       solution := ["e2e4"; "e7e5"]; description := "Test Puzzle 1";
       turn := White; currentMoveIndexInSolution := 0 |};
    {| puzzleId := "p2"; fen := "4k3/8/8/8/8/8/8/R3K3 w Q - 0 1";
       solution := ["a1a8"]; description := "Test Puzzle 2";
       turn := White; currentMoveIndexInSolution := 0 |};
    {| puzzleId := "p3";
       fen := "rnbqkbnr/pppppppp/8/8/8/8/PPPPPPPP/RNBQKBNR w KQkq - 0 1";
       solution := ["e2e4"; "e7e4"; "d2d3"]; description := "A wrong reply";
       turn := White; currentMoveIndexInSolution := 0 |};
    {| puzzleId := "p4"; fen := "8/8/8/8/8/8/8/8/p";
       solution := []; description := "Nine ranks";
       turn := Black; currentMoveIndexInSolution := 0 |} ]%string.

(** The page of tests/main.test.ts as it is loaded, with the puzzles
    fetched: every element is there, the chessboard has no squares yet. *)
Definition startWorld : World :=
  {| js := emptyState;
     document := {| chessboard := Some [];
                    puzzle_description := Some blank;
                    turn_indicator := Some blank |};
     currentBoardState := None;
     puzzles := examplePuzzles;
     currentPuzzle := None;
     currentPuzzleIndex := 0;
     selectedSquare := None;
     playerTurn := White;
     messageArea := Some blank;
     nextPuzzleButton :=
       Some {| textContent := "Next Puzzle"; className := [];
               styleDisplay := ""; disabled := false |} |}.

(** The world after a statement. *)
Definition after {A : Type} (m : Js A) (w : World) : World := (m w).2.

(** The page with its squares, with puzzle [n] loaded, and with the square
    at position [target] clicked after that. *)
Definition readyWorld : World := after initializeBoardUI startWorld.
Definition loadedWorld (n : Z) : World :=
  after (loadPuzzleByIndex n) readyWorld.
Definition clickedWorld (n : Z) (target : nat) : World :=
  after (handleSquareClick target) (loadedWorld n).

(** The squares and the board of a world, when it has them. *)
Definition squaresOf (w : World) : list SquareElement :=
  default [] (chessboard (document w)).
Definition boardVar (w : World) : loc := default 0%nat (currentBoardState w).
Definition boardContents (w : World) : BoardState :=
  default [] (contents (js w) (boardVar w)).

(** The square that the selector finds for a name, and the text that a
    square shows: [querySelector('[data-algebraic=...]')] and [textContent]
    in the tests. *)
Definition squareNamed (name : string) (w : World) : option SquareElement :=
  i ← querySquare name w; squaresOf w !! i.
Definition squareText (sq : SquareElement) : list Z :=
  mjoin (pieceText <$> children sq).
Definition pieceClasses (sq : SquareElement) : list (list string) :=
  pieceClassList <$> children sq.

(** The puzzle of the test of the solved puzzle. *)
Definition solvedPuzzle : Puzzle :=
  {| puzzleId := "psolved"; fen := "4k3/8/8/8/8/8/8/R3K2R w K - 0 1";
     solution := ["a1a8"]; description := "Mate";
     turn := White; currentMoveIndexInSolution := 0 |}.

(** * Properties *)

(** ** Proof tools *)

(** Case analysis on the integer comparisons of a goal. *)
Ltac zcases :=
  repeat (match goal with
    | |- context [?a <? ?b] => destruct (Z.ltb_spec a b)
    | |- context [?a <=? ?b] => destruct (Z.leb_spec a b)
    | |- context [?a >? ?b] => rewrite (Z.gtb_ltb a b)
    | |- context [?a =? ?b] => destruct (Z.eqb_spec a b)
    end; cbn [andb orb negb]).

Ltac zcases_in H :=
  repeat (match type of H with
    | context [?a <? ?b] => destruct (Z.ltb_spec a b)
    | context [?a <=? ?b] => destruct (Z.leb_spec a b)
    | context [?a >? ?b] => rewrite (Z.gtb_ltb a b) in H
    | context [?a =? ?b] => destruct (Z.eqb_spec a b)
    end; cbn [andb orb negb] in H).

Lemma charCode_bounds c : 0 <= charCode c < 256.
Proof.
  unfold charCode. pose proof (N_ascii_bounded c). lia.
Qed.

Lemma charCode_inj c d : charCode c = charCode d → c = d.
Proof.
  unfold charCode. intros H.
  rewrite <- (ascii_N_embedding c), <- (ascii_N_embedding d).
  f_equal. lia.
Qed.

(** ** Coordinate mapper *)

(** The code accepts exactly the valid squares of the specification. *)
Lemma algebraicToIndices_valid s :
  valid_square s = true ↔ is_Some (algebraicToIndices s).
Proof.
  destruct s as [|f [|d [|]]]; simpl;
    try (split; [discriminate | intros [? ?]; discriminate]).
  unfold parseInt, isDigit.
  change (charCode "a") with 97. change (charCode "h") with 104.
  change (charCode "1") with 49. change (charCode "8") with 56.
  pose proof (charCode_bounds f). pose proof (charCode_bounds d).
  split.
  - intros Hv. zcases_in Hv; try discriminate.
    zcases; try lia; eauto.
  - intros [m Hm]. zcases_in Hm; try discriminate; zcases; try lia; reflexivity.
Qed.

Lemma algebraicToIndices_invalid s :
  valid_square s = false ↔ algebraicToIndices s = None.
Proof.
  rewrite eq_None_not_Some, <- algebraicToIndices_valid.
  destruct (valid_square s); split; congruence.
Qed.

(** The indices of a valid square are in range. *)
Lemma algebraicToIndices_range s m :
  algebraicToIndices s = Some m → valid_index (row m) ∧ valid_index (col m).
Proof.
  destruct s as [|f [|d [|]]]; simpl; try discriminate.
  destruct (parseInt d) as [n|]; [|discriminate].
  intros H. zcases_in H; try discriminate.
  injection H as <-. unfold valid_index. simpl. lia.
Qed.

Lemma index_cases (i : Z) :
  valid_index i →
  i = 0 ∨ i = 1 ∨ i = 2 ∨ i = 3 ∨ i = 4 ∨ i = 5 ∨ i = 6 ∨ i = 7.
Proof. unfold valid_index. lia. Qed.

Ltac split_index H :=
  apply index_cases in H;
  destruct H as [H|[H|[H|[H|[H|[H|[H|H]]]]]]]; subst.

Lemma indices_roundtrip r c :
  valid_index r → valid_index c →
  ∃ s, indicesToAlgebraic r c = Some s
       ∧ algebraicToIndices s = Some {| row := r; col := c |}.
Proof.
  intros Hr Hc. split_index Hr; split_index Hc;
    (eexists; split; [vm_compute; reflexivity | reflexivity]).
Qed.

Lemma algebraic_roundtrip s :
  valid_square s = true →
  ∃ m, algebraicToIndices s = Some m
       ∧ indicesToAlgebraic (row m) (col m) = Some s.
Proof.
  intros Hv. destruct (proj1 (algebraicToIndices_valid s) Hv) as [m Hm].
  exists m. split; [exact Hm|].
  destruct (algebraicToIndices_range s m Hm) as [Hr Hc].
  destruct (indices_roundtrip _ _ Hr Hc) as (s' & Hs' & Hback).
  rewrite Hs'. f_equal.
  (* both s and s' are valid squares with the same indices *)
  destruct m as [r c]. simpl in *.
  destruct s as [|f [|d [|]]]; try discriminate.
  assert (Hv' : valid_square s' = true).
  { apply algebraicToIndices_valid. rewrite Hback. eauto. }
  destruct s' as [|f' [|d' [|]]]; try discriminate.
  simpl in Hm, Hback. unfold parseInt, isDigit in Hm, Hback.
  change (charCode "a") with 97 in *.
  zcases_in Hm; try discriminate. zcases_in Hback; try discriminate.
  injection Hm as Hm1 Hm2. injection Hback as Hb1 Hb2.
  f_equal; [|f_equal]; apply charCode_inj; lia.
Qed.

(** The valid squares are 64 in number, and they are the squares that the
    index pairs name. *)
Lemma allSquares_count : length allSquares = 64%nat ∧ NoDup allSquares.
Proof.
  split; [by vm_compute|].
  apply (bool_decide_unpack _). by vm_compute.
Qed.

Lemma allSquares_valid s : valid_square s = true ↔ s ∈ allSquares.
Proof.
  split.
  - intros Hv. destruct (algebraic_roundtrip s Hv) as (m & Hm & Hback).
    destruct (algebraicToIndices_range s m Hm) as [Hr Hc].
    destruct m as [r c]. cbn [row col] in *.
    split_index Hr; split_index Hc; vm_compute in Hback;
      injection Hback as <-; apply (bool_decide_unpack _); by vm_compute.
  - revert s. apply Forall_forall. apply (bool_decide_unpack _). by vm_compute.
Qed.

(** C5: [algebraicToIndices] and [indicesToAlgebraic] are inverse to each
    other on the valid domain: a valid square (a letter a..h followed by a
    digit 1..8) is mapped to indices that map back to it, and a row and a
    column in 0..7 are mapped to a square that maps back to them.  The valid
    squares are 64 in number. *)
Theorem coordinates_inverse :
  (∀ s, valid_square s = true →
        ∃ m, algebraicToIndices s = Some m
             ∧ indicesToAlgebraic (row m) (col m) = Some s)
  ∧ (∀ r c, 0 <= r <= 7 → 0 <= c <= 7 →
            ∃ s, indicesToAlgebraic r c = Some s
                 ∧ algebraicToIndices s = Some {| row := r; col := c |})
  ∧ (length allSquares = 64%nat ∧ NoDup allSquares
     ∧ ∀ s, valid_square s = true ↔ s ∈ allSquares).
Proof.
  split; [|split].
  - exact algebraic_roundtrip.
  - intros r c Hr Hc. apply indices_roundtrip; assumption.
  - destruct allSquares_count as [Hlen Hnd].
    split; [exact Hlen | split; [exact Hnd | exact allSquares_valid]].
Qed.

(** ** Boards *)

Lemma wf_board_length g : wf_board g = true → length g = 8%nat.
Proof.
  unfold wf_board. intros [H _]%andb_prop. by apply Nat.eqb_eq.
Qed.

Lemma wf_board_row g r rw :
  wf_board g = true → g !! r = Some rw → length rw = 8%nat.
Proof.
  unfold wf_board. intros [_ H]%andb_prop Hr.
  rewrite forallb_forall in H. apply Nat.eqb_eq, H.
  apply list_elem_of_In. by eapply list_elem_of_lookup_2.
Qed.

Lemma index_is_Some {A} (a : list A) i :
  0 <= i < Z.of_nat (length a) → is_Some (index a i).
Proof.
  intros Hi. unfold index. destruct (Z.ltb_spec i 0); [lia|].
  apply lookup_lt_is_Some. lia.
Qed.

Lemma cellAt_get g r c :
  length g = 8%nat → valid_index r → cellAt g r c = Ok (get g r c).
Proof.
  intros Hg Hr. unfold cellAt, get.
  destruct (index_is_Some g r) as [rw ->]; [unfold valid_index in Hr; lia|].
  reflexivity.
Qed.

(** A piece code of side [t] is a piece of side [t], and of no other side. *)
Lemma colorOf_pieceCode t k : colorOf (pieceCode t k) = t.
Proof. by destruct t, k. Qed.

Lemma isUpperCase_pieceCode t k : isUpperCase (pieceCode t k) = isW t.
Proof. by destruct t, k. Qed.

Lemma sameSide_piece t c : sameSide t (Piece c) = bool_decide (colorOf c = t).
Proof. reflexivity. Qed.

(** The two tests of the code, in terms of sides. *)
Lemma turn_test t c :
  (isW t && negb (isUpperCase c)) || (isB t && isUpperCase c)
  = negb (bool_decide (colorOf c = t)).
Proof. unfold colorOf. by destruct t, (isUpperCase c). Qed.

Lemma friend_test t c :
  (isW t && isUpperCase c) || (isB t && negb (isUpperCase c))
  = bool_decide (colorOf c = t).
Proof. unfold colorOf. by destruct t, (isUpperCase c). Qed.

(** ** The obstruction loop *)

Lemma scan_spec g sq i n :
  length g = 8%nat →
  (∀ k, i <= k < i + Z.of_nat n → valid_index (sq k).1) →
  ∃ b, scan g sq i n = Ok b
       ∧ (b = true ↔
          ∀ k, i <= k < i + Z.of_nat n →
               truthy (get g (sq k).1 (sq k).2) = false).
Proof.
  intros Hg. revert i. induction n as [|n IH]; intros i Hrows.
  - exists true. split; [reflexivity|]. split; [intros _ k Hk; lia | done].
  - cbn [scan]. rewrite cellAt_get by (try apply Hrows; lia || done).
    cbn [mbind Result_bind].
    destruct (truthy (get g (sq i).1 (sq i).2)) eqn:Hi.
    + exists false. split; [reflexivity|]. split; [discriminate|].
      intros H. rewrite H in Hi by lia. discriminate.
    + destruct (IH (i + 1)) as (b & Hb & Hiff).
      { intros k Hk. apply Hrows. lia. }
      exists b. split; [exact Hb|]. rewrite Hiff. split.
      * intros H k Hk. destruct (Z.eq_dec k i) as [->|]; [exact Hi|].
        apply H. lia.
      * intros H k Hk. apply H. lia.
Qed.

Lemma unobstructed_spec g sq bound :
  length g = 8%nat →
  (∀ k, 1 <= k < bound → valid_index (sq k).1) →
  ∃ b, unobstructed g sq bound = Ok b
       ∧ (b = true ↔
          ∀ k, 1 <= k < bound → truthy (get g (sq k).1 (sq k).2) = false).
Proof.
  intros Hg Hrows. unfold unobstructed.
  destruct (scan_spec g sq 1 (Z.to_nat (bound - 1)) Hg) as (b & Hb & Hiff).
  { intros k Hk. apply Hrows. lia. }
  exists b. split; [exact Hb|]. rewrite Hiff.
  split; intros H k Hk; apply H; lia.
Qed.

(** The step of the source, [d / |d|], is the sign of [d]. *)
Lemma step_sgn d : d ≠ 0 → d / Z.abs d = Z.sgn d.
Proof.
  intros Hd. destruct (Z.abs_spec d) as [[Hp ->]|[Hn ->]].
  - rewrite Z.div_same by lia. lia.
  - replace d with ((-1) * (- d)) at 1 by lia.
    rewrite Z.div_mul by lia. lia.
Qed.

(** ** isValidMove: the checks before the dispatch *)

Section Checks.
Context (g : BoardState) (f t : string) (from to : AlgebraicMapping).
Hypothesis Hwf : wf_board g = true.
Hypothesis Hf : algebraicToIndices f = Some from.
Hypothesis Ht : algebraicToIndices t = Some to.

Lemma from_row_valid : valid_index (row from).
Proof. by destruct (algebraicToIndices_range _ _ Hf). Qed.

Lemma to_row_valid : valid_index (row to).
Proof. by destruct (algebraicToIndices_range _ _ Ht). Qed.

Lemma from_col_valid : valid_index (col from).
Proof. by destruct (algebraicToIndices_range _ _ Hf). Qed.

Lemma to_col_valid : valid_index (col to).
Proof. by destruct (algebraicToIndices_range _ _ Ht). Qed.

(** An empty source square: no move. *)
Lemma empty_source_rejected turn :
  truthy (get g (row from) (col from)) = false →
  isValidMove g f t turn = Ok false.
Proof.
  intros He. unfold isValidMove. rewrite Hf, Ht.
  rewrite (cellAt_get g (row from)) by
    (apply wf_board_length, Hwf || apply from_row_valid).
  cbn [mbind Result_bind].
  by destruct (get g (row from) (col from)).
Qed.

(** A piece of the other side on the source square: no move. *)
Lemma foreign_source_rejected turn c :
  get g (row from) (col from) = Piece c → colorOf c ≠ turn →
  isValidMove g f t turn = Ok false.
Proof.
  intros Hc Hne. unfold isValidMove. rewrite Hf, Ht.
  rewrite (cellAt_get g (row from)) by
    (apply wf_board_length, Hwf || apply from_row_valid).
  cbn [mbind Result_bind]. rewrite Hc, turn_test.
  by rewrite bool_decide_eq_false_2.
Qed.

(** A piece of the mover's side on the destination square: no move. *)
Lemma friendly_destination_rejected turn :
  sameSide turn (get g (row to) (col to)) = true →
  isValidMove g f t turn = Ok false.
Proof.
  intros Hd. unfold isValidMove. rewrite Hf, Ht.
  rewrite (cellAt_get g (row from)) by
    (apply wf_board_length, Hwf || apply from_row_valid).
  cbn [mbind Result_bind].
  destruct (get g (row from) (col from)) as [c| |]; try reflexivity.
  destruct (_ || _); [reflexivity|].
  rewrite (cellAt_get g (row to)) by
    (apply wf_board_length, Hwf || apply to_row_valid).
  cbn [mbind Result_bind].
  destruct (get g (row to) (col to)) as [d| |]; try discriminate.
  rewrite friend_test. rewrite sameSide_piece in Hd. by rewrite Hd.
Qed.
End Checks.

(** C9: when the source square holds a piece whose colour, encoded by its
    case, is not the side to move, [isValidMove] returns false, whatever the
    piece and the destination are. *)
Theorem turn_ownership g f t turn from to c :
  wf_board g = true →
  algebraicToIndices f = Some from →
  algebraicToIndices t = Some to →
  get g (row from) (col from) = Piece c →
  colorOf c ≠ turn →
  isValidMove g f t turn = Ok false.
Proof.
  intros. by eapply foreign_source_rejected.
Qed.

(** C10: the null move from a valid square to itself is rejected on every
    board and for every side to move. *)
Theorem null_move_rejected g s turn m :
  wf_board g = true →
  algebraicToIndices s = Some m →
  isValidMove g s s turn = Ok false.
Proof.
  intros Hwf Hs.
  destruct (get g (row m) (col m)) as [c| |] eqn:Hc.
  - destruct (decide (colorOf c = turn)) as [Heq|Hne].
    + eapply friendly_destination_rejected; eauto.
      rewrite Hc, sameSide_piece. by apply bool_decide_eq_true_2.
    + eapply foreign_source_rejected; eauto.
  - eapply empty_source_rejected; eauto. by rewrite Hc.
  - eapply empty_source_rejected; eauto. by rewrite Hc.
Qed.

(** ** isValidMove: the rules of the pieces *)

(** Evaluation of the character tests on the letters of the piece codes. *)
Ltac eval_chars :=
  repeat match goal with
    | |- context [toLowerCase (Ascii ?a ?b ?c ?d ?e ?f ?g ?h)] =>
        let v := eval vm_compute in (toLowerCase (Ascii a b c d e f g h)) in
        change (toLowerCase (Ascii a b c d e f g h)) with v
    | |- context [Ascii.eqb (Ascii ?a ?b ?c ?d ?e ?f ?g ?h)
                            (Ascii ?a' ?b' ?c' ?d' ?e' ?f' ?g' ?h')] =>
        let v := eval vm_compute in
          (Ascii.eqb (Ascii a b c d e f g h) (Ascii a' b' c' d' e' f' g' h')) in
        change (Ascii.eqb (Ascii a b c d e f g h)
                          (Ascii a' b' c' d' e' f' g' h')) with v
    | |- context [isUpperCase (Ascii ?a ?b ?c ?d ?e ?f ?g ?h)] =>
        let v := eval vm_compute in (isUpperCase (Ascii a b c d e f g h)) in
        change (isUpperCase (Ascii a b c d e f g h)) with v
    end.

(** Runs [isValidMove] up to the branch of the piece on the source square,
    for a source that holds a piece of the side to move and a destination
    that holds none. *)
Ltac dispatch g f from to Hwf Hf Ht Hsrc Hdst :=
  unfold isValidMove; rewrite Hf, Ht;
  rewrite (cellAt_get g (row from)) by
    (apply wf_board_length, Hwf || apply (from_row_valid f from Hf));
  cbn [mbind Result_bind]; rewrite Hsrc;
  rewrite turn_test, colorOf_pieceCode, bool_decide_eq_true_2 by reflexivity;
  cbn [negb];
  rewrite !(cellAt_get g (row to)) by
    (apply wf_board_length, Hwf || apply (to_row_valid _ to Ht));
  cbn [mbind Result_bind];
  replace (match get g (row to) (col to) with
           | Piece d => _
           | _ => false
           end) with false
    by (destruct (get g (row to) (col to));
        [rewrite friend_test; symmetry; exact Hdst | done | done]);
  match goal with turn : PlayerTurn |- _ => destruct turn end;
  cbn [pieceCode]; eval_chars; cbv iota.

(** An occupied square that does not hold a piece of side [t] holds a piece
    of the other side. *)
Lemma occupied_by_opponent t v :
  sameSide t v = false → truthy v = true → sameSide (opponent t) v = true.
Proof.
  destruct v as [c| |]; try discriminate. intros H _.
  rewrite sameSide_piece in *. apply bool_decide_eq_false_1 in H.
  apply bool_decide_eq_true_2. by destruct t, (colorOf c).
Qed.

(** C1: the pawn.  With a pawn of the side to move on the source square and
    no piece of that side on the destination, [isValidMove] returns true
    exactly for (a) one step straight ahead onto an empty square, (b) two
    steps straight ahead from the starting row with the square in between
    and the destination both empty, (c) one step diagonally ahead onto an
    occupied square, which then holds an opposing piece.  Ahead is row - 1
    from starting row 6 for the upper-case side and row + 1 from starting row
    1 for the lower-case side.  Every other move is rejected. *)
Theorem pawn_moves g f t turn from to :
  wf_board g = true →
  algebraicToIndices f = Some from →
  algebraicToIndices t = Some to →
  get g (row from) (col from) = Piece (pieceCode turn Pawn) →
  sameSide turn (get g (row to) (col to)) = false →
  let dr := row to - row from in
  let dc := col to - col from in
  let dest := get g (row to) (col to) in
  ∃ v, isValidMove g f t turn = Ok v
       ∧ (v = true ↔
            (dc = 0 ∧ dr = forwardDir turn ∧ truthy dest = false)
          ∨ (dc = 0 ∧ dr = 2 * forwardDir turn ∧ row from = startRow turn
             ∧ truthy (get g (row from + forwardDir turn) (col from)) = false
             ∧ truthy dest = false)
          ∨ (Z.abs dc = 1 ∧ dr = forwardDir turn ∧ truthy dest = true
             ∧ sameSide (opponent turn) dest = true)).
Proof.
  intros Hwf Hf Ht Hsrc Hdst dr dc dest.
  pose proof (wf_board_length g Hwf) as Hlen.
  pose proof (from_row_valid f from Hf) as Hfr.
  pose proof (occupied_by_opponent turn dest Hdst) as Hopp.
  dispatch g f from to Hwf Hf Ht Hsrc Hdst;
    cbn [forwardDir startRow] in *; fold dr dc dest;
    change (2 * -1) with (-2); change (2 * 1) with 2.
  all: destruct (truthy dest) eqn:Hocc.
  all: zcases.
  all: try (rewrite cellAt_get by (done || unfold valid_index; lia);
            cbn [mbind Result_bind]).
  all: eexists; (split; [reflexivity|]).
  all: try destruct (truthy (get g _ (col from))) eqn:Hmid; cbn [negb].
  all: split; [try discriminate; intros _ | try done].
  all: try (intros [(?&?&?)|[(?&?&?&?&?)|(?&?&?&?)]]; (lia || congruence)).
  all: try (left; repeat split; (lia || congruence || done)).
  all: try (right; left; repeat split; (lia || congruence || done)).
  all: try (right; right; repeat split; (lia || congruence || auto)).
Qed.

(** The square of the source holds the mover's own piece: a destination equal
    to the source is a friendly one. *)
Lemma same_square_friendly g from to turn k :
  get g (row from) (col from) = Piece (pieceCode turn k) →
  row to = row from → col to = col from →
  sameSide turn (get g (row to) (col to)) = true.
Proof.
  intros Hsrc -> ->. rewrite Hsrc, sameSide_piece, colorOf_pieceCode.
  by apply bool_decide_eq_true_2.
Qed.

(** C7: the king.  With a king of the side to move on the source square,
    [isValidMove] returns true exactly when the destination holds no piece of
    the same side, the row and the column change by at most one, and not both
    stay the same. *)
Theorem king_moves g f t turn from to :
  wf_board g = true →
  algebraicToIndices f = Some from →
  algebraicToIndices t = Some to →
  get g (row from) (col from) = Piece (pieceCode turn King) →
  let dr := row to - row from in
  let dc := col to - col from in
  ∃ v, isValidMove g f t turn = Ok v
       ∧ (v = true ↔
            sameSide turn (get g (row to) (col to)) = false
            ∧ Z.abs dr <= 1 ∧ Z.abs dc <= 1 ∧ ¬ (dr = 0 ∧ dc = 0)).
Proof.
  intros Hwf Hf Ht Hsrc dr dc.
  destruct (sameSide turn (get g (row to) (col to))) eqn:Hdst.
  - exists false. split.
    + by eapply friendly_destination_rejected.
    + split; [discriminate | intros [? _]; discriminate].
  - assert (Hmoved : ¬ (dr = 0 ∧ dc = 0)).
    { intros [Hr Hc].
      rewrite (same_square_friendly g from to turn King) in Hdst
        by (done || unfold dr, dc in *; lia).
      discriminate. }
    dispatch g f from to Hwf Hf Ht Hsrc Hdst; fold dr dc.
    all: eexists; (split; [reflexivity|]).
    all: rewrite andb_true_iff, !Z.leb_le; tauto.
Qed.

(** *** Pieces that slide *)

(** The loops of the source read the squares of the line. *)
Lemma line_scan g from to sq bound :
  length g = 8%nat →
  valid_index (row from) → valid_index (row to) →
  Z.abs (row to - row from) = Z.abs (col to - col from)
  ∨ row to - row from = 0 ∨ col to - col from = 0 →
  bound = distance from to →
  (∀ k, 1 <= k < bound → sq k = lineSquare from to k) →
  ∃ b, unobstructed g sq bound = Ok b ∧ (b = true ↔ pathClear g from to).
Proof.
  intros Hlen Hfr Htr Hal -> Hsq.
  destruct (unobstructed_spec g sq (distance from to) Hlen) as (b & Hb & Hiff).
  - intros k Hk. rewrite (Hsq k Hk). unfold lineSquare, distance in *.
    cbn [fst]. unfold valid_index in *.
    destruct (Z.sgn_spec (row to - row from)) as [[? ->]|[[? ->]|[? ->]]]; lia.
  - exists b. split; [exact Hb|]. rewrite Hiff. unfold pathClear.
    split; intros H k Hk.
    + rewrite <- (Hsq k Hk). by apply H.
    + rewrite (Hsq k Hk). by apply H.
Qed.

(** Replaces an obstruction loop of the goal by its meaning on the line from
    [from] to [to]. *)
Ltac use_line_scan g from to Hlen Hfr Htr :=
  match goal with
  | |- context [unobstructed g ?sq ?bound] =>
      let b := fresh "b" in
      let Hb := fresh "Hb" in
      let Hiff := fresh "Hiff" in
      destruct (line_scan g from to sq bound Hlen Hfr Htr) as (b & Hb & Hiff);
      [ lia
      | unfold distance; lia
      | let k := fresh "k" in
        let Hk := fresh "Hk" in
        intros k Hk; unfold lineSquare; rewrite ?step_sgn by lia;
        f_equal; nia
      | rewrite Hb ]
  end.

(** What [isValidMove] returns for a bishop, rook or queen of the side to
    move. *)
Lemma slider_rule g f t turn from to k :
  wf_board g = true →
  algebraicToIndices f = Some from →
  algebraicToIndices t = Some to →
  slides k = true →
  get g (row from) (col from) = Piece (pieceCode turn k) →
  ∃ v, isValidMove g f t turn = Ok v
       ∧ (v = true ↔
            sameSide turn (get g (row to) (col to)) = false
            ∧ geometry k (row to - row from) (col to - col from)
            ∧ pathClear g from to).
Proof.
  intros Hwf Hf Ht Hk Hsrc.
  pose proof (wf_board_length g Hwf) as Hlen.
  pose proof (from_row_valid f from Hf) as Hfr.
  pose proof (to_row_valid t to Ht) as Htr.
  destruct (sameSide turn (get g (row to) (col to))) eqn:Hdst.
  { exists false. split.
    - by eapply friendly_destination_rejected.
    - split; [discriminate | intros [? _]; discriminate]. }
  assert (Hmoved : ¬ (row to - row from = 0 ∧ col to - col from = 0)).
  { intros [Hr Hc].
    rewrite (same_square_friendly g from to turn k) in Hdst by (done || lia).
    discriminate. }
  set (dr := row to - row from) in *. set (dc := col to - col from) in *.
  destruct k; try discriminate; dispatch g f from to Hwf Hf Ht Hsrc Hdst;
    fold dr dc; cbn [geometry]; unfold diagonal, straight.
  all: zcases.
  all: try use_line_scan g from to Hlen Hfr Htr.
  all: eexists; (split; [reflexivity|]).
  all: try rewrite Hiff.
  all: try (split; [discriminate | intros (_ & Hgeo & _); exfalso; lia]).
  all: split; [intros Hp; split; [reflexivity | split; [lia | exact Hp]]
              | by intros (_ & _ & Hp)].
Qed.

Lemma sameSide_opponent t v :
  sameSide (opponent t) v = true → sameSide t v = false.
Proof.
  destruct v as [c| |]; try done. rewrite !sameSide_piece.
  intros H%bool_decide_eq_true_1. apply bool_decide_eq_false_2.
  by destruct t, (colorOf c).
Qed.

(** C2: rook, bishop and queen.  With such a piece of the side to move on
    the source square, [isValidMove] returns false whenever a square strictly
    between source and destination on their line is occupied, by either
    side, or the destination holds a piece of the mover's side; it returns
    true when the geometry fits the piece (bishop: |dr| = |dc| > 0; rook:
    exactly one of dr, dc is zero; queen: either), every square strictly in
    between is empty, and the destination is empty or holds an enemy piece,
    which is then the first piece on the line. *)
Theorem sliding_moves g f t turn from to k :
  wf_board g = true →
  algebraicToIndices f = Some from →
  algebraicToIndices t = Some to →
  slides k = true →
  get g (row from) (col from) = Piece (pieceCode turn k) →
  let dr := row to - row from in
  let dc := col to - col from in
  let dest := get g (row to) (col to) in
  ((∃ i, 1 <= i < distance from to
         ∧ truthy (get g (lineSquare from to i).1 (lineSquare from to i).2)
           = true)
   ∨ sameSide turn dest = true →
   isValidMove g f t turn = Ok false)
  ∧ (geometry k dr dc →
     pathClear g from to →
     truthy dest = false ∨ sameSide (opponent turn) dest = true →
     isValidMove g f t turn = Ok true).
Proof.
  intros Hwf Hf Ht Hk Hsrc dr dc dest.
  destruct (slider_rule g f t turn from to k Hwf Hf Ht Hk Hsrc)
    as (v & Hv & Hiff).
  fold dr dc dest in Hiff. rewrite Hv. split.
  - intros Hblocked. f_equal. destruct v; [|reflexivity].
    destruct (proj1 Hiff eq_refl) as (Hd & _ & Hclear).
    destruct Hblocked as [(i & Hi & Hocc)|Hfriend]; [|congruence].
    rewrite (Hclear i Hi) in Hocc. discriminate.
  - intros Hgeo Hclear Hdest. f_equal. apply Hiff.
    split; [|by split].
    destruct Hdest as [Hempty|Henemy]; [|by apply sameSide_opponent].
    unfold dest in *. by destruct (get g (row to) (col to)).
Qed.

(** *** The queen as rook and bishop *)

Lemma wf_board_spec g :
  wf_board g = true
  ↔ length g = 8%nat ∧ Forall (λ rw, length rw = 8%nat) g.
Proof.
  unfold wf_board. rewrite andb_true_iff, Nat.eqb_eq, forallb_forall.
  rewrite Forall_forall. split; intros [Hl H]; (split; [exact Hl|]).
  - intros rw Hin. apply Nat.eqb_eq, H. by apply list_elem_of_In.
  - intros rw Hin. apply Nat.eqb_eq, H. by apply list_elem_of_In.
Qed.

Lemma writeAt_inside rw c v :
  0 <= c < Z.of_nat (length rw) → writeAt rw c v = <[Z.to_nat c := v]> rw.
Proof.
  intros Hc. unfold writeAt.
  destruct (Z.ltb_spec c 0); [lia|].
  destruct (Z.ltb_spec c (Z.of_nat (length rw))); [reflexivity | lia].
Qed.

Lemma index_insert {A} (a : list A) i j x :
  0 <= i < Z.of_nat (length a) →
  index (<[Z.to_nat i := x]> a) j = if decide (j = i) then Some x else index a j.
Proof.
  intros Hi. unfold index. destruct (Z.ltb_spec j 0).
  - destruct (decide (j = i)); [lia | reflexivity].
  - destruct (decide (j = i)) as [->|Hne].
    + apply list_lookup_insert_eq. lia.
    + apply list_lookup_insert_ne. lia.
Qed.

Lemma index_Some_length {A} (a : list A) i x :
  index a i = Some x → 0 <= i < Z.of_nat (length a).
Proof.
  unfold index. destruct (Z.ltb_spec i 0); [discriminate|].
  intros Hx%lookup_lt_Some. lia.
Qed.

Lemma index_row_length g r rw :
  wf_board g = true → index g r = Some rw → length rw = 8%nat.
Proof.
  unfold index. destruct (Z.ltb_spec r 0); [discriminate|].
  intros. by eapply wf_board_row.
Qed.

Lemma place_wf g r c v :
  wf_board g = true → valid_index c → wf_board (place g r c v) = true.
Proof.
  intros Hwf Hc. unfold place. destruct (index g r) as [rw|] eqn:Hr; [|done].
  pose proof (index_row_length g r rw Hwf Hr) as Hrw.
  apply wf_board_spec in Hwf as [Hl Hall]. apply wf_board_spec.
  split; [by rewrite length_insert|].
  apply Forall_insert; [exact Hall|].
  rewrite writeAt_inside by (unfold valid_index in Hc; lia).
  by rewrite length_insert.
Qed.

Lemma get_place g r c v r' c' :
  wf_board g = true → valid_index r → valid_index c →
  get (place g r c v) r' c'
  = if decide (r' = r ∧ c' = c) then v else get g r' c'.
Proof.
  intros Hwf Hr Hc. pose proof (wf_board_length g Hwf) as Hlen.
  unfold place, get.
  destruct (index_is_Some g r) as [rw Hrw];
    [unfold valid_index in Hr; lia|].
  pose proof (index_row_length g r rw Hwf Hrw) as Hlrw.
  rewrite Hrw, index_insert by (unfold valid_index in Hr; lia).
  rewrite writeAt_inside by (unfold valid_index in Hc; lia).
  destruct (decide (r' = r)) as [->|Hne].
  - rewrite Hrw, index_insert by (unfold valid_index in Hc; lia).
    destruct (decide (c' = c)) as [->|Hne].
    + by rewrite decide_True.
    + rewrite decide_False by tauto. reflexivity.
  - rewrite decide_False by tauto. reflexivity.
Qed.

(** Changing the piece on the source square changes no square strictly
    between the source and a destination. *)
Lemma pathClear_place g from to v :
  wf_board g = true → valid_index (row from) → valid_index (col from) →
  pathClear (place g (row from) (col from) v) from to ↔ pathClear g from to.
Proof.
  intros Hwf Hr Hc. unfold pathClear.
  assert (Hoff : ∀ k, 1 <= k < distance from to →
            ¬ ((lineSquare from to k).1 = row from
               ∧ (lineSquare from to k).2 = col from)).
  { intros k Hk [H1 H2]. unfold lineSquare, distance in *. cbn [fst snd] in *.
    destruct (Z.sgn_spec (row to - row from)) as [[? Hs]|[[? Hs]|[? Hs]]];
    destruct (Z.sgn_spec (col to - col from)) as [[? Hs']|[[? Hs']|[? Hs']]];
    rewrite Hs in H1; rewrite Hs' in H2; lia. }
  split; intros H k Hk; specialize (H k Hk);
    rewrite get_place in * by done;
    by rewrite decide_False in * by (by apply Hoff).
Qed.

(** Replacing the mover's piece on the source square by another piece of the
    mover leaves the side of the piece on every square as it was. *)
Lemma sameSide_place g from turn k k' r c :
  wf_board g = true → valid_index (row from) → valid_index (col from) →
  get g (row from) (col from) = Piece (pieceCode turn k) →
  sameSide turn
    (get (place g (row from) (col from) (Piece (pieceCode turn k'))) r c)
  = sameSide turn (get g r c).
Proof.
  intros Hwf Hr Hc Hsrc. rewrite get_place by done.
  destruct (decide _) as [[-> ->]|]; [|reflexivity].
  by rewrite Hsrc, !sameSide_piece, !colorOf_pieceCode.
Qed.

(** C6: the queen moves as the rook and the bishop together.  On a board
    whose source square holds a queen of the side to move, [isValidMove]
    returns true exactly when it returns true on the board with that queen
    replaced by a rook of the same side, or on the board with it replaced by
    a bishop of the same side. *)
Theorem queen_is_rook_or_bishop g f t turn from to :
  wf_board g = true →
  algebraicToIndices f = Some from →
  algebraicToIndices t = Some to →
  get g (row from) (col from) = Piece (pieceCode turn Queen) →
  let asRook := place g (row from) (col from) (Piece (pieceCode turn Rook)) in
  let asBishop :=
    place g (row from) (col from) (Piece (pieceCode turn Bishop)) in
  ∃ q r b,
    isValidMove g f t turn = Ok q
    ∧ isValidMove asRook f t turn = Ok r
    ∧ isValidMove asBishop f t turn = Ok b
    ∧ (q = true ↔ r = true ∨ b = true).
Proof.
  intros Hwf Hf Ht Hsrc asRook asBishop.
  pose proof (from_row_valid f from Hf) as Hfr.
  pose proof (from_col_valid f from Hf) as Hfc.
  destruct (slider_rule g f t turn from to Queen Hwf Hf Ht eq_refl Hsrc)
    as (q & Hq & Hqiff).
  destruct (slider_rule asRook f t turn from to Rook) as (r & Hr & Hriff);
    [by apply place_wf | done | done | done
    | unfold asRook; rewrite get_place by done; by rewrite decide_True |].
  destruct (slider_rule asBishop f t turn from to Bishop) as (b & Hb & Hbiff);
    [by apply place_wf | done | done | done
    | unfold asBishop; rewrite get_place by done; by rewrite decide_True |].
  exists q, r, b. repeat (split; [assumption|]).
  unfold asRook in Hriff. unfold asBishop in Hbiff.
  rewrite (sameSide_place g from turn Queen) in Hriff, Hbiff by done.
  rewrite pathClear_place in Hriff, Hbiff by done.
  cbn [geometry] in *. tauto.
Qed.

(** ** fenToBoard *)

Lemma setCell_place board r c v :
  length board = 8%nat → valid_index r → setCell board r c v = Ok (place board r c v).
Proof.
  intros Hlen Hr. unfold setCell, place.
  destruct (index_is_Some board r) as [rw ->];
    [unfold valid_index in Hr; lia | reflexivity].
Qed.

(** One rank string written into a row that exists leaves an 8x8 board. *)
Lemma fillRank_wf rankStr : ∀ board r colIndex,
  wf_board board = true → valid_index r → 0 <= colIndex →
  ∃ board', fillRank board r rankStr colIndex = Ok board'
            ∧ wf_board board' = true.
Proof.
  induction rankStr as [|char rest IH]; intros board r colIndex Hwf Hr Hc.
  - by exists board.
  - cbn [fillRank]. unfold parseInt, isDigit.
    pose proof (charCode_bounds char).
    destruct (_ && _) eqn:Hdigit.
    + apply andb_prop in Hdigit as [?%Z.leb_le ?%Z.leb_le].
      apply IH; [done | done | lia].
    + destruct (Z.ltb_spec colIndex 8).
      * rewrite setCell_place by (by apply wf_board_length || done).
        cbn [mbind Result_bind].
        apply IH; [apply place_wf; [done | unfold valid_index; lia] | done | lia].
      * by apply IH.
Qed.

Lemma fillRanks_wf ranks : ∀ board r,
  wf_board board = true → 0 <= r → r + Z.of_nat (length ranks) <= 8 →
  ∃ board', fillRanks board r ranks = Ok board' ∧ wf_board board' = true.
Proof.
  induction ranks as [|rankStr rest IH]; intros board r Hwf Hr Hlen.
  - by exists board.
  - cbn [fillRanks]. cbn [length] in Hlen.
    destruct (fillRank_wf rankStr board r 0) as (board' & -> & Hwf');
      [done | unfold valid_index; lia | lia |].
    cbn [mbind Result_bind]. apply IH; [done | lia | lia].
Qed.

(** With at most eight rank strings in the placement field, [fenToBoard]
    returns an 8x8 board, whatever the characters are. *)
Lemma fenToBoard_at_most_8_ranks fenString :
  (length (split "/" (hd EmptyString (split " " fenString))) <= 8)%nat →
  ∃ board, fenToBoard fenString = Ok board ∧ wf_board board = true.
Proof.
  intros Hlen. unfold fenToBoard. apply fillRanks_wf; [reflexivity | lia | lia].
Qed.

(** C4 fails on the code: a ninth rank string that holds a piece character
    makes [fenToBoard] write into a row that does not exist, which throws a
    TypeError.  The column of a write is guarded ([colIndex < 8]), the row is
    not. *)
Theorem fenToBoard_ninth_rank_throws :
  fenToBoard "8/8/8/8/8/8/8/8/p" = Throw TypeError.
Proof. vm_compute. reflexivity. Qed.

(** ** makeMove *)

(** C8: when one of the two squares is not a valid algebraic square (wrong
    length, file outside a..h or rank outside 1..8), [makeMove] returns the
    board it was given, and no array is changed: nothing is thrown.  The only
    effect is a line on the console. *)
Theorem makeMove_invalid_square σ boardState f t :
  valid_square f = false ∨ valid_square t = false →
  ∃ σ', makeMove σ boardState f t = Ok (σ', boardState)
        ∧ heap σ' = heap σ
        ∧ console σ' = console σ ++ [invalidNotation].
Proof.
  intros Hinv. exists (consoleError σ invalidNotation).
  split; [|by split].
  unfold makeMove.
  destruct Hinv as [H|H]; apply algebraicToIndices_invalid in H; rewrite H;
    [reflexivity | by destruct (algebraicToIndices f)].
Qed.

(** *** The store *)

Lemma contents_holds σ b g :
  contents σ b = Some g ↔ ∃ rows, boardRows σ b = Some rows ∧ holds σ rows g.
Proof.
  unfold contents, holds. destruct (boardRows σ b) as [rows|]; cbn.
  - rewrite mapM_Some. split; [eauto | by intros (? & [= <-] & ?)].
  - split; [done | by intros (? & ? & _)].
Qed.

Lemma rowCells_mono σ σ' l cells :
  heap σ ⊆ heap σ' → rowCells σ l = Some cells → rowCells σ' l = Some cells.
Proof.
  unfold rowCells. intros Hsub.
  destruct (heap σ !! l) as [o|] eqn:Hl; [|done].
  by rewrite (lookup_weaken _ _ _ _ Hl Hsub).
Qed.

Lemma boardRows_mono σ σ' b rows :
  heap σ ⊆ heap σ' → boardRows σ b = Some rows → boardRows σ' b = Some rows.
Proof.
  unfold boardRows. intros Hsub.
  destruct (heap σ !! b) as [o|] eqn:Hl; [|done].
  by rewrite (lookup_weaken _ _ _ _ Hl Hsub).
Qed.

Lemma holds_mono σ σ' rows g :
  heap σ ⊆ heap σ' → holds σ rows g → holds σ' rows g.
Proof.
  intros Hsub Hg. unfold holds. eapply Forall2_impl; [exact Hg|].
  intros l cells. by apply rowCells_mono.
Qed.

(** A board keeps its contents in every store that extends the one it lives
    in. *)
Lemma contents_mono σ σ' b g :
  heap σ ⊆ heap σ' → contents σ b = Some g → contents σ' b = Some g.
Proof.
  rewrite !contents_holds. intros Hsub (rows & Hb & Hrows).
  exists rows. split; [by eapply boardRows_mono | by eapply holds_mono].
Qed.

Lemma alloc_fresh σ o σ' l :
  alloc σ o = (σ', l) →
  heap σ !! l = None ∧ heap σ' = <[l := o]> (heap σ)
  ∧ console σ' = console σ.
Proof.
  unfold alloc. intros [= <- <-]. split; [|done].
  apply not_elem_of_dom, is_fresh.
Qed.

Lemma alloc_extends σ o σ' l : alloc σ o = (σ', l) → heap σ ⊆ heap σ'.
Proof.
  intros (Hnew & -> & _)%alloc_fresh. by apply insert_subseteq.
Qed.

(** Copying rows: the copies are new, pairwise distinct, hold the same
    cells, and every array that existed is as it was. *)
Lemma copyRows_spec rows : ∀ σ g,
  holds σ rows g →
  ∃ σ' rows',
    copyRows σ rows = Ok (σ', rows')
    ∧ heap σ ⊆ heap σ' ∧ console σ' = console σ
    ∧ holds σ' rows' g
    ∧ Forall (λ l, heap σ !! l = None) rows'
    ∧ NoDup rows'.
Proof.
  induction rows as [|l rest IH]; intros σ g Hg.
  - apply Forall2_nil_inv_l in Hg as ->. exists σ, [].
    repeat split; [done | constructor | constructor | constructor].
  - apply Forall2_cons_inv_l in Hg as (cells & g' & Hl & Hrest & ->).
    cbn [copyRows]. rewrite Hl. cbn [deref mbind Result_bind].
    destruct (alloc σ (ORow cells)) as [σ1 l'] eqn:Ha.
    pose proof (alloc_extends _ _ _ _ Ha) as Hsub1.
    apply alloc_fresh in Ha as (Hnew & Hheap1 & Hcon1).
    destruct (IH σ1 g') as (σ2 & rest' & -> & Hsub2 & Hcon2 & Hg2 & Hfr & Hnd).
    { by eapply holds_mono. }
    cbn [mbind Result_bind]. exists σ2, (l' :: rest').
    assert (Hl1 : rowCells σ1 l' = Some cells).
    { unfold rowCells. by rewrite Hheap1, lookup_insert_eq. }
    repeat split.
    + by etrans.
    + congruence.
    + constructor; [by eapply rowCells_mono | done].
    + constructor; [done|].
      eapply Forall_impl; [exact Hfr|]. intros x Hx. cbn beta in Hx.
      by eapply lookup_weaken_None.
    + constructor; [|done].
      intros Hin. rewrite Forall_forall in Hfr. specialize (Hfr _ Hin).
      cbn beta in Hfr. unfold rowCells in Hl1. by rewrite Hfr in Hl1.
Qed.

(** Reading a square through the store reads the contents. *)
Lemma load_get σ b rows g r c :
  boardRows σ b = Some rows → holds σ rows g →
  length g = 8%nat → valid_index r →
  load σ b r c = Ok (get g r c).
Proof.
  intros Hb Hg Hlen Hr. unfold load, get. rewrite Hb.
  cbn [deref mbind Result_bind].
  pose proof (Forall2_length _ _ _ Hg) as Hlr.
  destruct (index_is_Some rows r) as [l Hl];
    [unfold valid_index in Hr; lia|].
  rewrite Hl. unfold index in *. destruct (Z.ltb_spec r 0); [done|].
  destruct (Forall2_lookup_l _ _ _ _ _ Hg Hl) as (cells & -> & ->).
  reflexivity.
Qed.

(** Writing a square through the store changes that square of the contents,
    and no array but the row written. *)
Lemma store_place σ b rows g r c v :
  boardRows σ b = Some rows → holds σ rows g → NoDup rows →
  length g = 8%nat → valid_index r →
  ∃ σ', store σ b r c v = Ok σ'
        ∧ boardRows σ' b = Some rows
        ∧ holds σ' rows (place g r c v)
        ∧ console σ' = console σ
        ∧ (∀ l, l ∉ rows → heap σ' !! l = heap σ !! l).
Proof.
  intros Hb Hg Hnd Hlen Hr. unfold store, place. rewrite Hb.
  cbn [deref mbind Result_bind].
  pose proof (Forall2_length _ _ _ Hg) as Hlr.
  destruct (index_is_Some rows r) as [l Hl];
    [unfold valid_index in Hr; lia|].
  rewrite Hl. unfold index in *. destruct (Z.ltb_spec r 0); [done|].
  destruct (Forall2_lookup_l _ _ _ _ _ Hg Hl) as (cells & Hcells & Hrow).
  rewrite Hrow, Hcells. cbn [deref mbind Result_bind].
  eexists. split; [reflexivity|]. cbn [heap console].
  assert (Hlb : l ≠ b).
  { intros ->. unfold rowCells, boardRows in *.
    by destruct (heap σ !! b) as [[]|]. }
  repeat split.
  - unfold boardRows in *. cbn [heap]. by rewrite lookup_insert_ne.
  - apply Forall2_same_length_lookup. split; [by rewrite length_insert|].
    intros i x y Hx Hy. unfold rowCells. cbn [heap].
    destruct (decide (i = Z.to_nat r)) as [->|Hne].
    + rewrite list_lookup_insert_eq in Hy by (apply lookup_lt_Some in Hcells; lia).
      assert (x = l) as -> by congruence.
      injection Hy as <-. by rewrite lookup_insert_eq.
    + rewrite list_lookup_insert_ne in Hy by done.
      assert (x ≠ l).
      { intros ->. apply Hne. by eapply NoDup_lookup. }
      rewrite lookup_insert_ne by done.
      destruct (Forall2_lookup_l _ _ _ _ _ Hg Hx) as (y' & Hy' & Hxy).
      unfold rowCells in Hxy. congruence.
  - intros l' Hl'. apply lookup_insert_ne. intros ->. apply Hl'.
    by eapply list_elem_of_lookup_2.
Qed.

Lemma algebraicToIndices_inj f t m :
  algebraicToIndices f = Some m → algebraicToIndices t = Some m → f = t.
Proof.
  intros Hf Ht.
  destruct (algebraic_roundtrip f) as (m1 & Hf1 & Hb1);
    [apply algebraicToIndices_valid; eauto|].
  destruct (algebraic_roundtrip t) as (m2 & Ht2 & Hb2);
    [apply algebraicToIndices_valid; eauto|].
  congruence.
Qed.

(** [boardState.map(row => [...row])]: a new board with new rows and the same
    contents. *)
Lemma copyBoard_spec σ b g :
  contents σ b = Some g →
  ∃ σ' b' rows',
    copyBoard σ b = Ok (σ', b')
    ∧ heap σ ⊆ heap σ' ∧ console σ' = console σ
    ∧ boardRows σ' b' = Some rows' ∧ holds σ' rows' g
    ∧ heap σ !! b' = None
    ∧ Forall (λ l, heap σ !! l = None) rows'
    ∧ NoDup rows'.
Proof.
  intros (rows & Hb & Hg)%contents_holds. unfold copyBoard. rewrite Hb.
  cbn [deref mbind Result_bind].
  destruct (copyRows_spec rows σ g Hg)
    as (σ1 & rows' & -> & Hsub1 & Hcon1 & Hg1 & Hfr & Hnd).
  cbn [mbind Result_bind].
  destruct (alloc σ1 (OBoard rows')) as [σ2 b'] eqn:Ha.
  pose proof (alloc_extends _ _ _ _ Ha) as Hsub2.
  apply alloc_fresh in Ha as (Hnew & Hheap2 & Hcon2).
  exists σ2, b', rows'. repeat split; try done.
  - by etrans.
  - congruence.
  - unfold boardRows. by rewrite Hheap2, lookup_insert_eq.
  - by eapply holds_mono.
  - by eapply lookup_weaken_None.
Qed.

(** C3: for a board B and two distinct valid squares, [makeMove] returns a
    new board that holds on the destination square what B held on the source
    square, nothing on the source square, and on every other square what B
    holds there; what the destination held is overwritten.  B is not
    modified: the new board and its rows are new arrays, and every array of
    the state before the call is as it was. *)
Theorem makeMove_frame σ b g f t from to :
  contents σ b = Some g →
  wf_board g = true →
  algebraicToIndices f = Some from →
  algebraicToIndices t = Some to →
  f ≠ t →
  ∃ σ' b' g',
    makeMove σ b f t = Ok (σ', b')
    ∧ contents σ' b' = Some g'
    ∧ wf_board g' = true
    ∧ (∀ r c, valid_index r → valid_index c →
         get g' r c =
           if decide (r = row to ∧ c = col to)
           then get g (row from) (col from)
           else if decide (r = row from ∧ c = col from) then Null
           else get g r c)
    ∧ heap σ ⊆ heap σ'
    ∧ contents σ' b = Some g
    ∧ heap σ !! b' = None
    ∧ (∀ rows' l, boardRows σ' b' = Some rows' → l ∈ rows' →
                  heap σ !! l = None)
    ∧ console σ' = console σ.
Proof.
  intros Hb Hwf Hf Ht Hne.
  pose proof (wf_board_length g Hwf) as Hlen.
  destruct (algebraicToIndices_range f from Hf) as [Hfr Hfc].
  destruct (algebraicToIndices_range t to Ht) as [Htr Htc].
  assert (Hdist : ¬ (row from = row to ∧ col from = col to)).
  { intros [Hr Hc]. apply Hne. apply (algebraicToIndices_inj f t from Hf).
    rewrite Ht. f_equal. destruct from, to. simpl in *. congruence. }
  unfold makeMove. rewrite Hf, Ht.
  destruct (copyBoard_spec σ b g Hb)
    as (σ1 & b' & rows' & -> & Hsub1 & Hcon1 & Hb1 & Hg1 & Hnew & Hfresh & Hnd).
  cbn [mbind Result_bind].
  rewrite (load_get σ1 b' rows' g) by done. cbn [mbind Result_bind].
  destruct (store_place σ1 b' rows' g (row to) (col to)
              (get g (row from) (col from)) Hb1 Hg1 Hnd Hlen Htr)
    as (σ2 & -> & Hb2 & Hg2 & Hcon2 & Hframe2).
  cbn [mbind Result_bind].
  set (g2 := place g (row to) (col to) (get g (row from) (col from))) in *.
  assert (Hwf2 : wf_board g2 = true) by (by apply place_wf).
  destruct (store_place σ2 b' rows' g2 (row from) (col from) Null
              Hb2 Hg2 Hnd (wf_board_length g2 Hwf2) Hfr)
    as (σ3 & -> & Hb3 & Hg3 & Hcon3 & Hframe3).
  cbn [mbind Result_bind].
  assert (Hsub3 : heap σ ⊆ heap σ3).
  { apply map_subseteq_spec. intros l o Hl.
    assert (l ∉ rows').
    { intros Hin. rewrite Forall_forall in Hfresh.
      specialize (Hfresh l Hin). cbn beta in Hfresh. congruence. }
    rewrite Hframe3, Hframe2 by done.
    by eapply lookup_weaken. }
  exists σ3, b', (place g2 (row from) (col from) Null).
  repeat split.
  - apply contents_holds. eauto.
  - by apply place_wf.
  - intros r c Hr Hc. unfold g2. rewrite !get_place by done.
    repeat destruct (decide _); try reflexivity; lia.
  - exact Hsub3.
  - by eapply contents_mono.
  - exact Hnew.
  - intros rows l Hrows Hl. rewrite Hb3 in Hrows. injection Hrows as <-.
    rewrite Forall_forall in Hfresh. by apply Hfresh.
  - congruence.
Qed.

(** * The tests of the repository, on the embedding *)

Example test_algebraicToIndices :
  algebraicToIndices "a1" = Some {| row := 7; col := 0 |}
  ∧ algebraicToIndices "h8" = Some {| row := 0; col := 7 |}
  ∧ algebraicToIndices "e4" = Some {| row := 4; col := 4 |}
  ∧ algebraicToIndices "z9" = None ∧ algebraicToIndices "a9" = None
  ∧ algebraicToIndices "i1" = None ∧ algebraicToIndices "a0" = None
  ∧ algebraicToIndices "" = None ∧ algebraicToIndices "e" = None.
Proof. by vm_compute. Qed.

Example test_indicesToAlgebraic :
  indicesToAlgebraic 7 0 = Some "a1"%string
  ∧ indicesToAlgebraic 0 7 = Some "h8"%string
  ∧ indicesToAlgebraic 4 4 = Some "e4"%string
  ∧ indicesToAlgebraic (-1) 0 = None ∧ indicesToAlgebraic 0 (-1) = None
  ∧ indicesToAlgebraic 8 0 = None ∧ indicesToAlgebraic 0 8 = None.
Proof. by vm_compute. Qed.

Example test_fenToBoard :
  fenToBoard "rnbqkbnr/pppppppp/8/8/8/8/PPPPPPPP/RNBQKBNR w KQkq - 0 1"
  = Ok startPosition
  ∧ get startPosition 0 0 = Piece "r" ∧ get startPosition 0 4 = Piece "k"
  ∧ get startPosition 6 0 = Piece "P" ∧ get startPosition 7 4 = Piece "K"
  ∧ get startPosition 3 3 = Null.
Proof. by vm_compute. Qed.

(** Characters that are no piece codes are stored, a rank string that is too
    long is cut, missing ranks stay empty. *)
Example test_fenToBoard_permissive :
  ∃ g, fenToBoard "x.pppppppppp/44p" = Ok g
       ∧ wf_board g = true
       ∧ get g 0 0 = Piece "x" ∧ get g 0 1 = Piece "." ∧ get g 0 7 = Piece "p"
       ∧ get g 1 0 = Null ∧ get g 7 7 = Null.
Proof. eexists. by vm_compute. Qed.

Example test_pawn :
  isValidMove startPosition "e2" "e3" White = Ok true
  ∧ isValidMove startPosition "e2" "e4" White = Ok true
  ∧ isValidMove startPosition "e2" "e5" White = Ok false
  ∧ isValidMove startPosition "e2" "d3" White = Ok false
  ∧ isValidMove startPosition "e7" "e6" Black = Ok true
  ∧ isValidMove startPosition "e7" "e5" Black = Ok true.
Proof. by vm_compute. Qed.

Example test_knight :
  isValidMove startPosition "g1" "f3" White = Ok true
  ∧ isValidMove startPosition "g1" "h3" White = Ok true
  ∧ isValidMove startPosition "g1" "g3" White = Ok false
  ∧ isValidMove startPosition "b1" "c3" White = Ok true.
Proof. by vm_compute. Qed.

Example test_rook_blocked :
  isValidMove rookPosition "a8" "d8" White = Ok false
  ∧ isValidMove rookPosition "a8" "c8" White = Ok true
  ∧ isValidMove rookPosition "a8" "b7" White = Ok false.
Proof. by vm_compute. Qed.

Example test_king :
  isValidMove kingPosition "e1" "d1" White = Ok true
  ∧ isValidMove kingPosition "e1" "e2" White = Ok true
  ∧ isValidMove kingPosition "e1" "d2" White = Ok true
  ∧ isValidMove kingPosition "e1" "e3" White = Ok false
  ∧ isValidMove kingPosition "e1" "c1" White = Ok false.
Proof. by vm_compute. Qed.

Example test_general :
  isValidMove startPosition "e7" "e6" White = Ok false
  ∧ isValidMove startPosition "e2" "e3" Black = Ok false
  ∧ isValidMove startPosition "e3" "e4" White = Ok false
  ∧ isValidMove startPosition "z9" "e4" White = Ok false
  ∧ isValidMove startPosition "e2" "z9" White = Ok false.
Proof. by vm_compute. Qed.

(** e2-e4 on the starting position: the new board has the pawn on e4, the
    board that was passed still has it on e2, and the two boards and their
    first rows are different arrays. *)
Example test_makeMove :
  ∃ σ' b' g' rows rows',
    makeMove startState startBoard "e2" "e4" = Ok (σ', b')
    ∧ contents σ' b' = Some g'
    ∧ get g' 6 4 = Null ∧ get g' 4 4 = Piece "P"
    ∧ contents σ' startBoard = Some startPosition
    ∧ b' ≠ startBoard
    ∧ boardRows σ' startBoard = Some rows ∧ boardRows σ' b' = Some rows'
    ∧ rows !! 0%nat ≠ rows' !! 0%nat.
Proof. do 5 eexists. by vm_compute. Qed.

(** * The theorems on concrete positions *)

(** e2 and (6, 4) go round. *)
Lemma coordinates_inverse_witness :
  (∃ m, algebraicToIndices "e2" = Some m
        ∧ indicesToAlgebraic (row m) (col m) = Some "e2"%string)
  ∧ (∃ s, indicesToAlgebraic 6 4 = Some s
          ∧ algebraicToIndices s = Some {| row := 6; col := 4 |}).
Proof.
  split.
  - apply (proj1 coordinates_inverse). reflexivity.
  - apply (proj1 (proj2 coordinates_inverse)); lia.
Defined.

(** From the starting position White may play e2-e4. *)
Lemma pawn_moves_witness :
  isValidMove startPosition "e2" "e4" White = Ok true.
Proof.
  destruct (pawn_moves startPosition "e2" "e4" White
              {| row := 6; col := 4 |} {| row := 4; col := 4 |}
              eq_refl eq_refl eq_refl eq_refl eq_refl)
    as (v & Hv & Hiff).
  rewrite Hv. f_equal. apply Hiff. right; left.
  repeat split; reflexivity.
Defined.

(** The rook on a8 may take the knight on c8 and may not pass it. *)
Lemma sliding_moves_witness :
  isValidMove rookPosition "a8" "d8" White = Ok false
  ∧ isValidMove rookPosition "a8" "c8" White = Ok true.
Proof.
  split.
  - apply (proj1 (sliding_moves rookPosition "a8" "d8" White
                    {| row := 0; col := 0 |} {| row := 0; col := 3 |} Rook
                    eq_refl eq_refl eq_refl eq_refl eq_refl)).
    left. exists 2. split; [vm_compute; split; [discriminate | reflexivity]
                           | reflexivity].
  - apply (proj2 (sliding_moves rookPosition "a8" "c8" White
                    {| row := 0; col := 0 |} {| row := 0; col := 2 |} Rook
                    eq_refl eq_refl eq_refl eq_refl eq_refl)).
    + left. split; [reflexivity | discriminate].
    + intros k Hk. assert (k = 1) as -> by (unfold distance in Hk; cbn in Hk; lia).
      reflexivity.
    + right. reflexivity.
Defined.

(** e2-e4 applied to the starting position. *)
Lemma makeMove_frame_witness :
  ∃ σ' b' g',
    makeMove startState startBoard "e2" "e4" = Ok (σ', b')
    ∧ contents σ' b' = Some g'
    ∧ get g' 4 4 = Piece "P" ∧ get g' 6 4 = Null
    ∧ get g' 0 0 = Piece "r"
    ∧ contents σ' startBoard = Some startPosition.
Proof.
  destruct (makeMove_frame startState startBoard startPosition "e2" "e4"
              {| row := 6; col := 4 |} {| row := 4; col := 4 |})
    as (σ' & b' & g' & Hrun & Hg' & _ & Hcells & _ & Hold & _);
    [by vm_compute | reflexivity | reflexivity | reflexivity | discriminate|].
  exists σ', b', g'. repeat split; try assumption.
  - rewrite Hcells by (unfold valid_index; lia). reflexivity.
  - rewrite Hcells by (unfold valid_index; lia). reflexivity.
  - rewrite Hcells by (unfold valid_index; lia). reflexivity.
Defined.

(** The queen on a8 takes on a1 as a rook does. *)
Lemma queen_is_rook_or_bishop_witness :
  ∃ q r b,
    isValidMove queenPosition "a8" "a1" White = Ok q
    ∧ isValidMove (place queenPosition 0 0 (Piece "R")) "a8" "a1" White = Ok r
    ∧ isValidMove (place queenPosition 0 0 (Piece "B")) "a8" "a1" White = Ok b
    ∧ (q = true ↔ r = true ∨ b = true).
Proof.
  apply (queen_is_rook_or_bishop queenPosition "a8" "a1" White
           {| row := 0; col := 0 |} {| row := 7; col := 0 |});
    reflexivity.
Defined.

(** The king on e1 may step to d2. *)
Lemma king_moves_witness :
  isValidMove kingPosition "e1" "d2" White = Ok true.
Proof.
  destruct (king_moves kingPosition "e1" "d2" White
              {| row := 7; col := 4 |} {| row := 6; col := 3 |}
              eq_refl eq_refl eq_refl eq_refl)
    as (v & Hv & Hiff).
  rewrite Hv. f_equal. apply Hiff.
  repeat split; try (vm_compute; discriminate).
  intros [H _]. discriminate H.
Defined.

(** A rank 9 does not exist: the board comes back as it is. *)
Lemma makeMove_invalid_square_witness :
  ∃ σ', makeMove startState startBoard "e2" "e9" = Ok (σ', startBoard)
        ∧ heap σ' = heap startState
        ∧ console σ' = console startState ++ [invalidNotation].
Proof.
  apply (makeMove_invalid_square startState startBoard "e2" "e9").
  right. reflexivity.
Defined.

(** White cannot move the black pawn on e7. *)
Lemma turn_ownership_witness :
  isValidMove startPosition "e7" "e6" White = Ok false.
Proof.
  apply (turn_ownership startPosition "e7" "e6" White
           {| row := 1; col := 4 |} {| row := 2; col := 4 |} "p");
    [reflexivity | reflexivity | reflexivity | reflexivity | discriminate].
Defined.

(** e2-e2 is no move. *)
Lemma null_move_rejected_witness :
  isValidMove startPosition "e2" "e2" White = Ok false.
Proof.
  apply (null_move_rejected startPosition "e2" White {| row := 6; col := 4 |});
    reflexivity.
Defined.

(** * Further properties of the move engine *)

(** X1: The knight. With a knight of the side to move on the source square,
    [isValidMove] returns true exactly when the destination holds no piece of
    the same side and the move is two squares one way and one the other. No
    other square of the board is read. *)
Theorem knight_moves g f t turn from to :
  wf_board g = true →
  algebraicToIndices f = Some from →
  algebraicToIndices t = Some to →
  get g (row from) (col from) = Piece (pieceCode turn Knight) →
  let dr := row to - row from in
  let dc := col to - col from in
  ∃ v, isValidMove g f t turn = Ok v
       ∧ (v = true ↔
            sameSide turn (get g (row to) (col to)) = false
            ∧ ((Z.abs dr = 2 ∧ Z.abs dc = 1) ∨ (Z.abs dr = 1 ∧ Z.abs dc = 2))).
Proof.
  intros Hwf Hf Ht Hsrc dr dc.
  destruct (sameSide turn (get g (row to) (col to))) eqn:Hdst.
  - exists false. split.
    + by eapply friendly_destination_rejected.
    + split; [discriminate | intros [? _]; discriminate].
  - dispatch g f from to Hwf Hf Ht Hsrc Hdst; fold dr dc.
    all: eexists; (split; [reflexivity|]).
    all: rewrite orb_true_iff, !andb_true_iff, !Z.eqb_eq; tauto.
Qed.

(** X2: A square that is no valid algebraic square: [isValidMove] returns false
    without reading the board, whatever the board is. *)
Theorem isValidMove_invalid_square g f t turn :
  valid_square f = false ∨ valid_square t = false →
  isValidMove g f t turn = Ok false.
Proof.
  intros Hinv. unfold isValidMove.
  destruct Hinv as [H|H]; apply algebraicToIndices_invalid in H; rewrite H;
    [reflexivity | by destruct (algebraicToIndices f)].
Qed.

(** X3: A board that lacks the row of the source square: reading the source
    square throws. *)
Theorem isValidMove_missing_row g f t turn from to :
  algebraicToIndices f = Some from →
  algebraicToIndices t = Some to →
  Z.of_nat (length g) <= row from →
  isValidMove g f t turn = Throw TypeError.
Proof.
  intros Hf Ht Hshort. unfold isValidMove. rewrite Hf, Ht.
  unfold cellAt, index.
  destruct (Z.ltb_spec (row from) 0); [reflexivity|].
  rewrite (lookup_ge_None_2 g (Z.to_nat (row from))) by lia. reflexivity.
Qed.

Lemma kindOf_pieceCode c k : kindOf c = Some k → c = pieceCode (colorOf c) k.
Proof.
  destruct c as [[] [] [] [] [] [] [] []]; vm_compute;
    try discriminate; intros [= <-]; reflexivity.
Qed.

(** The rows that an obstruction loop of [isValidMove] reads exist. *)
Lemma loop_returns g sq bound :
  length g = 8%nat →
  (∀ k, 1 <= k < bound → valid_index (sq k).1) →
  ∃ v, unobstructed g sq bound = Ok v.
Proof.
  intros Hlen Hrows.
  destruct (unobstructed_spec g sq bound Hlen Hrows) as (v & Hv & _). eauto.
Qed.

Ltac loop_rows :=
  let k := fresh "k" in
  let Hk := fresh "Hk" in
  intros k Hk; cbn [fst]; rewrite ?step_sgn by lia;
  unfold valid_index in *;
  repeat match goal with
    | |- context [Z.sgn ?d] =>
        destruct (Z.sgn_spec d) as [[? ->]|[[? ->]|[? ->]]]
    end; lia.

Lemma isValidMove_total g f t turn :
  wf_board g = true → ∃ v, isValidMove g f t turn = Ok v.
Proof.
  intros Hwf. pose proof (wf_board_length g Hwf) as Hlen.
  unfold isValidMove.
  destruct (algebraicToIndices f) as [from|] eqn:Hf; [|by eexists].
  destruct (algebraicToIndices t) as [to|] eqn:Ht; [|by eexists].
  destruct (algebraicToIndices_range f from Hf) as [Hfr Hfc].
  destruct (algebraicToIndices_range t to Ht) as [Htr Htc].
  rewrite (cellAt_get g (row from)) by done. cbn [mbind Result_bind].
  destruct (get g (row from) (col from)) as [c| |]; try by eexists.
  destruct (_ || _); [by eexists|].
  rewrite !(cellAt_get g (row to)) by done. cbn [mbind Result_bind].
  destruct (match get g (row to) (col to) with Piece _ => _ | _ => false end);
    [by eexists|].
  set (dr := row to - row from). set (dc := col to - col from).
  repeat (destruct (Ascii.eqb (toLowerCase c) _); [|]); try by eexists.
  - (* pawn *)
    destruct (truthy (get g (row to) (col to))), (isUpperCase c); zcases;
      try (by eexists);
      rewrite cellAt_get by (done || unfold valid_index; lia); by eexists.
  - (* bishop *)
    zcases; [|by eexists].
    apply loop_returns; [done|]. subst dr dc. loop_rows.
  - (* rook *)
    zcases; try by eexists.
    all: apply loop_returns; [done|]; subst dr dc; loop_rows.
  - (* queen *)
    zcases; try by eexists.
    all: apply loop_returns; [done|]; subst dr dc; loop_rows.
Qed.

Lemma valid_move_inv g f t turn :
  wf_board g = true →
  isValidMove g f t turn = Ok true →
  ∃ from to k,
    algebraicToIndices f = Some from
    ∧ algebraicToIndices t = Some to
    ∧ f ≠ t
    ∧ get g (row from) (col from) = Piece (pieceCode turn k)
    ∧ sameSide turn (get g (row to) (col to)) = false.
Proof.
  intros Hwf Hok. pose proof (wf_board_length g Hwf) as Hlen.
  unfold isValidMove in Hok.
  destruct (algebraicToIndices f) as [from|] eqn:Hf; [|discriminate].
  destruct (algebraicToIndices t) as [to|] eqn:Ht; [|discriminate].
  destruct (algebraicToIndices_range f from Hf) as [Hfr Hfc].
  destruct (algebraicToIndices_range t to Ht) as [Htr Htc].
  rewrite (cellAt_get g (row from)) in Hok by done.
  cbn [mbind Result_bind] in Hok.
  destruct (get g (row from) (col from)) as [c| |] eqn:Hsrc; try discriminate.
  rewrite turn_test in Hok.
  destruct (bool_decide (colorOf c = turn)) eqn:Hturn; [|discriminate].
  apply bool_decide_eq_true_1 in Hturn. cbn [negb] in Hok.
  rewrite (cellAt_get g (row to)) in Hok by done.
  cbn [mbind Result_bind] in Hok.
  assert (Hdst : sameSide turn (get g (row to) (col to)) = false).
  { destruct (get g (row to) (col to)) as [d| |]; try reflexivity.
    rewrite friend_test in Hok. rewrite sameSide_piece.
    by destruct (bool_decide (colorOf d = turn)). }
  destruct (kindOf c) as [k|] eqn:Hkind.
  - apply kindOf_pieceCode in Hkind. rewrite Hturn in Hkind. subst c.
    exists from, to, k. repeat split; try done.
    intros ->. rewrite Hf in Ht. injection Ht as <-.
    rewrite Hsrc, sameSide_piece, colorOf_pieceCode in Hdst.
    by rewrite bool_decide_eq_true_2 in Hdst.
  - exfalso. unfold kindOf in Hkind.
    destruct (match get g (row to) (col to) with Piece _ => _ | _ => false end);
      [discriminate|].
    repeat (destruct (Ascii.eqb (toLowerCase c) _); [discriminate|]).
    discriminate.
Qed.



(** * Further properties of makeMove *)

(** Two 8x8 boards with the same squares are the same board. *)
Lemma board_ext g1 g2 :
  wf_board g1 = true → wf_board g2 = true →
  (∀ r c, valid_index r → valid_index c → get g1 r c = get g2 r c) →
  g1 = g2.
Proof.
  intros Hwf1 Hwf2 Hget.
  apply (list_eq_same_length _ _ 8);
    [by apply wf_board_length | by apply wf_board_length |].
  intros i rw1 rw2 Hi Hrw1 Hrw2.
  apply (list_eq_same_length _ _ 8);
    [exact (wf_board_row g2 i rw2 Hwf2 Hrw2)
    | exact (wf_board_row g1 i rw1 Hwf1 Hrw1) |].
  intros j x y Hj Hx Hy.
  specialize (Hget (Z.of_nat i) (Z.of_nat j)).
  unfold get, index in Hget.
  destruct (Z.ltb_spec (Z.of_nat i) 0); [lia|].
  destruct (Z.ltb_spec (Z.of_nat j) 0); [lia|].
  rewrite !Nat2Z.id, Hrw1, Hrw2, Hx, Hy in Hget.
  apply Hget; unfold valid_index; lia.
Qed.

(** What [makeMove] does for two valid squares, equal or not: the new board
    holds the contents of the old one with the source's piece written on the
    destination and then null written on the source. *)
Lemma makeMove_runs σ b g f t from to :
  contents σ b = Some g →
  wf_board g = true →
  algebraicToIndices f = Some from →
  algebraicToIndices t = Some to →
  ∃ σ' b',
    makeMove σ b f t = Ok (σ', b')
    ∧ contents σ' b'
      = Some (place (place g (row to) (col to) (get g (row from) (col from)))
                    (row from) (col from) Null)
    ∧ heap σ ⊆ heap σ'
    ∧ heap σ !! b' = None
    ∧ console σ' = console σ.
Proof.
  intros Hb Hwf Hf Ht.
  pose proof (wf_board_length g Hwf) as Hlen.
  destruct (algebraicToIndices_range f from Hf) as [Hfr Hfc].
  destruct (algebraicToIndices_range t to Ht) as [Htr Htc].
  unfold makeMove. rewrite Hf, Ht.
  destruct (copyBoard_spec σ b g Hb)
    as (σ1 & b' & rows' & -> & Hsub1 & Hcon1 & Hb1 & Hg1 & Hnew & Hfresh & Hnd).
  cbn [mbind Result_bind].
  rewrite (load_get σ1 b' rows' g) by done. cbn [mbind Result_bind].
  destruct (store_place σ1 b' rows' g (row to) (col to)
              (get g (row from) (col from)) Hb1 Hg1 Hnd Hlen Htr)
    as (σ2 & -> & Hb2 & Hg2 & Hcon2 & Hframe2).
  cbn [mbind Result_bind].
  set (g2 := place g (row to) (col to) (get g (row from) (col from))) in *.
  assert (Hwf2 : wf_board g2 = true) by (by apply place_wf).
  destruct (store_place σ2 b' rows' g2 (row from) (col from) Null
              Hb2 Hg2 Hnd (wf_board_length g2 Hwf2) Hfr)
    as (σ3 & -> & Hb3 & Hg3 & Hcon3 & Hframe3).
  cbn [mbind Result_bind].
  exists σ3, b'. repeat split.
  - apply contents_holds. eauto.
  - apply map_subseteq_spec. intros l o Hl.
    assert (l ∉ rows').
    { intros Hin. rewrite Forall_forall in Hfresh.
      specialize (Hfresh l Hin). cbn beta in Hfresh. congruence. }
    rewrite Hframe3, Hframe2 by done.
    by eapply lookup_weaken.
  - exact Hnew.
  - congruence.
Qed.

(** X6: A move from a valid square to itself is carried out like any other: the
    new board has that square empty, so the piece on it is gone, and every other
    square as before. *)
Theorem makeMove_same_square σ b g s m :
  contents σ b = Some g →
  wf_board g = true →
  algebraicToIndices s = Some m →
  ∃ σ' b' g',
    makeMove σ b s s = Ok (σ', b')
    ∧ contents σ' b' = Some g'
    ∧ ∀ r c, valid_index r → valid_index c →
        get g' r c = if decide (r = row m ∧ c = col m) then Null
                     else get g r c.
Proof.
  intros Hb Hwf Hs.
  destruct (algebraicToIndices_range s m Hs) as [Hr Hc].
  destruct (makeMove_runs σ b g s s m m Hb Hwf Hs Hs)
    as (σ' & b' & Hrun & Hcont & _).
  eexists σ', b', _. split; [exact Hrun|]. split; [exact Hcont|].
  intros r c Hr' Hc'. rewrite !get_place by (done || by apply place_wf).
  by destruct (decide _).
Qed.

(** X7: Moving a piece onto an empty square and back gives a board with the
    contents of the first one. *)
Theorem makeMove_there_and_back σ b g f t from to :
  contents σ b = Some g →
  wf_board g = true →
  algebraicToIndices f = Some from →
  algebraicToIndices t = Some to →
  get g (row to) (col to) = Null →
  ∃ σ1 b1 σ2 b2,
    makeMove σ b f t = Ok (σ1, b1)
    ∧ makeMove σ1 b1 t f = Ok (σ2, b2)
    ∧ contents σ2 b2 = Some g
    ∧ contents σ2 b = Some g.
Proof.
  intros Hb Hwf Hf Ht Hempty.
  destruct (algebraicToIndices_range f from Hf) as [Hfr Hfc].
  destruct (algebraicToIndices_range t to Ht) as [Htr Htc].
  destruct (makeMove_runs σ b g f t from to Hb Hwf Hf Ht)
    as (σ1 & b1 & Hrun & Hcont1 & Hsub1 & _).
  set (g1 := place (place g (row to) (col to) (get g (row from) (col from)))
                   (row from) (col from) Null) in *.
  assert (Hwf1 : wf_board g1 = true) by (by repeat apply place_wf).
  destruct (makeMove_runs σ1 b1 g1 t f to from Hcont1 Hwf1 Ht Hf)
    as (σ2 & b2 & Hrun2 & Hcont2 & Hsub2 & _).
  exists σ1, b1, σ2, b2. split; [exact Hrun|]. split; [exact Hrun2|]. split.
  - rewrite Hcont2. f_equal. apply board_ext.
    + by repeat apply place_wf.
    + done.
    + intros r c Hr Hc. unfold g1.
      rewrite !get_place by (done || by repeat apply place_wf).
      repeat destruct (decide _); try done; destruct_and?; subst;
        congruence || tauto.
  - eapply contents_mono; [exact Hsub2|]. by eapply contents_mono.
Qed.

(** X8: The square a move has left is empty on the new board: no move from it is
    valid there, for either side. *)
Theorem vacated_square_cannot_move σ b g f t from to :
  contents σ b = Some g →
  wf_board g = true →
  algebraicToIndices f = Some from →
  algebraicToIndices t = Some to →
  ∃ σ' b' g',
    makeMove σ b f t = Ok (σ', b')
    ∧ contents σ' b' = Some g'
    ∧ wf_board g' = true
    ∧ ∀ u turn, isValidMove g' f u turn = Ok false.
Proof.
  intros Hb Hwf Hf Ht.
  destruct (algebraicToIndices_range f from Hf) as [Hfr Hfc].
  destruct (algebraicToIndices_range t to Ht) as [Htr Htc].
  destruct (makeMove_runs σ b g f t from to Hb Hwf Hf Ht)
    as (σ' & b' & Hrun & Hcont & _).
  eexists σ', b', _. split; [exact Hrun|]. split; [exact Hcont|].
  assert (Hwf' : wf_board
            (place (place g (row to) (col to) (get g (row from) (col from)))
                   (row from) (col from) Null) = true)
    by (by repeat apply place_wf).
  split; [exact Hwf'|].
  intros u turn. destruct (algebraicToIndices u) as [m|] eqn:Hu.
  - eapply empty_source_rejected; eauto.
    rewrite get_place by (done || by apply place_wf).
    by rewrite decide_True.
  - unfold isValidMove. by rewrite Hf, Hu.
Qed.

Lemma filter_length_change `{EqDecision A} (p q : A → bool) (x : A)
    (l : list A) :
  NoDup l → (∀ y, y ≠ x → p y = q y) →
  Z.of_nat (length (List.filter q l))
  = Z.of_nat (length (List.filter p l))
    + (if decide (x ∈ l) then Z.b2z (q x) - Z.b2z (p x) else 0).
Proof.
  intros Hnd Hpq. induction Hnd as [|y l Hy Hnd IH].
  - cbn. by rewrite decide_False by set_solver.
  - cbn [List.filter]. destruct (decide (y = x)) as [->|Hne].
    + rewrite decide_True by set_solver.
      rewrite decide_False in IH by done.
      destruct (p x), (q x); cbn [length Z.b2z]; lia.
    + rewrite <- (Hpq y Hne).
      destruct (decide (x ∈ l)) as [Hin|Hnin].
      * rewrite decide_True by set_solver.
        destruct (p y); cbn [length]; lia.
      * rewrite decide_False
          by (rewrite elem_of_cons; intros [?|?]; [congruence | done]).
        destruct (p y); cbn [length]; lia.
Qed.

Lemma allCoords_NoDup : NoDup allCoords.
Proof. apply (bool_decide_unpack _). by vm_compute. Qed.

Lemma allCoords_valid r c : valid_index r → valid_index c → (r, c) ∈ allCoords.
Proof.
  intros Hr Hc. split_index Hr; split_index Hc;
    apply (bool_decide_unpack _); by vm_compute.
Qed.

(** Writing one square changes the count by what left and what came. *)
Lemma countSquares_place P g r c v :
  wf_board g = true → valid_index r → valid_index c →
  countSquares P (place g r c v)
  = countSquares P g - Z.b2z (P (get g r c)) + Z.b2z (P v).
Proof.
  intros Hwf Hr Hc. unfold countSquares.
  rewrite (filter_length_change (λ rc, P (get g rc.1 rc.2)) _ (r, c))
    by (apply allCoords_NoDup ||
        (intros [r' c'] Hne; cbn [fst snd]; rewrite get_place by done;
         rewrite decide_False by (intros [-> ->]; done); done)).
  rewrite decide_True by (by apply allCoords_valid).
  cbn [fst snd]. rewrite get_place by done.
  rewrite decide_True by done. lia.
Qed.

(** X9: What one call of [makeMove] with valid squares does to the number of
    squares of any kind that null does not belong to: it goes down by one when
    the destination was of that kind and stays as it is otherwise. So no call
    adds a piece, and a call removes at most the piece on the destination. *)
Theorem makeMove_count σ b g f t from to :
  contents σ b = Some g →
  wf_board g = true →
  algebraicToIndices f = Some from →
  algebraicToIndices t = Some to →
  ∃ σ' b' g',
    makeMove σ b f t = Ok (σ', b')
    ∧ contents σ' b' = Some g'
    ∧ ∀ P : SquareState → bool, P Null = false →
        countSquares P g'
        = countSquares P g - Z.b2z (P (get g (row to) (col to))).
Proof.
  intros Hb Hwf Hf Ht.
  destruct (algebraicToIndices_range f from Hf) as [Hfr Hfc].
  destruct (algebraicToIndices_range t to Ht) as [Htr Htc].
  destruct (makeMove_runs σ b g f t from to Hb Hwf Hf Ht)
    as (σ' & b' & Hrun & Hcont & _).
  eexists σ', b', _. split; [exact Hrun|]. split; [exact Hcont|].
  intros P HP.
  rewrite !countSquares_place by (done || by apply place_wf).
  rewrite get_place by done. rewrite HP.
  destruct (decide _) as [[-> ->]|]; cbn [Z.b2z]; lia.
Qed.

(** * Further properties of fenToBoard *)

Lemma length_padded cells : length (padded cells) = 8%nat.
Proof.
  unfold padded, emptyRow. rewrite length_take, length_app, length_replicate.
  lia.
Qed.

Lemma padded_digits pre n :
  padded (pre ++ replicate n Null) = padded pre.
Proof.
  unfold padded, emptyRow. rewrite <- app_assoc, <- replicate_add.
  replace (n + 8)%nat with (8 + n)%nat by lia.
  rewrite replicate_add, app_assoc.
  apply take_app_le. rewrite length_app, length_replicate. lia.
Qed.

Lemma padded_full pre more :
  (8 <= length pre)%nat → padded (pre ++ more) = padded pre.
Proof.
  intros Hlen. unfold padded.
  rewrite <- app_assoc, !take_app_le by done. reflexivity.
Qed.

Lemma padded_write pre v :
  (length pre < 8)%nat →
  <[length pre := v]> (padded pre) = padded (pre ++ [v]).
Proof.
  intros Hlen. unfold padded, emptyRow.
  rewrite <- take_insert_lt by lia.
  rewrite insert_app_r_alt, Nat.sub_diag by lia.
  change (replicate 8 Null) with (Null :: replicate 7 Null) at 1.
  cbn [insert list_insert].
  replace ((pre ++ [v]) ++ replicate 8 Null)
    with ((pre ++ v :: replicate 7 Null) ++ [Null])
    by (rewrite <- !app_assoc; reflexivity).
  symmetry. apply take_app_le. rewrite length_app. cbn. lia.
Qed.

Lemma padded_written pre v more :
  (length pre < 8)%nat → padded (pre ++ Piece v :: more) ≠ padded pre.
Proof.
  intros Hlen Heq. apply (f_equal (λ l, l !! length pre)) in Heq.
  unfold padded, emptyRow in Heq. rewrite !lookup_take in Heq.
  rewrite !decide_True in Heq by lia.
  rewrite <- app_assoc in Heq.
  rewrite !(lookup_app_r pre), Nat.sub_diag in Heq by lia. discriminate.
Qed.

Lemma parseInt_range c n : parseInt c = Some n → 0 <= n <= 9.
Proof.
  unfold parseInt, isDigit. destruct (_ && _) eqn:H; [|discriminate].
  apply andb_prop in H as [?%Z.leb_le ?%Z.leb_le]. intros [= <-]. lia.
Qed.

(** One rank string on a row that exists: the row becomes what the string
    describes after what the row holds already. *)
Lemma fillRank_row rankStr : ∀ board i colIndex pre,
  board !! i = Some (padded pre) →
  0 <= colIndex →
  (colIndex < 8 → Z.of_nat (length pre) = colIndex) →
  (8 <= colIndex → (8 <= length pre)%nat) →
  fillRank board (Z.of_nat i) rankStr colIndex
  = Ok (<[i := padded (pre ++ expandRank rankStr)]> board).
Proof.
  induction rankStr as [|char rest IH]; intros board i c pre Hrow Hc Hlt Hge.
  - cbn [fillRank expandRank]. rewrite app_nil_r.
    by rewrite list_insert_id.
  - cbn [fillRank expandRank]. destruct (parseInt char) as [n|] eqn:Hp.
    + apply parseInt_range in Hp.
      rewrite (IH board i (c + n) (pre ++ replicate (Z.to_nat n) Null)).
      * by rewrite <- app_assoc.
      * by rewrite padded_digits.
      * lia.
      * intros ?. rewrite length_app, length_replicate. lia.
      * intros ?. rewrite length_app, length_replicate. lia.
    + destruct (Z.ltb_spec c 8) as [Hin|Hout].
      * unfold setCell, index.
        destruct (Z.ltb_spec (Z.of_nat i) 0); [lia|].
        rewrite Nat2Z.id, Hrow. cbn [mbind Result_bind].
        rewrite writeAt_inside by (rewrite length_padded; lia).
        replace (Z.to_nat c) with (length pre) by lia.
        rewrite padded_write by lia.
        rewrite (IH _ i (c + 1) (pre ++ [Piece char])).
        -- by rewrite list_insert_insert_eq, <- app_assoc.
        -- apply list_lookup_insert_eq. by eapply lookup_lt_Some.
        -- lia.
        -- intros ?. rewrite length_app. cbn. lia.
        -- intros ?. rewrite length_app. cbn. lia.
      * rewrite (IH board i c (pre ++ [Piece char])).
        -- by rewrite <- app_assoc.
        -- rewrite padded_full by lia. done.
        -- lia.
        -- lia.
        -- intros ?. rewrite length_app. lia.
Qed.

(** One rank string on a row that does not exist: the first piece character
    within the eight columns throws, a string without one changes
    nothing. *)
Lemma fillRank_no_row rankStr : ∀ board r colIndex pre,
  index board r = None →
  0 <= colIndex →
  (colIndex < 8 → Z.of_nat (length pre) = colIndex) →
  (8 <= colIndex → (8 <= length pre)%nat) →
  fillRank board r rankStr colIndex
  = if bool_decide (padded (pre ++ expandRank rankStr) = padded pre)
    then Ok board else Throw TypeError.
Proof.
  induction rankStr as [|char rest IH]; intros board r c pre Hrow Hc Hlt Hge.
  - cbn [fillRank expandRank]. rewrite app_nil_r.
    by rewrite bool_decide_eq_true_2.
  - cbn [fillRank expandRank]. destruct (parseInt char) as [n|] eqn:Hp.
    + apply parseInt_range in Hp.
      rewrite (IH board r (c + n) (pre ++ replicate (Z.to_nat n) Null)).
      * by rewrite <- app_assoc, padded_digits.
      * done.
      * lia.
      * intros ?. rewrite length_app, length_replicate. lia.
      * intros ?. rewrite length_app, length_replicate. lia.
    + destruct (Z.ltb_spec c 8) as [Hin|Hout].
      * unfold setCell. rewrite Hrow. cbn [mbind Result_bind].
        rewrite bool_decide_eq_false_2; [reflexivity|].
        apply padded_written. lia.
      * rewrite (IH board r c (pre ++ [Piece char])).
        -- by rewrite <- app_assoc, (padded_full pre [_]) by lia.
        -- done.
        -- lia.
        -- lia.
        -- intros ?. rewrite length_app. lia.
Qed.

Lemma padded_nil : padded [] = emptyRow.
Proof. reflexivity. Qed.

(** The rank strings that are written into the rows of the board. *)
Lemma fillRanks_rows ranks : ∀ board i,
  (i + length ranks <= 8)%nat →
  (∀ j, (i <= j < 8)%nat → board !! j = Some emptyRow) →
  fillRanks board (Z.of_nat i) ranks
  = Ok (take i board ++ (rankRow <$> ranks) ++ drop (i + length ranks) board).
Proof.
  induction ranks as [|rankStr rest IH]; intros board i Hlen Hrows.
  - cbn. by rewrite Nat.add_0_r, take_drop.
  - cbn [fillRanks length] in *.
    rewrite (fillRank_row rankStr board i 0 []);
      [|rewrite padded_nil; apply Hrows; lia | lia | cbn; lia | lia].
    cbn [mbind Result_bind app].
    replace (Z.of_nat i + 1) with (Z.of_nat (S i)) by lia.
    assert (Hi : (i < length board)%nat).
    { apply (lookup_lt_Some _ _ emptyRow), Hrows. lia. }
    rewrite IH.
    + f_equal. rewrite (take_S_r _ _ (rankRow rankStr))
        by (by apply list_lookup_insert_eq).
      rewrite take_insert_ge by lia.
      rewrite drop_insert_lt by lia.
      rewrite <- app_assoc. cbn [fmap list_fmap app].
      by replace (S i + length rest)%nat with (i + S (length rest))%nat by lia.
    + lia.
    + intros j Hj. rewrite list_lookup_insert_ne by lia. apply Hrows. lia.
Qed.

(** The rank strings past the last row. *)
Lemma fillRanks_no_rows ranks : ∀ board r,
  Z.of_nat (length board) <= r →
  fillRanks board r ranks
  = if forallb (λ s, bool_decide (rankRow s = emptyRow)) ranks
    then Ok board else Throw TypeError.
Proof.
  induction ranks as [|rankStr rest IH]; intros board r Hr; [reflexivity|].
  cbn [fillRanks forallb].
  rewrite (fillRank_no_row rankStr board r 0 []);
    [| unfold index; destruct (Z.ltb_spec r 0); [done|];
       apply lookup_ge_None_2; lia
     | lia | cbn; lia | lia].
  rewrite padded_nil. cbn [app]. fold (rankRow rankStr).
  destruct (bool_decide (rankRow rankStr = emptyRow)); [|reflexivity].
  cbn [mbind Result_bind andb]. apply IH. lia.
Qed.

Lemma fillRanks_app l1 : ∀ l2 board r,
  fillRanks board r (l1 ++ l2)
  = board' ← fillRanks board r l1;
    fillRanks board' (r + Z.of_nat (length l1)) l2.
Proof.
  induction l1 as [|s l1 IH]; intros l2 board r.
  - cbn. by rewrite Z.add_0_r.
  - cbn [app fillRanks length].
    destruct (fillRank board r s 0) as [board'|e]; [|reflexivity].
    cbn [mbind Result_bind]. rewrite IH.
    destruct (fillRanks board' (r + 1) l1); [|reflexivity].
    cbn [mbind Result_bind]. f_equal. lia.
Qed.

(** What [fenToBoard] returns for every string: the first eight rank strings
    give the rows they describe, rows without a rank string stay empty, and
    a rank string past the eighth throws unless it describes an empty
    row. *)
Lemma fenToBoard_char fenString :
  fenToBoard fenString
  = if forallb (λ s, bool_decide (rankRow s = emptyRow))
         (drop 8 (ranksOf fenString))
    then Ok (take 8 ((rankRow <$> ranksOf fenString) ++ replicate 8 emptyRow))
    else Throw TypeError.
Proof.
  unfold fenToBoard. fold (ranksOf fenString).
  set (ranks := ranksOf fenString).
  rewrite <- (take_drop 8 ranks) at 1.
  rewrite fillRanks_app.
  change 0 with (Z.of_nat 0).
  rewrite fillRanks_rows;
    [| rewrite length_take; lia
     | intros j Hj; apply lookup_replicate_2; lia ].
  cbn [mbind Result_bind]. rewrite take_0. cbn [app].
  rewrite drop_replicate.
  set (board := (rankRow <$> take 8 ranks) ++ _).
  assert (Hboard : board
            = take 8 ((rankRow <$> ranks) ++ replicate 8 emptyRow)).
  { unfold board. rewrite length_take.
    destruct (decide (length ranks <= 8)%nat) as [Hle|Hgt].
    - rewrite take_ge by lia.
      rewrite take_app_ge by (rewrite length_fmap; lia).
      rewrite length_fmap, take_replicate. do 2 f_equal. lia.
    - rewrite take_app_le by (rewrite length_fmap; lia).
      rewrite fmap_take.
      replace (8 - (0 + 8 `min` length ranks))%nat with 0%nat by lia.
      cbn [replicate]. by rewrite app_nil_r. }
  destruct (drop 8 ranks) as [|s rest] eqn:Hdrop.
  - cbn. by rewrite Hboard.
  - assert (8 < length ranks)%nat.
    { destruct (decide (8 < length ranks)%nat); [done|].
      rewrite drop_ge in Hdrop by lia. discriminate. }
    rewrite fillRanks_no_rows.
    + by rewrite Hboard.
    + rewrite Hboard, !length_take, length_app, length_replicate. lia.
Qed.

(** * The glyphs of getPieceUnicode *)

Lemma getPieceUnicode_code t k :
  getPieceUnicode (Piece (pieceCode t k))
  = [match t, k with
     | White, King => 9812 | White, Queen => 9813 | White, Rook => 9814
     | White, Bishop => 9815 | White, Knight => 9816 | White, Pawn => 9817
     | Black, King => 9818 | Black, Queen => 9819 | Black, Rook => 9820
     | Black, Bishop => 9821 | Black, Knight => 9822 | Black, Pawn => 9823
     end].
Proof. destruct t, k; by vm_compute. Qed.

(** X15: The glyphs: the twelve piece codes, and nothing else, have a glyph; two
    piece codes never share one; the upper-case codes have the six symbols
    U+2654 to U+2659 and the lower-case codes the six from U+265A on. *)
Theorem getPieceUnicode_glyphs :
  (∀ v, getPieceUnicode v ≠ [] ↔ ∃ t k, v = Piece (pieceCode t k))
  ∧ (∀ t k t' k',
       getPieceUnicode (Piece (pieceCode t k))
       = getPieceUnicode (Piece (pieceCode t' k')) →
       t = t' ∧ k = k')
  ∧ (∀ t k, ∃ glyph,
       getPieceUnicode (Piece (pieceCode t k)) = [glyph]
       ∧ 9812 <= glyph <= 9823
       ∧ (glyph <= 9817 ↔ t = White)).
Proof.
  split; [|split].
  - intros v. split.
    + destruct v as [c| |]; [|done|done].
      destruct (kindOf c) as [k|] eqn:Hk.
      * intros _. exists (colorOf c), k. f_equal. by apply kindOf_pieceCode.
      * intros Hne. exfalso. apply Hne. clear Hne. revert Hk.
        destruct c as [[] [] [] [] [] [] [] []]; by vm_compute.
    + intros (t & k & ->). by rewrite getPieceUnicode_code.
  - intros t k t' k'. rewrite !getPieceUnicode_code.
    destruct t, k, t', k'; intros [=]; done.
  - intros t k. eexists. split; [apply getPieceUnicode_code|].
    destruct t, k; (split; [lia|]); split; (done || lia).
Qed.

(** * Further properties of fenToBoard: what it returns and when it throws *)

(** X10: With at most eight rank strings [fenToBoard] returns the rows that the
    rank strings describe, from row 0 on, and empty rows after them: a digit
    leaves that many squares empty, every other character is stored on its
    square, what lies beyond the eighth column is dropped, and a row that is
    short ends in empty squares. *)
Theorem fenToBoard_rows fenString :
  (length (ranksOf fenString) <= 8)%nat →
  fenToBoard fenString
  = Ok ((rankRow <$> ranksOf fenString)
        ++ replicate (8 - length (ranksOf fenString)) emptyRow).
Proof.
  intros Hlen. rewrite fenToBoard_char.
  rewrite drop_ge by done. cbn [forallb]. f_equal.
  rewrite take_app_ge by (rewrite length_fmap; lia).
  rewrite length_fmap, take_replicate. do 2 f_equal. lia.
Qed.

Lemma forallb_false {A} (p : A → bool) (l : list A) :
  forallb p l = false ↔ ∃ x, x ∈ l ∧ p x = false.
Proof.
  induction l as [|y l IH]; cbn [forallb].
  - split; [discriminate | intros (x & Hx & _); by apply elem_of_nil in Hx].
  - rewrite andb_false_iff, IH. split.
    + intros [Hy|(x & Hx & Hp)];
        [exists y; split; [left | done]
        | exists x; split; [by right | done]].
    + intros (x & [->|Hx]%elem_of_cons & Hp); [by left | right; eauto].
Qed.

(** X11: [fenToBoard] throws exactly when a rank string after the eighth
    describes a row that is not empty, that is when it has a character that is
    no digit before the eighth column is passed. *)
Theorem fenToBoard_throws_iff fenString :
  fenToBoard fenString = Throw TypeError
  ↔ ∃ s, s ∈ drop 8 (ranksOf fenString) ∧ rankRow s ≠ emptyRow.
Proof.
  rewrite fenToBoard_char.
  destruct (forallb _ _) eqn:Hall.
  - split; [discriminate|]. intros (s & Hin & Hne). exfalso.
    rewrite forallb_forall in Hall.
    apply list_elem_of_In, Hall in Hin.
    by apply bool_decide_eq_true in Hin.
  - split; [intros _|done].
    apply forallb_false in Hall as (s & Hin & Hs).
    exists s. split; [done|]. by apply bool_decide_eq_false in Hs.
Qed.

Lemma split_no_sep sep p :
  occurs sep p = false → split sep p = [p].
Proof.
  induction p as [|c p IH]; [reflexivity|]. cbn [occurs split].
  intros [Hc Hp]%orb_false_elim. rewrite Hc, (IH Hp). reflexivity.
Qed.

Lemma split_hd_app sep p rest :
  occurs sep p = false →
  hd EmptyString (split sep (p ++ String sep rest)) = p.
Proof.
  induction p as [|c p IH]; simpl.
  - intros _. by rewrite Ascii.eqb_refl.
  - intros [Hc Hp]%orb_false_elim. rewrite Hc. specialize (IH Hp).
    destruct (split sep (p ++ String sep rest)); simpl in *; by subst.
Qed.

(** X12: Only the text before the first blank counts: the fields that follow it
    (side to move, castling, en passant, clocks) do not change the board. *)
Theorem fenToBoard_ignores_fields placement fields :
  occurs " " placement = false →
  fenToBoard (placement ++ String " " fields) = fenToBoard placement.
Proof.
  intros Hp. unfold fenToBoard.
  rewrite split_hd_app by done.
  by rewrite (split_no_sep " " placement Hp).
Qed.

Lemma expandRank_cells rankStr : Forall parsedCell (expandRank rankStr).
Proof.
  induction rankStr as [|c rest IH]; [constructor|].
  cbn [expandRank]. apply Forall_app. split; [|exact IH].
  unfold parseInt. destruct (isDigit c) eqn:Hd.
  - by apply Forall_replicate.
  - by repeat constructor.
Qed.

Lemma padded_cells cells : Forall parsedCell cells → Forall parsedCell (padded cells).
Proof.
  intros H. unfold padded. apply Forall_take, Forall_app. split; [exact H|].
  by apply Forall_replicate.
Qed.

Lemma fenToBoard_wf fenString g :
  fenToBoard fenString = Ok g →
  wf_board g = true ∧ Forall (Forall parsedCell) g.
Proof.
  rewrite fenToBoard_char. destruct (forallb _ _); [|discriminate].
  intros Heq.
  assert (g = take 8 ((rankRow <$> ranksOf fenString)
                      ++ replicate 8 emptyRow)) as -> by congruence.
  clear Heq. split.
  - apply wf_board_spec. split.
    + rewrite length_take, length_app, length_replicate. lia.
    + apply Forall_take, Forall_app. split.
      * apply Forall_fmap, Forall_true. intros s. apply length_padded.
      * by apply Forall_replicate.
  - apply Forall_take, Forall_app. split.
    + apply Forall_fmap, Forall_true. intros s.
      apply padded_cells, expandRank_cells.
    + apply Forall_replicate. by apply Forall_replicate.
Qed.

(** X13: Every board that [fenToBoard] returns is an 8x8 grid whose squares hold
    null or a character that is no digit: never undefined, never a digit. *)
Theorem fenToBoard_cells fenString g :
  fenToBoard fenString = Ok g →
  wf_board g = true
  ∧ ∀ r c, valid_index r → valid_index c →
      get g r c = Null ∨ ∃ ch, get g r c = Piece ch ∧ isDigit ch = false.
Proof.
  intros [Hwf Hcells]%fenToBoard_wf. split; [exact Hwf|].
  intros r c Hr Hc. unfold get.
  destruct (index_is_Some g r) as [rw Hrw];
    [rewrite (wf_board_length g Hwf); unfold valid_index in Hr; lia|].
  rewrite Hrw.
  pose proof (index_row_length g r rw Hwf Hrw) as Hlen.
  destruct (index_is_Some rw c) as [v Hv];
    [rewrite Hlen; unfold valid_index in Hc; lia|].
  rewrite Hv. cbn [default].
  assert (Hp : parsedCell v).
  { unfold index in Hrw, Hv.
    destruct (Z.ltb_spec r 0); [done|]. destruct (Z.ltb_spec c 0); [done|].
    eapply Forall_lookup_1 in Hcells; [|exact Hrw].
    eapply Forall_lookup_1 in Hcells; [|exact Hv]. exact Hcells. }
  destruct v as [ch| |]; [right; eauto | by left | done].
Qed.

(** * fenToBoard and isValidMove together *)

(** X14: The parser and the move engine fit: on a board that [fenToBoard] has
    returned, [isValidMove] returns a boolean for every pair of strings and
    every side. *)
Theorem parsed_board_is_safe fenString g f t turn :
  fenToBoard fenString = Ok g →
  ∃ v, isValidMove g f t turn = Ok v.
Proof.
  intros [Hwf _]%fenToBoard_wf. by apply isValidMove_total.
Qed.

(** * The boundary of the coordinate mapper *)


(** * isValidMove and makeMove together *)


(** * What isValidMove reads *)





(** * The two sides are treated alike *)

Lemma wf_board_mirror g : wf_board g = true → wf_board (mirror g) = true.
Proof.
  rewrite !wf_board_spec. intros [Hlen Hrows]. unfold mirror. split.
  - by rewrite length_reverse, length_map.
  - apply Forall_reverse. rewrite Forall_forall in Hrows.
    apply Forall_forall. intros rw [rw0 [-> Hin]]%list_elem_of_fmap.
    rewrite length_map. by apply Hrows.
Qed.

Lemma get_mirror g r c :
  wf_board g = true → valid_index r →
  get (mirror g) (7 - r) c = swapSide (get g r c).
Proof.
  intros Hwf Hr. pose proof (wf_board_length g Hwf) as Hlen.
  unfold get, mirror, index, valid_index in *.
  destruct (Z.ltb_spec (7 - r) 0); [lia|].
  destruct (Z.ltb_spec r 0); [lia|].
  rewrite reverse_lookup by (rewrite length_map; lia).
  rewrite length_map, Hlen.
  replace (8 - S (Z.to_nat (7 - r)))%nat with (Z.to_nat r) by lia.
  rewrite list_lookup_fmap.
  destruct (g !! Z.to_nat r) as [rw|]; [|done]. cbn.
  destruct (Z.ltb_spec c 0); [done|].
  rewrite list_lookup_fmap. by destruct (rw !! Z.to_nat c).
Qed.

Lemma truthy_swapSide v : truthy (swapSide v) = truthy v.
Proof. destruct v as [c| |]; try done. cbn. by destruct (kindOf c). Qed.

Lemma standard_get g r c :
  wf_board g = true → standard g = true →
  valid_index r → valid_index c →
  standardSquare (get g r c) = true.
Proof.
  intros Hwf Hstd Hr Hc. unfold standard in Hstd.
  rewrite forallb_forall in Hstd. unfold get.
  destruct (index_is_Some g r) as [rw Hrw].
  { rewrite (wf_board_length g Hwf). unfold valid_index in Hr. lia. }
  rewrite Hrw.
  pose proof (index_row_length g r rw Hwf Hrw) as Hlen.
  destruct (index_is_Some rw c) as [v Hv].
  { rewrite Hlen. unfold valid_index in Hc. lia. }
  rewrite Hv. cbn.
  assert (In rw g) as Hin.
  { unfold index in Hrw. destruct (r <? 0); [done|].
    apply list_elem_of_In. by eapply list_elem_of_lookup_2. }
  specialize (Hstd rw Hin). rewrite forallb_forall in Hstd. apply Hstd.
  unfold index in Hv. destruct (c <? 0); [done|].
  apply list_elem_of_In. by eapply list_elem_of_lookup_2.
Qed.

(** The case of a piece code and of the code of the other side. *)
Lemma swapSide_piece c k :
  kindOf c = Some k →
  ∃ c', swapSide (Piece c) = Piece c'
        ∧ isUpperCase c' = negb (isUpperCase c)
        ∧ toLowerCase c' = toLowerCase c.
Proof.
  intros Hk. cbn. rewrite Hk. eexists. split; [reflexivity|].
  rewrite (kindOf_pieceCode c k Hk).
  by destruct (colorOf c), k.
Qed.

Lemma kindOf_None c :
  kindOf c = None →
  Ascii.eqb (toLowerCase c) "p" = false
  ∧ Ascii.eqb (toLowerCase c) "n" = false
  ∧ Ascii.eqb (toLowerCase c) "b" = false
  ∧ Ascii.eqb (toLowerCase c) "r" = false
  ∧ Ascii.eqb (toLowerCase c) "q" = false
  ∧ Ascii.eqb (toLowerCase c) "k" = false.
Proof.
  unfold kindOf. cbv zeta.
  destruct (Ascii.eqb (toLowerCase c) "p"); [done|].
  destruct (Ascii.eqb (toLowerCase c) "n"); [done|].
  destruct (Ascii.eqb (toLowerCase c) "b"); [done|].
  destruct (Ascii.eqb (toLowerCase c) "r"); [done|].
  destruct (Ascii.eqb (toLowerCase c) "q"); [done|].
  by destruct (Ascii.eqb (toLowerCase c) "k").
Qed.

(** The obstruction loop on the mirrored board reads the mirrored
    squares. *)
Lemma scan_mirror g sq sq' i n :
  wf_board g = true →
  (∀ k, i <= k < i + Z.of_nat n → valid_index (sq k).1) →
  (∀ k, i <= k < i + Z.of_nat n → sq' k = (7 - (sq k).1, (sq k).2)) →
  scan (mirror g) sq' i n = scan g sq i n.
Proof.
  intros Hwf. pose proof (wf_board_length g Hwf) as Hlen.
  pose proof (wf_board_length _ (wf_board_mirror g Hwf)) as Hlen'.
  revert i. induction n as [|n IH]; intros i Hrows Hsq.
  - reflexivity.
  - cbn [scan]. rewrite (Hsq i) by lia. cbn [fst snd].
    assert (valid_index (sq i).1) as Hr by (apply Hrows; lia).
    rewrite !cellAt_get by (done || unfold valid_index in *; lia).
    cbn [mbind Result_bind]. rewrite get_mirror, truthy_swapSide by done.
    destruct (truthy (get g (sq i).1 (sq i).2)); [reflexivity|].
    apply IH; intros k Hk; [apply Hrows | apply Hsq]; lia.
Qed.

Lemma unobstructed_mirror g from to sq sq' bound bound' :
  wf_board g = true →
  valid_index (row from) → valid_index (row to) →
  Z.abs (row to - row from) = Z.abs (col to - col from)
  ∨ row to - row from = 0 ∨ col to - col from = 0 →
  bound = distance from to →
  bound' = bound →
  (∀ k, 1 <= k < bound → sq k = lineSquare from to k) →
  (∀ k, 1 <= k < bound → sq' k = (7 - (sq k).1, (sq k).2)) →
  unobstructed (mirror g) sq' bound' = unobstructed g sq bound.
Proof.
  intros Hwf Hfr Htr Hal -> -> Hsq Hsq'. unfold unobstructed.
  apply scan_mirror; try done.
  - intros k Hk. rewrite Hsq by lia. unfold lineSquare, distance in *.
    cbn [fst]. unfold valid_index in *.
    destruct (Z.sgn_spec (row to - row from)) as [[? ->]|[[? ->]|[? ->]]]; lia.
  - intros k Hk. apply Hsq'. lia.
Qed.

Ltac loops_mirror g from to :=
  match goal with
  | |- unobstructed (mirror g) ?sq' ?bound' = unobstructed g ?sq ?bound =>
      apply (unobstructed_mirror g from to sq sq' bound bound');
      [ assumption | assumption | assumption
      | lia
      | unfold distance; lia
      | lia
      | let k := fresh "k" in
        let Hk := fresh "Hk" in
        intros k Hk; unfold lineSquare; rewrite ?step_sgn by lia;
        f_equal; nia
      | let k := fresh "k" in
        let Hk := fresh "Hk" in
        intros k Hk; cbn [fst snd]; rewrite ?step_sgn by lia;
        f_equal; nia ]
  end.

Lemma friend_test_mirror turn v :
  standardSquare v = true →
  match swapSide v with
  | Piece destPiece =>
      isW (opponent turn) && isUpperCase destPiece
      || isB (opponent turn) && negb (isUpperCase destPiece)
  | _ => false
  end
  = match v with
    | Piece destPiece =>
        isW turn && isUpperCase destPiece
        || isB turn && negb (isUpperCase destPiece)
    | _ => false
    end.
Proof.
  destruct v as [c| |]; try done. cbn [standardSquare].
  intros [k Hk]%bool_decide_eq_true.
  destruct (swapSide_piece c k Hk) as (c' & -> & -> & _).
  by destruct turn, (isUpperCase c).
Qed.

(** X30: The rules are the same for the two sides: on a board of piece codes, a
    move of one side is valid exactly when the mirrored move of the other side
    is valid on the mirrored board, where the rows are in reverse order and
    every piece has changed sides. *)
Theorem isValidMove_colour_symmetry g f t turn from to f' t' :
  wf_board g = true →
  standard g = true →
  algebraicToIndices f = Some from →
  algebraicToIndices t = Some to →
  algebraicToIndices f' = Some (mirrorSquare from) →
  algebraicToIndices t' = Some (mirrorSquare to) →
  isValidMove (mirror g) f' t' (opponent turn) = isValidMove g f t turn.
Proof.
  intros Hwf Hstd Hf Ht Hf' Ht'.
  pose proof (wf_board_length g Hwf) as Hlen.
  pose proof (wf_board_mirror g Hwf) as Hwf'.
  pose proof (wf_board_length _ Hwf') as Hlen'.
  destruct (algebraicToIndices_range _ _ Hf) as [Hfr Hfc].
  destruct (algebraicToIndices_range _ _ Ht) as [Htr Htc].
  pose proof (standard_get g _ _ Hwf Hstd Htr Htc) as Hdst.
  unfold isValidMove. rewrite Hf, Ht, Hf', Ht'. cbn [mirrorSquare row col].
  rewrite !(cellAt_get (mirror g)) by (done || unfold valid_index in *; lia).
  rewrite !(cellAt_get g) by done.
  rewrite !get_mirror by done. cbn [mbind Result_bind].
  destruct (get g (row from) (col from)) as [c| |]; [|done..].
  destruct (kindOf c) as [k|] eqn:Hk.
  - destruct (swapSide_piece c k Hk) as (c' & -> & Hup & Hlow).
    rewrite Hup, Hlow.
    assert ((isW (opponent turn) && negb (negb (isUpperCase c))
             || isB (opponent turn) && negb (isUpperCase c))
            = (isW turn && negb (isUpperCase c)
               || isB turn && isUpperCase c)) as ->
      by by destruct turn, (isUpperCase c).
    destruct (isW turn && negb (isUpperCase c) || isB turn && isUpperCase c);
      [done|].
    rewrite friend_test_mirror, !truthy_swapSide by done.
    match goal with
    | |- (if ?b then _ else _) = _ => destruct b; [done|]
    end.
    cbv zeta.
    destruct (Ascii.eqb (toLowerCase c) "p").
    { destruct (isUpperCase c); cbn [negb]; zcases; try done; try lia.
      - rewrite !cellAt_get by (done || unfold valid_index in *; lia).
        cbn [mbind Result_bind].
        replace (7 - row from + 1) with (7 - (row from + -1)) by lia.
        rewrite get_mirror, truthy_swapSide
          by (done || unfold valid_index in *; lia).
        reflexivity.
      - rewrite !cellAt_get by (done || unfold valid_index in *; lia).
        cbn [mbind Result_bind].
        replace (7 - row from + -1) with (7 - (row from + 1)) by lia.
        rewrite get_mirror, truthy_swapSide
          by (done || unfold valid_index in *; lia).
        reflexivity. }
    destruct (Ascii.eqb (toLowerCase c) "n").
    { f_equal. zcases; lia. }
    destruct (Ascii.eqb (toLowerCase c) "b").
    { zcases; try done; try lia. cbn [negb]. loops_mirror g from to. }
    destruct (Ascii.eqb (toLowerCase c) "r").
    { zcases; try done; try lia; loops_mirror g from to. }
    destruct (Ascii.eqb (toLowerCase c) "q").
    { zcases; try done; try lia; loops_mirror g from to. }
    destruct (Ascii.eqb (toLowerCase c) "k"); [|done].
    f_equal. zcases; lia.
  - cbn [swapSide]. rewrite Hk.
    destruct (kindOf_None c Hk) as (-> & -> & -> & -> & -> & ->).
    by repeat match goal with
       | |- context [if ?b then _ else _] => destruct b
       end.
Qed.

(** * Properties of js/main.js *)

(** ** Running the statements *)

Lemma bind_run {A B} (m : Js A) (f : A → Js B) w :
  (m ≫= f) w
  = match m w with
    | (Ok a, w') => f a w'
    | (Throw e, w') => (Throw e, w')
    end.
Proof. reflexivity. Qed.

Lemma read_run {A} (f : World → A) w : read f w = (Ok (f w), w).
Proof. reflexivity. Qed.

Lemma write_run (f : World → World) w : write f w = (Ok tt, f w).
Proof. reflexivity. Qed.

Lemma skip_run w : skip w = (Ok tt, w).
Proof. reflexivity. Qed.

Lemma throw_run {A} e w : @throw A e w = (Throw e, w).
Proof. reflexivity. Qed.

Lemma pure_run {A} (r : Result A) w : pure r w = (r, w).
Proof. reflexivity. Qed.

Ltac js_proj :=
  cbn [fst snd
       js document currentBoardState puzzles currentPuzzle currentPuzzleIndex
       selectedSquare playerTurn messageArea nextPuzzleButton
       set_js set_document set_currentBoardState set_puzzles
       set_currentPuzzle set_currentPuzzleIndex set_selectedSquare
       set_playerTurn set_messageArea set_nextPuzzleButton
       chessboard puzzle_description turn_indicator
       heap console consoleError] in *.

(** Runs the statements at the head of the goal. *)
Ltac js_run :=
  repeat first
    [ rewrite bind_run | rewrite read_run | rewrite write_run
    | rewrite skip_run | rewrite throw_run | rewrite pure_run
    | progress js_proj ].

(** The statements that only touch the page: they return, and the world
    afterwards is the world before with another page. *)
Lemma changeSquare_run i f w :
  ∃ page, changeSquare i f w = (Ok tt, set_document page w).
Proof. eexists. reflexivity. Qed.

Lemma deselect_run name w :
  ∃ page, deselect name w = (Ok tt, set_document page w).
Proof.
  unfold deselect. js_run. destruct (querySquare name w).
  - apply changeSquare_run.
  - exists (document w). by destruct w.
Qed.

Lemma displayMessage_run text type w :
  ∃ area, displayMessage text type w = (Ok tt, set_messageArea area w)
          ∧ shown text area.
Proof.
  unfold displayMessage. js_run. destruct (messageArea w) as [el|] eqn:Hm.
  - js_run. eexists. split; [reflexivity|]. by intros el' [= <-].
  - exists None. split; [|done]. js_run. destruct w. cbn in *. by subst.
Qed.

Lemma consoleLine_run args w :
  consoleLine args w
  = (Ok tt, set_js (consoleError (js w) (String.concat " " args)) w).
Proof. reflexivity. Qed.

(** ** Loops *)

(** A loop whose body returns and keeps an invariant, indexed by the number
    of rounds, returns with the invariant. *)
Lemma forEach_inv {A} (I : nat → World → Prop) (l : list A) body w :
  I 0%nat w →
  (∀ i x w1, l !! i = Some x → I i w1 →
     ∃ w2, body x w1 = (Ok tt, w2) ∧ I (S i) w2) →
  ∃ w', forEach l body w = (Ok tt, w') ∧ I (length l) w'.
Proof.
  revert I w. induction l as [|x l IH]; intros I w H0 Hstep.
  - by exists w.
  - cbn [forEach]. rewrite bind_run.
    destruct (Hstep 0%nat x w eq_refl H0) as (w1 & -> & H1).
    apply (IH (λ i, I (S i))); [done|].
    intros i y w2 Hy. by apply (Hstep (S i)).
Qed.

Lemma seqZ_8_lookup (i : nat) (x : Z) :
  seqZ 0 8 !! i = Some x → x = Z.of_nat i ∧ (i < 8)%nat.
Proof. intros [-> ?]%lookup_seqZ. lia. Qed.

(** ** The squares of the page *)

Lemma world_eta w : set_document (document w) w = w.
Proof. by destruct w. Qed.

Lemma page_eta page : withSquares (chessboard page) page = page.
Proof. by destruct page. Qed.

Lemma paintedTo_0 g squares : paintedTo 0 g squares = squares.
Proof.
  unfold paintedTo. apply list_eq. intros i. rewrite list_lookup_imap.
  by destruct (squares !! i).
Qed.

Lemma boardUI_paintedTo k g squares :
  boardUI squares → boardUI (paintedTo k g squares).
Proof.
  intros [Hnames Hclass]. split.
  - rewrite <- Hnames. apply list_eq. intros i. unfold paintedTo.
    rewrite !list_lookup_fmap, list_lookup_imap.
    destruct (squares !! i) as [sq|]; [|done]. cbn. by destruct (decide _).
  - apply Forall_lookup. intros i sq. unfold paintedTo.
    rewrite list_lookup_imap.
    destruct (squares !! i) as [sq0|] eqn:Hsq; [|done]. cbn.
    intros [= <-]. rewrite Forall_lookup in Hclass.
    specialize (Hclass i sq0 Hsq). by destruct (decide _).
Qed.

Lemma boardUI_length squares : boardUI squares → length squares = 64%nat.
Proof.
  intros [Hnames _]. rewrite <- (length_fmap dataAlgebraic), Hnames.
  apply allSquares_count.
Qed.

(** The selector finds the square of a name at the position of the name. *)
Lemma querySquare_at squares name k w :
  chessboard (document w) = Some squares →
  boardUI squares →
  allSquares !! k = Some name →
  querySquare name w = Some k.
Proof.
  intros Hw [Hnames Hclass] Hk. unfold querySquare. rewrite Hw. cbn.
  assert (∃ sq, squares !! k = Some sq ∧ dataAlgebraic sq = name)
    as (sq & Hsq & Hname).
  { rewrite <- Hnames, list_lookup_fmap in Hk.
    destruct (squares !! k) as [sq|]; [|done]. injection Hk as <-. eauto. }
  assert (list_find
            (λ sq, "square"%string ∈ classList sq ∧ dataAlgebraic sq = name)
            squares = Some (k, sq)) as ->; [|done].
  apply list_find_Some. split; [done|]. split.
  - split; [|done]. rewrite Forall_lookup in Hclass. by eapply Hclass.
  - intros j y Hy Hjk [_ Hyname].
    assert (allSquares !! j = Some name) as Hj.
    { by rewrite <- Hnames, list_lookup_fmap, Hy; cbn; rewrite Hyname. }
    pose proof (NoDup_lookup _ _ _ _ (proj2 allSquares_count) Hj Hk). lia.
Qed.

(** The name that the loops of main.js compute is the name of the square at
    that position. *)
Lemma squareName_at (i j : nat) :
  (i < 8)%nat → (j < 8)%nat →
  allSquares !! (8 * i + j)%nat
  = Some (squareName (Z.of_nat i) (Z.of_nat j)).
Proof.
  intros Hi Hj.
  do 8 (destruct i as [|i]; [do 8 (destruct j as [|j]; [by vm_compute|]); lia|]).
  lia.
Qed.

(** One round of the loops of [displayPieces]. *)
Lemma paintedTo_step k g squares v :
  v = get g (Z.of_nat k `div` 8) (Z.of_nat k `mod` 8) →
  match v with
  | Piece c =>
      alter (λ sq,
               {| dataAlgebraic := dataAlgebraic sq;
                  classList := classList sq;
                  children :=
                    children sq
                    ++ [ {| pieceText := getPieceUnicode v;
                            pieceClassList :=
                              classAdd
                                (if isUpperCase c then "white" else "black")
                                (classAdd "piece" []) |} ] |}) k
        (alter (λ sq,
                  {| dataAlgebraic := dataAlgebraic sq;
                     classList := classList sq;
                     children := [] |}) k (paintedTo k g squares))
  | _ =>
      alter (λ sq,
               {| dataAlgebraic := dataAlgebraic sq;
                  classList := classList sq;
                  children := [] |}) k (paintedTo k g squares)
  end = paintedTo (S k) g squares.
Proof.
  intros Hv. apply list_eq. intros i. unfold paintedTo.
  destruct v as [c| |];
    rewrite !list_lookup_alter, !list_lookup_imap;
    repeat case_decide; try lia; subst;
    destruct (squares !! i) as [sq|];
    cbn [fmap option_fmap option_map]; rewrite <- ?Hv;
    cbn [paint children app]; try done.
  by destruct (isUpperCase c).
Qed.

(** ** displayPieces *)

(** [displayPieces] on an 8x8 board and the squares of [initializeBoardUI]:
    it returns, writes its line on the console, and every square shows the
    board square of its name. *)
Lemma displayPieces_run b g squares w :
  contents (js w) b = Some g →
  wf_board g = true →
  chessboard (document w) = Some squares →
  boardUI squares →
  displayPieces (Some b) w
  = (Ok tt,
     set_js (consoleError (js w) "Pieces displayed on board.")
       (set_document
          (withSquares (Some (painted g squares)) (document w)) w)).
Proof.
  intros Hg Hwf Hsq Hui.
  destruct (proj1 (contents_holds _ _ _) Hg) as (rows & Hrows & Hholds).
  pose proof (wf_board_length g Hwf) as Hlen.
  pose (I := λ (k : nat) (w' : World),
          w' = set_document
                 (withSquares (Some (paintedTo k g squares)) (document w)) w).
  unfold displayPieces. rewrite bind_run.
  match goal with
  | |- context [forEach ?l ?body w] =>
      destruct (forEach_inv (λ i, I (8 * i)%nat) l body w)
        as (w' & -> & Hw')
  end.
  - unfold I. rewrite paintedTo_0, <- Hsq, page_eta. by rewrite world_eta.
  - intros i r w1 [-> Hi]%seqZ_8_lookup Hw1.
    match goal with
    | |- context [forEach ?l ?body w1] =>
        destruct (forEach_inv (λ j, I (8 * i + j)%nat) l body w1)
          as (w2 & Hrun & Hw2)
    end.
    + by rewrite Nat.add_0_r.
    + intros j c w2 [-> Hj]%seqZ_8_lookup Hw2. unfold I in Hw2. subst w2.
      rewrite bind_run. cbn [js set_document].
      rewrite (load_get _ _ _ _ _ _ Hrows Hholds Hlen)
        by (unfold valid_index; lia).
      cbn zeta. rewrite bind_run, read_run.
      erewrite (querySquare_at (paintedTo (8 * i + j) g squares) _
                  (8 * i + j));
        [| reflexivity | by apply boardUI_paintedTo | by apply squareName_at].
      rewrite bind_run. unfold changeSquare at 1. rewrite write_run.
      cbn [document set_document chessboard withSquares fmap option_fmap
             option_map puzzle_description turn_indicator].
      assert (get g (Z.of_nat i) (Z.of_nat j)
              = get g (Z.of_nat (8 * i + j) `div` 8)
                      (Z.of_nat (8 * i + j) `mod` 8)) as Hcell.
      { rewrite Nat2Z.inj_add, Nat2Z.inj_mul. f_equal.
        - rewrite Z.mul_comm, Z.div_add_l by lia.
          rewrite Z.div_small; lia.
        - rewrite Z.add_comm, Z.mul_comm, Z.mod_add by lia.
          symmetry. apply Z.mod_small. lia. }
      pose proof (paintedTo_step (8 * i + j) g squares _ Hcell) as Hstep.
      replace (8 * i + S j)%nat with (S (8 * i + j)) by lia.
      unfold I.
      destruct (get g (Z.of_nat i) (Z.of_nat j)) eqn:Hv;
        [unfold changeSquare; rewrite write_run | rewrite skip_run
        | rewrite skip_run];
        (eexists; split; [reflexivity|]); rewrite <- Hstep; reflexivity.
    + exists w2. split; [exact Hrun|]. unfold I in *. rewrite Hw2.
      by replace (8 * i + length (seqZ 0 8))%nat with (8 * S i)%nat
        by (rewrite length_seqZ; lia).
  - unfold I in Hw'. subst w'. rewrite consoleLine_run. cbn [js set_document].
    unfold painted. rewrite (boardUI_length _ Hui), length_seqZ. reflexivity.
Qed.

(** ** The statements of handleSquareClick *)

Lemma boardUI_alter f k squares :
  (∀ sq, dataAlgebraic (f sq) = dataAlgebraic sq) →
  (∀ sq, "square"%string ∈ classList sq → "square"%string ∈ classList (f sq)) →
  boardUI squares → boardUI (alter f k squares).
Proof.
  intros Hname Hclass [Hnames Hcl]. split.
  - rewrite <- Hnames. apply list_eq. intros i.
    rewrite !list_lookup_fmap, list_lookup_alter.
    case_decide; subst; destruct (squares !! i) as [sq|]; cbn; try done.
    by rewrite Hname.
  - apply Forall_lookup. intros i sq. rewrite list_lookup_alter.
    rewrite Forall_lookup in Hcl.
    case_decide; subst; destruct (squares !! i) as [sq0|] eqn:Hsq; cbn;
      try done; intros [= <-]; eauto.
Qed.

Lemma classRemove_other c d l : c ≠ d → d ∈ l → d ∈ classRemove c l.
Proof.
  intros Hcd Hd. unfold classRemove. apply list_elem_of_filter. by split.
Qed.

(** Deselecting keeps the squares of the board what they are, and what they
    show. *)
Lemma deselect_ui name squares w :
  chessboard (document w) = Some squares →
  boardUI squares →
  ∃ squares',
    deselect name w
    = (Ok tt, set_document (withSquares (Some squares') (document w)) w)
    ∧ boardUI squares'
    ∧ children <$> squares' = children <$> squares.
Proof.
  intros Hsq Hui. unfold deselect. js_run.
  destruct (querySquare name w) as [i|].
  - unfold changeSquare. js_run. rewrite Hsq. eexists.
    split; [reflexivity|]. split.
    + apply boardUI_alter; [done | | done].
      intros sq Hin. cbn. by apply classRemove_other.
    + apply list_eq. intros j.
      rewrite !list_lookup_fmap, list_lookup_alter.
      case_decide; [subst|done]. by destruct (squares !! j).
  - exists squares. split; [|done].
    by rewrite <- Hsq, page_eta, world_eta.
Qed.

Lemma updateTurnIndicator_ui w :
  ∃ page,
    updateTurnIndicator w = (Ok tt, set_document page w)
    ∧ chessboard page = chessboard (document w).
Proof.
  unfold updateTurnIndicator. js_run.
  destruct (turn_indicator (document w)); js_run.
  - eexists. split; reflexivity.
  - exists (document w). by rewrite world_eta.
Qed.

Lemma switchTurn_run w :
  ∃ page,
    switchTurn w
    = (Ok tt,
       set_document page (set_playerTurn (flipTurn (playerTurn w)) w))
    ∧ chessboard page = chessboard (document w).
Proof.
  unfold switchTurn. js_run.
  destruct (updateTurnIndicator_ui (set_playerTurn (flipTurn (playerTurn w)) w))
    as (page & -> & Hpage).
  exists page. split; [reflexivity | exact Hpage].
Qed.

Lemma thePuzzle_run p pz w :
  currentPuzzle w = Some p → puzzles w !! p = Some pz →
  thePuzzle w = (Ok pz, w).
Proof. intros Hp Hpz. unfold thePuzzle. by rewrite Hp, Hpz. Qed.

(** The puzzle with another progress. *)
Lemma setMoveIndex_run p v w :
  currentPuzzle w = Some p →
  setMoveIndex v w
  = (Ok tt,
     set_puzzles
       (alter (λ pz,
                 {| puzzleId := puzzleId pz; fen := fen pz;
                    solution := solution pz;
                    description := description pz; turn := turn pz;
                    currentMoveIndexInSolution := v |}) p (puzzles w)) w).
Proof. intros Hp. unfold setMoveIndex. by rewrite Hp. Qed.

Lemma callIsValidMove_run b g f t side w :
  contents (js w) b = Some g →
  callIsValidMove (Some b) f t side w = (isValidMove g f t side, w).
Proof.
  intros Hg. unfold callIsValidMove, boardOf. rewrite Hg. reflexivity.
Qed.

(** With two valid squares, [makeMove] of js/chess.js is that of
    js/chess.ts. *)
Lemma makeMoveJs_makeMove σ b f t from to :
  algebraicToIndices f = Some from →
  algebraicToIndices t = Some to →
  makeMoveJs σ b f t = makeMove σ b f t.
Proof. intros Hf Ht. unfold makeMoveJs, makeMove. by rewrite Hf, Ht. Qed.

Lemma showNextPuzzleButton_run btn w :
  nextPuzzleButton w = Some btn →
  let last := currentPuzzleIndex w >=? Z.of_nat (length (puzzles w)) - 1 in
  showNextPuzzleButton w
  = (Ok tt,
     set_nextPuzzleButton
       (Some {| textContent :=
                  if last then "All Puzzles Solved!" else "Next Puzzle";
                className := className btn;
                styleDisplay := "block";
                disabled := last |}) w).
Proof.
  intros Hb. unfold showNextPuzzleButton, displayNextPuzzleButton. js_run.
  rewrite Hb. js_run. reflexivity.
Qed.

Lemma showNextPuzzleButton_throws w :
  nextPuzzleButton w = None →
  showNextPuzzleButton w = (Throw TypeError, w).
Proof.
  intros Hb. unfold showNextPuzzleButton, displayNextPuzzleButton. js_run.
  rewrite Hb. js_run. rewrite Hb. js_run. reflexivity.
Qed.

(** A move on the board of the page: the board variable refers to a new
    board with the move made, the squares show it, and the progress of the
    puzzle has moved on. *)
Lemma playMove_run b g squares p pz f t from to w :
  currentBoardState w = Some b →
  contents (js w) b = Some g →
  wf_board g = true →
  chessboard (document w) = Some squares →
  boardUI squares →
  currentPuzzle w = Some p →
  puzzles w !! p = Some pz →
  algebraicToIndices f = Some from →
  algebraicToIndices t = Some to →
  let g' := place (place g (row to) (col to) (get g (row from) (col from)))
                  (row from) (col from) Null in
  ∃ σ' b',
    contents σ' b' = Some g'
    ∧ heap (js w) ⊆ heap σ'
    ∧ heap (js w) !! b' = None
    ∧ console σ' = console (js w)
    ∧ playMove f t w
      = (Ok tt,
         set_puzzles
           (alter (λ pz0,
                     {| puzzleId := puzzleId pz0; fen := fen pz0;
                        solution := solution pz0;
                        description := description pz0; turn := turn pz0;
                        currentMoveIndexInSolution :=
                          currentMoveIndexInSolution pz + 1 |}) p (puzzles w))
           (set_js (consoleError σ' "Pieces displayed on board.")
              (set_document
                 (withSquares (Some (painted g' squares)) (document w))
                 (set_currentBoardState (Some b') w)))).
Proof.
  intros Hb Hg Hwf Hsq Hui Hp Hpz Hf Ht g'.
  destruct (makeMove_runs (js w) b g f t from to Hg Hwf Hf Ht)
    as (σ' & b' & Hrun & Hg' & Hsub & Hfresh & Hcon).
  exists σ', b'. repeat (split; [done|]).
  assert (wf_board g' = true) as Hwf'.
  { destruct (algebraicToIndices_range f from Hf) as [_ Hfc].
    destruct (algebraicToIndices_range t to Ht) as [_ Htc].
    unfold g'. apply place_wf; [apply place_wf|]; done. }
  unfold playMove. js_run. rewrite Hb. unfold callMakeMove, engine.
  rewrite (makeMoveJs_makeMove _ _ _ _ from to Hf Ht), Hrun.
  cbn [mbind Result_bind]. js_run.
  rewrite (displayPieces_run b' g' squares) by done.
  js_run. erewrite thePuzzle_run by done. js_run.
  erewrite setMoveIndex_run by done. reflexivity.
Qed.

(** ** handleSquareClick: the first click *)

(** X20: The first click on a square of the board, with a puzzle loaded and
    nothing selected: the square becomes the selection exactly when it holds a
    piece of the side to move; the message says which of the three cases it was;
    the game is not touched. *)
Theorem first_click_selects_own_piece w target el p b g m :
  (chessboard (document w) ≫= (.!! target)) = Some el →
  currentPuzzle w = Some p →
  selectedSquare w = None →
  currentBoardState w = Some b →
  contents (js w) b = Some g →
  wf_board g = true →
  algebraicToIndices (dataAlgebraic el) = Some m →
  let v := get g (row m) (col m) in
  ∃ w',
    handleSquareClick target w = (Ok tt, w')
    ∧ game w' = game w
    ∧ selectedSquare w'
      = (if sameSide (playerTurn w) v then Some (dataAlgebraic el) else None)
    ∧ shown (if sameSide (playerTurn w) v
             then "Piece selected. Click destination square."
             else if truthy v then "Not your turn or not your piece."
             else "Clicked an empty square. Select a piece.")
            (messageArea w').
Proof.
  intros Hel Hp Hsel Hb Hg Hwf Hm v.
  destruct (proj1 (contents_holds _ _ _) Hg) as (rows & Hrows & Hholds).
  destruct (algebraicToIndices_range _ _ Hm) as [Hr Hc].
  unfold handleSquareClick. js_run. rewrite Hel. js_run. rewrite Hp. js_run.
  rewrite Hsel. js_run. rewrite Hm. js_run. rewrite Hb.
  rewrite (load_get _ _ _ _ _ _ Hrows Hholds (wf_board_length g Hwf) Hr).
  fold v. destruct v as [c| |] eqn:Hv.
  - js_run. rewrite friend_test, sameSide_piece.
    destruct (bool_decide (colorOf c = playerTurn w)).
    + js_run. unfold changeSquare. js_run.
      match goal with
      | |- context [displayMessage ?text ?type ?w0] =>
          destruct (displayMessage_run text type w0) as (area & -> & Harea)
      end.
      eexists. split; [reflexivity|]. by js_proj.
    + match goal with
      | |- context [displayMessage ?text ?type ?w0] =>
          destruct (displayMessage_run text type w0) as (area & -> & Harea)
      end.
      eexists. split; [reflexivity|]. js_proj. by rewrite Hsel.
  - match goal with
    | |- context [displayMessage ?text ?type ?w0] =>
        destruct (displayMessage_run text type w0) as (area & -> & Harea)
    end.
    eexists. split; [reflexivity|]. js_proj. by rewrite Hsel.
  - match goal with
    | |- context [displayMessage ?text ?type ?w0] =>
        destruct (displayMessage_run text type w0) as (area & -> & Harea)
    end.
    eexists. split; [reflexivity|]. js_proj. by rewrite Hsel.
Qed.

(** ** handleSquareClick: what changes the game *)

Ltac message_run :=
  match goal with
  | |- context [displayMessage ?text ?type ?w0] =>
      let area := fresh "area" in
      let Harea := fresh "Harea" in
      destruct (displayMessage_run text type w0) as (area & -> & Harea)
  end.

Lemma boardOf_page page sel w board :
  boardOf (set_selectedSquare sel (set_document page w)) board
  = boardOf w board.
Proof. reflexivity. Qed.

(** A click leaves the game as it is, or it is the second click of a move
    that [isValidMove] approves and that the solution expects. *)
Lemma click_game_cases w target :
  game (handleSquareClick target w).2 = game w
  ∨ ∃ src el g,
      selectedSquare w = Some src
      ∧ (chessboard (document w) ≫= (.!! target)) = Some el
      ∧ src ≠ dataAlgebraic el
      ∧ boardOf w (currentBoardState w) = Ok g
      ∧ isValidMove g src (dataAlgebraic el) (playerTurn w) = Ok true
      ∧ expectedMove w = Some (src +:+ dataAlgebraic el).
Proof.
  unfold handleSquareClick. js_run.
  destruct (chessboard (document w) ≫= (.!! target)) as [el|] eqn:Hel;
    js_run; [|by left].
  destruct (currentPuzzle w) as [p|] eqn:Hp; js_run; [|by left].
  destruct (selectedSquare w) as [src|] eqn:Hsel; js_run.
  - destruct (deselect_run src w) as (page & ->). js_run.
    destruct (String.eqb_spec src (dataAlgebraic el)) as [Heq|Hne].
    { message_run. by left. }
    js_run. unfold callIsValidMove. rewrite boardOf_page.
    destruct (boardOf w (currentBoardState w)) as [g|e] eqn:Hg;
      cbn [mbind Result_bind]; [|by left].
    destruct (isValidMove g src (dataAlgebraic el) (playerTurn w))
      as [[|]|e] eqn:Hvalid; cbn [negb]; js_run;
      [| message_run; by left | by left].
    unfold thePuzzle at 1. js_proj. rewrite Hp.
    destruct (puzzles w !! p) as [pz|] eqn:Hpz; cbn [deref]; js_run;
      [|by left].
    case_bool_decide as Hexp; [| message_run; by left].
    right. exists src, el, g. repeat (split; [done|]).
    unfold expectedMove. rewrite Hp. cbn. by rewrite Hpz.
  - destruct (algebraicToIndices (dataAlgebraic el)) as [m|]; js_run;
      [|by left].
    destruct (currentBoardState w) as [b|]; js_run; [|by left].
    destruct (load (js w) b (row m) (col m)) as [[c| |]|e]; js_run;
      try (by left); try (message_run; by left).
    destruct ((isW (playerTurn w) && isUpperCase c)
              || (isB (playerTurn w) && negb (isUpperCase c))); js_run.
    + unfold changeSquare. js_run. message_run. by left.
    + message_run. by left.
Qed.

(** X22: Whatever is clicked, and whatever state the page is in: the board, the
    progress of the puzzles and the side to move change only by the second click
    of a move that [isValidMove] approves on the current board and that is the
    next move of the solution. Every other click, also one that ends in an
    exception, leaves the game as it is. *)
Theorem click_changes_game_only_by_solution w target :
  game (handleSquareClick target w).2 ≠ game w →
  ∃ src el g,
    selectedSquare w = Some src
    ∧ (chessboard (document w) ≫= (.!! target)) = Some el
    ∧ src ≠ dataAlgebraic el
    ∧ boardOf w (currentBoardState w) = Ok g
    ∧ isValidMove g src (dataAlgebraic el) (playerTurn w) = Ok true
    ∧ expectedMove w = Some (src +:+ dataAlgebraic el).
Proof.
  intros Hne. by destruct (click_game_cases w target) as [Heq|H].
Qed.

(** ** handleSquareClick: the moves of the solution *)

Lemma puzzle_after_progress p pz v (l : list Puzzle) :
  l !! p = Some pz →
  alter (λ pz0,
           {| puzzleId := puzzleId pz0; fen := fen pz0;
              solution := solution pz0;
              description := description pz0; turn := turn pz0;
              currentMoveIndexInSolution := v |}) p l !! p
  = Some {| puzzleId := puzzleId pz; fen := fen pz;
            solution := solution pz;
            description := description pz; turn := turn pz;
            currentMoveIndexInSolution := v |}.
Proof.
  intros Hpz. rewrite list_lookup_alter. case_decide; [|done].
  by rewrite Hpz.
Qed.

Lemma alter_as_insert {A} (f : A → A) (l : list A) :
  ∀ p x, l !! p = Some x → alter f p l = <[p := f x]> l.
Proof.
  induction l as [|y l IH]; intros [|p] x Hx; try done.
  - by injection Hx as ->.
  - cbn. f_equal. by apply IH.
Qed.

(** X23: The last move of the solution, played by the second click: the board
    variable refers to a new board with the move made, the squares show it, the
    puzzle is at the end of its solution, the message says that it is solved,
    and the button for the next puzzle is shown, disabled and relabelled when
    this was the last puzzle. The side to move stays the one that moved. *)
Theorem correct_last_move_solves
    w target squares el p pz src b g btn :
  chessboard (document w) = Some squares →
  boardUI squares →
  squares !! target = Some el →
  currentPuzzle w = Some p →
  puzzles w !! p = Some pz →
  selectedSquare w = Some src →
  currentBoardState w = Some b →
  contents (js w) b = Some g →
  wf_board g = true →
  isValidMove g src (dataAlgebraic el) (playerTurn w) = Ok true →
  index (solution pz) (currentMoveIndexInSolution pz)
  = Some (src +:+ dataAlgebraic el) →
  currentMoveIndexInSolution pz + 1 >= Z.of_nat (length (solution pz)) →
  nextPuzzleButton w = Some btn →
  let last := currentPuzzleIndex w >=? Z.of_nat (length (puzzles w)) - 1 in
  ∃ w' from to b' squares',
    handleSquareClick target w = (Ok tt, w')
    ∧ algebraicToIndices src = Some from
    ∧ algebraicToIndices (dataAlgebraic el) = Some to
    ∧ currentBoardState w' = Some b'
    ∧ contents (js w') b' = Some (moved g from to)
    ∧ boardUI squares'
    ∧ chessboard (document w') = Some (painted (moved g from to) squares')
    ∧ puzzles w'
      = <[p := withProgress (currentMoveIndexInSolution pz + 1) pz]>
          (puzzles w)
    ∧ currentPuzzle w' = Some p
    ∧ playerTurn w' = playerTurn w
    ∧ selectedSquare w' = None
    ∧ shown "Puzzle Solved!" (messageArea w')
    ∧ nextPuzzleButton w' = Some (solvedButton last btn).
Proof.
  intros Hsq Hui Hel Hp Hpz Hsel Hb Hg Hwf Hvalid Hexp Hlast Hbtn last.
  destruct (valid_move_inv g src _ _ Hwf Hvalid)
    as (from & to & k & Hf & Ht & Hne & Hsrc & Hdst).
  unfold handleSquareClick. js_run. rewrite Hsq. cbn [mbind option_bind].
  rewrite Hel. js_run. rewrite Hp. js_run. rewrite Hsel. js_run.
  destruct (deselect_ui src squares w Hsq Hui) as (squares1 & -> & Hui1 & _).
  js_run. rewrite (proj2 (String.eqb_neq _ _) Hne). js_run. rewrite Hb.
  erewrite callIsValidMove_run by (js_proj; exact Hg).
  rewrite Hvalid. js_run. cbn [negb]. js_run.
  erewrite thePuzzle_run by (js_proj; done). js_run.
  rewrite bool_decide_true by done. js_run.
  match goal with
  | |- context [playMove _ _ ?w1] =>
      destruct (playMove_run b g squares1 p pz src (dataAlgebraic el)
                  from to w1)
        as (σ' & b' & Hg' & Hsub & Hfresh & Hcon & ->); try done
  end.
  js_run. message_run. js_run.
  erewrite thePuzzle_run;
    [| js_proj; exact Hp | js_proj; by apply puzzle_after_progress].
  js_run. cbn [currentMoveIndexInSolution solution].
  destruct (Z.geb_spec (currentMoveIndexInSolution pz + 1)
              (Z.of_nat (length (solution pz)))) as [_|]; [|lia].
  js_run. message_run. js_run.
  erewrite showNextPuzzleButton_run by (js_proj; exact Hbtn).
  eexists _, from, to, b', squares1. split; [reflexivity|].
  do 2 (split; [done|]). js_proj. rewrite length_alter.
  rewrite (alter_as_insert _ _ p pz Hpz).
  by repeat (split; [done|]).
Qed.

Lemma flipTurn_flipTurn t : flipTurn (flipTurn t) = t.
Proof. by destruct t. Qed.

(** X24: A move of the solution that is not its last, with the next move of the
    solution being the other side's and valid on the new board: the click plays
    both moves. The board variable refers to the board after the two moves, the
    squares show it, and the progress is two moves further. When the reply was
    the last move of the solution the puzzle is solved: the message says so and
    the button is shown, and the side to move stays the side that replied;
    otherwise the side to move is again the one that clicked and the message is
    that of the correct move. *)
Theorem correct_move_gets_reply
    w target squares el p pz src b g btn from to reply :
  chessboard (document w) = Some squares →
  boardUI squares →
  squares !! target = Some el →
  currentPuzzle w = Some p →
  puzzles w !! p = Some pz →
  selectedSquare w = Some src →
  currentBoardState w = Some b →
  contents (js w) b = Some g →
  wf_board g = true →
  nextPuzzleButton w = Some btn →
  algebraicToIndices src = Some from →
  algebraicToIndices (dataAlgebraic el) = Some to →
  isValidMove g src (dataAlgebraic el) (playerTurn w) = Ok true →
  let i := currentMoveIndexInSolution pz in
  index (solution pz) i = Some (src +:+ dataAlgebraic el) →
  index (solution pz) (i + 1) = Some reply →
  solutionPlayer pz (i + 1) = flipTurn (playerTurn w) →
  let g1 := moved g from to in
  isValidMove g1 (substring 0 2 reply) (substring 2 2 reply)
    (flipTurn (playerTurn w)) = Ok true →
  let solved := i + 2 >=? Z.of_nat (length (solution pz)) in
  let last := currentPuzzleIndex w >=? Z.of_nat (length (puzzles w)) - 1 in
  ∃ w' cfrom cto b' squares',
    handleSquareClick target w = (Ok tt, w')
    ∧ algebraicToIndices (substring 0 2 reply) = Some cfrom
    ∧ algebraicToIndices (substring 2 2 reply) = Some cto
    ∧ currentBoardState w' = Some b'
    ∧ contents (js w') b' = Some (moved g1 cfrom cto)
    ∧ boardUI squares'
    ∧ chessboard (document w') = Some (painted (moved g1 cfrom cto) squares')
    ∧ puzzles w' = <[p := withProgress (i + 2) pz]> (puzzles w)
    ∧ currentPuzzle w' = Some p
    ∧ selectedSquare w' = None
    ∧ playerTurn w'
      = (if solved then flipTurn (playerTurn w) else playerTurn w)
    ∧ shown (if solved then "Puzzle Solved! (after computer move)"
             else "Correct move!") (messageArea w')
    ∧ nextPuzzleButton w'
      = Some (if solved then solvedButton last btn else btn).
Proof.
  intros Hsq Hui Hel Hp Hpz Hsel Hb Hg Hwf Hbtn Hf Ht Hvalid i Hexp Hreply
    Hside g1 Hrvalid solved last.
  assert (src ≠ dataAlgebraic el) as Hne.
  { by destruct (valid_move_inv g src _ _ Hwf Hvalid)
      as (? & ? & ? & _ & _ & ? & _). }
  assert (wf_board g1 = true) as Hwf1.
  { destruct (algebraicToIndices_range _ _ Hf) as [_ Hfc].
    destruct (algebraicToIndices_range _ _ Ht) as [_ Htc].
    unfold g1, moved. apply place_wf; [apply place_wf|]; done. }
  destruct (valid_move_inv g1 _ _ _ Hwf1 Hrvalid)
    as (cfrom & cto & k & Hcf & Hct & _).
  unfold handleSquareClick. js_run. rewrite Hsq. cbn [mbind option_bind].
  rewrite Hel. js_run. rewrite Hp. js_run. rewrite Hsel. js_run.
  destruct (deselect_ui src squares w Hsq Hui) as (squares1 & -> & Hui1 & _).
  js_run. rewrite (proj2 (String.eqb_neq _ _) Hne). js_run. rewrite Hb.
  erewrite callIsValidMove_run by (js_proj; exact Hg).
  rewrite Hvalid. js_run. cbn [negb]. js_run.
  erewrite thePuzzle_run by (js_proj; done). js_run.
  rewrite bool_decide_true by done. js_run.
  match goal with
  | |- context [playMove _ _ ?w1] =>
      destruct (playMove_run b g squares1 p pz src (dataAlgebraic el)
                  from to w1)
        as (σ1 & b1 & Hg1 & Hsub1 & Hfresh1 & Hcon1 & ->); try done
  end.
  js_run. message_run. js_run.
  erewrite thePuzzle_run;
    [| js_proj; exact Hp | js_proj; by apply puzzle_after_progress].
  js_run. cbn [currentMoveIndexInSolution solution turn]. fold i.
  pose proof (index_Some_length _ _ _ Hreply) as Hrange.
  destruct (Z.geb_spec (i + 1) (Z.of_nat (length (solution pz))))
    as [|_]; [lia|].
  js_run.
  match goal with
  | |- context [switchTurn ?w1] =>
      destruct (switchTurn_run w1) as (page1 & -> & Hpage1)
  end.
  js_run. unfold solutionPlayer in Hside. rewrite Hside.
  rewrite bool_decide_true by done. js_run.
  rewrite consoleLine_run. js_run. rewrite Hreply. js_run.
  erewrite (callIsValidMove_run b1 g1) by (js_proj; exact Hg1).
  rewrite Hrvalid. js_run.
  match goal with
  | |- context [playMove _ _ ?w1] =>
      destruct (playMove_run b1 g1 (painted g1 squares1) p
                  (withProgress (i + 1) pz)
                  (substring 0 2 reply) (substring 2 2 reply)
                  cfrom cto w1)
        as (σ2 & b2 & Hg2 & Hsub2 & Hfresh2 & Hcon2 & ->);
        [ reflexivity | js_proj; exact Hg1 | exact Hwf1
        | js_proj; by rewrite Hpage1 | by apply boardUI_paintedTo
        | exact Hp | js_proj; by apply puzzle_after_progress
        | exact Hcf | exact Hct | ]
  end.
  js_run.
  erewrite thePuzzle_run;
    [| js_proj; exact Hp
     | js_proj; eapply puzzle_after_progress;
       by apply puzzle_after_progress].
  js_run. cbn [currentMoveIndexInSolution solution withProgress].
  replace (i + 1 + 1) with (i + 2) by lia. fold solved.
  assert (alter (λ pz0, withProgress (i + 2) pz0) p
            (alter (λ pz0, withProgress (i + 1) pz0) p (puzzles w))
          = <[p := withProgress (i + 2) pz]> (puzzles w)) as Hpuzzles.
  { rewrite (alter_as_insert _ _ p (withProgress (i + 1) pz))
      by by apply puzzle_after_progress.
    rewrite (alter_as_insert _ _ p pz Hpz). apply list_insert_insert_eq. }
  unfold withProgress in Hpuzzles at 1 2.
  destruct solved.
  - js_run. message_run. js_run.
    erewrite showNextPuzzleButton_run by (js_proj; exact Hbtn).
    eexists _, cfrom, cto, b2, (painted g1 squares1).
    split; [reflexivity|]. do 2 (split; [done|]).
    js_proj. rewrite !length_alter, Hpuzzles.
    split; [done|]. split; [exact Hg2|].
    split; [by apply boardUI_paintedTo|]. by repeat (split; [done|]).
  - match goal with
    | |- context [switchTurn ?w1] =>
        destruct (switchTurn_run w1) as (page2 & -> & Hpage2)
    end.
    eexists _, cfrom, cto, b2, (painted g1 squares1).
    split; [reflexivity|]. do 2 (split; [done|]).
    js_proj. rewrite Hpage2, Hpuzzles, flipTurn_flipTurn.
    split; [done|]. split; [exact Hg2|].
    split; [by apply boardUI_paintedTo|]. by repeat (split; [done|]).
Qed.

(** ** handleSquareClick: a solution whose reply is no valid move *)

(** X25: A move of the solution that is not its last, when [isValidMove] rejects
    the reply that the solution has next: the move of the click is made and
    counted, the reply is neither made nor counted, the console and the message
    report the error, and the side to move is again the one that clicked. The
    next move that the solution expects is then still the reply. *)
Theorem invalid_reply_is_skipped
    w target squares el p pz src b g from to reply :
  chessboard (document w) = Some squares →
  boardUI squares →
  squares !! target = Some el →
  currentPuzzle w = Some p →
  puzzles w !! p = Some pz →
  selectedSquare w = Some src →
  currentBoardState w = Some b →
  contents (js w) b = Some g →
  wf_board g = true →
  algebraicToIndices src = Some from →
  algebraicToIndices (dataAlgebraic el) = Some to →
  isValidMove g src (dataAlgebraic el) (playerTurn w) = Ok true →
  let i := currentMoveIndexInSolution pz in
  index (solution pz) i = Some (src +:+ dataAlgebraic el) →
  index (solution pz) (i + 1) = Some reply →
  solutionPlayer pz (i + 1) = flipTurn (playerTurn w) →
  isValidMove (moved g from to) (substring 0 2 reply) (substring 2 2 reply)
    (flipTurn (playerTurn w)) = Ok false →
  ∃ w' b' squares',
    handleSquareClick target w = (Ok tt, w')
    ∧ currentBoardState w' = Some b'
    ∧ contents (js w') b' = Some (moved g from to)
    ∧ boardUI squares'
    ∧ chessboard (document w') = Some (painted (moved g from to) squares')
    ∧ puzzles w' = <[p := withProgress (i + 1) pz]> (puzzles w)
    ∧ expectedMove w' = Some reply
    ∧ selectedSquare w' = None
    ∧ playerTurn w' = playerTurn w
    ∧ shown "Error in puzzle solution (computer move)." (messageArea w')
    ∧ last (console (js w'))
      = Some ("Invalid computer move in solution: " +:+ reply).
Proof.
  intros Hsq Hui Hel Hp Hpz Hsel Hb Hg Hwf Hf Ht Hvalid i Hexp Hreply
    Hside Hrvalid.
  assert (src ≠ dataAlgebraic el) as Hne.
  { by destruct (valid_move_inv g src _ _ Hwf Hvalid)
      as (? & ? & ? & _ & _ & ? & _). }
  unfold handleSquareClick. js_run. rewrite Hsq. cbn [mbind option_bind].
  rewrite Hel. js_run. rewrite Hp. js_run. rewrite Hsel. js_run.
  destruct (deselect_ui src squares w Hsq Hui) as (squares1 & -> & Hui1 & _).
  js_run. rewrite (proj2 (String.eqb_neq _ _) Hne). js_run. rewrite Hb.
  erewrite callIsValidMove_run by (js_proj; exact Hg).
  rewrite Hvalid. js_run. cbn [negb]. js_run.
  erewrite thePuzzle_run by (js_proj; done). js_run.
  rewrite bool_decide_true by done. js_run.
  match goal with
  | |- context [playMove _ _ ?w1] =>
      destruct (playMove_run b g squares1 p pz src (dataAlgebraic el)
                  from to w1)
        as (σ1 & b1 & Hg1 & Hsub1 & Hfresh1 & Hcon1 & ->); try done
  end.
  js_run. message_run. js_run.
  erewrite thePuzzle_run;
    [| js_proj; exact Hp | js_proj; by apply puzzle_after_progress].
  js_run. cbn [currentMoveIndexInSolution solution turn]. fold i.
  pose proof (index_Some_length _ _ _ Hreply) as Hrange.
  destruct (Z.geb_spec (i + 1) (Z.of_nat (length (solution pz))))
    as [|_]; [lia|].
  js_run.
  match goal with
  | |- context [switchTurn ?w1] =>
      destruct (switchTurn_run w1) as (page1 & -> & Hpage1)
  end.
  js_run. unfold solutionPlayer in Hside. rewrite Hside.
  rewrite bool_decide_true by done. js_run.
  rewrite consoleLine_run. js_run. rewrite Hreply. js_run.
  erewrite (callIsValidMove_run b1 (moved g from to))
    by (js_proj; exact Hg1).
  rewrite Hrvalid. js_run. rewrite consoleLine_run. js_run. message_run.
  js_run.
  match goal with
  | |- context [switchTurn ?w1] =>
      destruct (switchTurn_run w1) as (page2 & -> & Hpage2)
  end.
  eexists _, b1, squares1. split; [reflexivity|].
  js_proj. unfold expectedMove. js_proj.
  rewrite Hpage2, Hpage1, flipTurn_flipTurn, Hp.
  rewrite (alter_as_insert _ _ p pz Hpz). cbn [mbind option_bind].
  rewrite list_lookup_insert_eq by by eapply lookup_lt_Some.
  cbn [mbind option_bind withProgress solution currentMoveIndexInSolution].
  fold i. rewrite Hreply, last_snoc.
  by repeat (split; [done|]).
Qed.

(** ** loadPuzzleByIndex *)

(** A board that is put into the store is there, in new arrays. *)
Lemma allocRows_spec g : ∀ σ,
  ∃ σ' rows,
    allocRows σ g = (σ', rows)
    ∧ heap σ ⊆ heap σ' ∧ console σ' = console σ
    ∧ holds σ' rows g.
Proof.
  induction g as [|cells g IH]; intros σ.
  - exists σ, []. repeat split; [done | constructor].
  - cbn [allocRows].
    destruct (alloc σ (ORow cells)) as [σ1 l] eqn:Ha.
    pose proof (alloc_extends _ _ _ _ Ha) as Hsub1.
    apply alloc_fresh in Ha as (Hnew & Hheap1 & Hcon1).
    destruct (IH σ1) as (σ2 & rows & -> & Hsub2 & Hcon2 & Hholds).
    exists σ2, (l :: rows). repeat split.
    + by etrans.
    + congruence.
    + constructor; [|done].
      apply (rowCells_mono σ1); [done|].
      unfold rowCells. by rewrite Hheap1, lookup_insert_eq.
Qed.

Lemma allocBoard_spec σ g :
  ∃ σ' b,
    allocBoard σ g = (σ', b)
    ∧ contents σ' b = Some g
    ∧ heap σ ⊆ heap σ' ∧ console σ' = console σ
    ∧ heap σ !! b = None.
Proof.
  unfold allocBoard.
  destruct (allocRows_spec g σ) as (σ1 & rows & -> & Hsub1 & Hcon1 & Hholds).
  destruct (alloc σ1 (OBoard rows)) as [σ2 b] eqn:Ha.
  pose proof (alloc_extends _ _ _ _ Ha) as Hsub2.
  apply alloc_fresh in Ha as (Hnew & Hheap2 & Hcon2).
  exists σ2, b. split; [done|]. repeat split.
  - apply contents_holds. exists rows. split.
    + unfold boardRows. by rewrite Hheap2, lookup_insert_eq.
    + by eapply holds_mono.
  - by etrans.
  - congruence.
  - by eapply lookup_weaken_None.
Qed.


(** The statements that write on an element that may be missing, as one
    change of the page. *)
Lemma setDescription_run text w :
  setDescription text w
  = (Ok tt,
     set_document
       {| chessboard := chessboard (document w);
          puzzle_description :=
            (λ el, {| textContent := text;
                      className := className el;
                      styleDisplay := styleDisplay el;
                      disabled := disabled el |})
            <$> puzzle_description (document w);
          turn_indicator := turn_indicator (document w) |} w).
Proof.
  destruct w as [? [? [|] ?] ? ? ? ? ? ? ? ?]; reflexivity.
Qed.

Lemma updateTurnIndicator_text w :
  updateTurnIndicator w
  = (Ok tt,
     set_document
       {| chessboard := chessboard (document w);
          puzzle_description := puzzle_description (document w);
          turn_indicator :=
            (λ el, {| textContent := sideName (playerTurn w) +:+ " to move";
                      className := className el;
                      styleDisplay := styleDisplay el;
                      disabled := disabled el |})
            <$> turn_indicator (document w) |} w).
Proof.
  destruct w as [? [? ? [|]] ? ? ? ? ? ? ? ?]; reflexivity.
Qed.

Lemma clearMessage_run w :
  clearMessage w
  = (Ok tt,
     set_messageArea
       ((λ el, {| textContent := EmptyString; className := [];
                  styleDisplay := styleDisplay el;
                  disabled := disabled el |}) <$> messageArea w) w).
Proof.
  destruct w as [? ? ? ? ? ? ? ? [|] ?]; reflexivity.
Qed.

Lemma displayNextPuzzleButton_run display w :
  displayNextPuzzleButton display w
  = (Ok tt,
     set_nextPuzzleButton
       ((λ el, {| textContent := textContent el;
                  className := className el;
                  styleDisplay := display;
                  disabled := disabled el |}) <$> nextPuzzleButton w) w).
Proof.
  destruct w as [? ? ? ? ? ? ? ? ? [|]]; reflexivity.
Qed.

Lemma shown_fmap text (f : Element → Element) area :
  (∀ el, textContent (f el) = text) → shown text (f <$> area).
Proof.
  intros Hf el. destruct area as [el0|]; [|done]. intros [= <-]. apply Hf.
Qed.

(** X27: A puzzle whose position [fenToBoard] parses, on a page with the squares
    of [initializeBoardUI]: the puzzle becomes the current one with its progress
    at the start and its side to move, the board variable refers to a new board
    with the parsed position, the squares show it, the description and the side
    to move are displayed, the message is cleared, the button for the next
    puzzle is hidden and the selection is dropped. *)
Theorem loadPuzzleByIndex_loads w index pz g squares :
  0 <= index →
  puzzles w !! Z.to_nat index = Some pz →
  fenToBoard (fen pz) = Ok g →
  chessboard (document w) = Some squares →
  boardUI squares →
  ∃ w' b squares',
    loadPuzzleByIndex index w = (Ok tt, w')
    ∧ currentPuzzle w' = Some (Z.to_nat index)
    ∧ currentPuzzleIndex w' = index
    ∧ puzzles w' = <[Z.to_nat index := withProgress 0 pz]> (puzzles w)
    ∧ playerTurn w' = turn pz
    ∧ currentBoardState w' = Some b
    ∧ contents (js w') b = Some g
    ∧ wf_board g = true
    ∧ heap (js w) ⊆ heap (js w')
    ∧ chessboard (document w') = Some squares'
    ∧ boardUI squares'
    ∧ children <$> squares' = children <$> painted g squares
    ∧ selectedSquare w'
      = (if selectedSquare w is Some EmptyString then Some EmptyString
         else None)
    ∧ shown (description pz) (puzzle_description (document w'))
    ∧ shown (sideName (turn pz) +:+ " to move")
            (turn_indicator (document w'))
    ∧ shown "" (messageArea w')
    ∧ (∀ btn, nextPuzzleButton w' = Some btn → styleDisplay btn = "none"%string).
Proof.
  intros Hindex Hpz Hfen Hsq Hui.
  destruct (fenToBoard_wf _ _ Hfen) as [Hwf _].
  pose proof (lookup_lt_Some _ _ _ Hpz) as Hlt.
  unfold loadPuzzleByIndex. js_run.
  assert ((index <? 0) || (index >=? Z.of_nat (length (puzzles w))) = false)
    as ->.
  { apply orb_false_iff. lia. }
  js_run. erewrite thePuzzle_run by (js_proj; done). js_run.
  erewrite setMoveIndex_run by (js_proj; done). js_run.
  rewrite consoleLine_run. js_run.
  unfold callFenToBoard, engine. js_proj. rewrite Hfen.
  cbn [mbind Result_bind].
  match goal with
  | |- context [allocBoard ?σ g] =>
      destruct (allocBoard_spec σ g)
        as (σ1 & b & -> & Hg & Hsub & Hcon & Hfresh)
  end.
  js_run.
  rewrite (displayPieces_run b g squares) by done.
  assert (boardUI (painted g squares)) as Hui' by by apply boardUI_paintedTo.
  assert (alter (λ pz0, withProgress 0 pz0) (Z.to_nat index) (puzzles w)
          = <[Z.to_nat index := withProgress 0 pz]> (puzzles w)) as Hpuzzles
    by by apply alter_as_insert.
  unfold withProgress in Hpuzzles at 1.
  js_run. rewrite setDescription_run. js_run.
  rewrite updateTurnIndicator_text. js_run.
  rewrite clearMessage_run. js_run.
  rewrite displayNextPuzzleButton_run. js_run.
  cbn [withSquares puzzle_description turn_indicator chessboard].
  destruct (selectedSquare w) as [[|c s]|] eqn:Hsel; js_run.
  - rewrite consoleLine_run.
    eexists _, b, _. split; [reflexivity|]. js_proj.
    rewrite Hpuzzles, Hsel.
    repeat (split; [done || by apply shown_fmap|]).
    by intros btn [btn0 [_ ->]]%fmap_Some.
  - match goal with
    | |- context [deselect ?name ?w1] =>
        destruct (deselect_ui name (painted g squares) w1)
          as (squares' & -> & Hui2 & Hch); [js_proj; reflexivity | done |]
    end.
    js_run. rewrite consoleLine_run.
    eexists _, b, _. split; [reflexivity|]. js_proj.
    cbn [withSquares puzzle_description turn_indicator chessboard].
    rewrite Hpuzzles.
    repeat (split; [done || by apply shown_fmap|]).
    by intros btn [btn0 [_ ->]]%fmap_Some.
  - rewrite consoleLine_run.
    eexists _, b, _. split; [reflexivity|]. js_proj.
    rewrite Hpuzzles, Hsel.
    repeat (split; [done || by apply shown_fmap|]).
    by intros btn [btn0 [_ ->]]%fmap_Some.
Qed.

(** X28: A puzzle whose position [fenToBoard] does not parse: the exception
    leaves [loadPuzzleByIndex] after the puzzle has become the current one, with
    its side to move and its progress at the start, and before the board is
    replaced. The board variable, the arrays and the page are those of the
    puzzle before; only the console has a line more. *)
Theorem loadPuzzleByIndex_bad_fen w index pz e :
  0 <= index →
  puzzles w !! Z.to_nat index = Some pz →
  fenToBoard (fen pz) = Throw e →
  ∃ w',
    loadPuzzleByIndex index w = (Throw e, w')
    ∧ currentPuzzle w' = Some (Z.to_nat index)
    ∧ currentPuzzleIndex w' = index
    ∧ puzzles w' = <[Z.to_nat index := withProgress 0 pz]> (puzzles w)
    ∧ playerTurn w' = turn pz
    ∧ currentBoardState w' = currentBoardState w
    ∧ heap (js w') = heap (js w)
    ∧ document w' = document w
    ∧ selectedSquare w' = selectedSquare w
    ∧ messageArea w' = messageArea w
    ∧ nextPuzzleButton w' = nextPuzzleButton w.
Proof.
  intros Hindex Hpz Hfen.
  pose proof (lookup_lt_Some _ _ _ Hpz) as Hlt.
  unfold loadPuzzleByIndex. js_run.
  assert ((index <? 0) || (index >=? Z.of_nat (length (puzzles w))) = false)
    as ->.
  { apply orb_false_iff. lia. }
  js_run. erewrite thePuzzle_run by (js_proj; done). js_run.
  erewrite setMoveIndex_run by (js_proj; done). js_run.
  rewrite consoleLine_run. js_run.
  unfold callFenToBoard, engine. js_proj. rewrite Hfen.
  cbn [mbind Result_bind].
  eexists. split; [reflexivity|]. js_proj.
  rewrite (alter_as_insert _ _ _ pz Hpz). done.
Qed.

(** ** initializeBoardUI *)

Lemma boardUI_freshSquares : boardUI freshSquares.
Proof.
  split; [by vm_compute|].
  apply Forall_forall. intros sq Hsq.
  apply list_elem_of_lookup in Hsq as [i Hi]. unfold freshSquares in Hi.
  rewrite list_lookup_imap in Hi.
  destruct (allSquares !! i); [|done]. injection Hi as <-. cbn.
  apply list_elem_of_here.
Qed.

Lemma allSquares_at r c :
  valid_index r → valid_index c →
  allSquares !! Z.to_nat (8 * r + c) = indicesToAlgebraic r c.
Proof. intros Hr Hc. split_index Hr; split_index Hc; by vm_compute. Qed.

(** X18: [initializeBoardUI] on a page with a chessboard element, whatever is in
    it: the element gets 64 new squares and nothing else of the page or the game
    changes. The square at position 8 r + c carries the name of the index pair
    (r, c), so that [algebraicToIndices] leads from the name of a square back to
    its row and column; it is light exactly when r + c is even, and it is empty.
    Without a chessboard element there is only a line on the console. *)
Theorem initializeBoardUI_builds_board w :
  (chessboard (document w) = None →
   initializeBoardUI w
   = (Ok tt, set_js (consoleError (js w) "Chessboard element not found!") w))
  ∧ (∀ old, chessboard (document w) = Some old →
     initializeBoardUI w
     = (Ok tt,
        set_js (consoleError (js w) "Chessboard UI initialized.")
          (set_document (withSquares (Some freshSquares) (document w)) w)))
  ∧ boardUI freshSquares
  ∧ (∀ r c, valid_index r → valid_index c →
     ∃ sq, freshSquares !! Z.to_nat (8 * r + c) = Some sq
           ∧ indicesToAlgebraic r c = Some (dataAlgebraic sq)
           ∧ algebraicToIndices (dataAlgebraic sq)
             = Some {| row := r; col := c |}
           ∧ classList sq
             = ["square";
                if Z.even (r + c) then "light-square" else "dark-square"]%string
           ∧ children sq = []).
Proof.
  split; [|split; [|split]].
  - intros Hnone. unfold initializeBoardUI. js_run. rewrite Hnone.
    reflexivity.
  - intros old Hold. unfold initializeBoardUI. js_run. rewrite Hold.
    vm_compute. reflexivity.
  - apply boardUI_freshSquares.
  - intros r c Hr Hc.
    split_index Hr; split_index Hc; eexists;
      (split; [by vm_compute|]); by vm_compute.
Qed.

(** ** displayPieces: what the page shows *)

Lemma painted_lookup g squares r c :
  boardUI squares →
  valid_index r → valid_index c →
  ∃ name sq,
    indicesToAlgebraic r c = Some name
    ∧ painted g squares !! Z.to_nat (8 * r + c) = Some sq
    ∧ dataAlgebraic sq = name
    ∧ children sq = paint (get g r c).
Proof.
  intros Hui Hr Hc. pose proof (boardUI_length _ Hui) as Hlen.
  destruct Hui as [Hnames _].
  destruct (indices_roundtrip r c Hr Hc) as (name & Hname & _).
  pose proof (allSquares_at r c Hr Hc) as Hat. rewrite Hname in Hat.
  rewrite <- Hnames, list_lookup_fmap in Hat.
  destruct (squares !! Z.to_nat (8 * r + c)) as [sq0|] eqn:Hsq0; [|done].
  injection Hat as Hat. exists name. eexists. split; [done|].
  unfold painted, paintedTo. rewrite list_lookup_imap, Hsq0. cbn.
  pose proof (lookup_lt_Some _ _ _ Hsq0) as Hlt.
  rewrite decide_True by done. split; [reflexivity|]. cbn.
  split; [done|]. unfold valid_index in *. f_equal. f_equal.
  - rewrite Z2Nat.id by lia. rewrite Z.mul_comm, Z.div_add_l by lia.
    rewrite Z.div_small; lia.
  - rewrite Z2Nat.id by lia. rewrite Z.add_comm, Z.mul_comm, Z.mod_add by lia.
    apply Z.mod_small. lia.
Qed.

(** X19: [displayPieces] on an 8x8 board and the squares of [initializeBoardUI]
    never throws, and afterwards the page shows the board: the square with the
    name of row [r] and column [c] holds what [paint] gives for the board square
    at [r], [c] - nothing for an empty square, one span with the glyph of the
    piece otherwise. The squares keep their names and classes; apart from them
    only the console changes. *)
Theorem displayPieces_shows_board b g squares w :
  contents (js w) b = Some g →
  wf_board g = true →
  chessboard (document w) = Some squares →
  boardUI squares →
  ∃ squares',
    displayPieces (Some b) w
    = (Ok tt,
       set_js (consoleError (js w) "Pieces displayed on board.")
         (set_document (withSquares (Some squares') (document w)) w))
    ∧ dataAlgebraic <$> squares' = dataAlgebraic <$> squares
    ∧ classList <$> squares' = classList <$> squares
    ∧ ∀ r c, valid_index r → valid_index c →
        ∃ name sq,
          indicesToAlgebraic r c = Some name
          ∧ squares' !! Z.to_nat (8 * r + c) = Some sq
          ∧ dataAlgebraic sq = name
          ∧ children sq = paint (get g r c).
Proof.
  intros Hg Hwf Hsq Hui. exists (painted g squares).
  split; [by apply displayPieces_run|]. split; [|split].
  - apply list_eq. intros i. unfold painted, paintedTo.
    rewrite !list_lookup_fmap, list_lookup_imap.
    destruct (squares !! i); [|done]. cbn. by case_decide.
  - apply list_eq. intros i. unfold painted, paintedTo.
    rewrite !list_lookup_fmap, list_lookup_imap.
    destruct (squares !! i); [|done]. cbn. by case_decide.
  - intros r c Hr Hc. by apply painted_lookup.
Qed.

(** ** handleSquareClick: the second click that is no move of the solution *)

(** X21: The second click, on a page with a puzzle and an 8x8 board, that is not
    the next move of the solution: a click on the selected square itself
    cancels, a move that [isValidMove] rejects is invalid, and a valid move that
    the solution does not expect is incorrect. In each case the message says so,
    the selection is dropped, and the game is not touched. *)
Theorem second_click_rejected w target el p pz src b g :
  (chessboard (document w) ≫= (.!! target)) = Some el →
  currentPuzzle w = Some p →
  puzzles w !! p = Some pz →
  selectedSquare w = Some src →
  currentBoardState w = Some b →
  contents (js w) b = Some g →
  wf_board g = true →
  index (solution pz) (currentMoveIndexInSolution pz)
  ≠ Some (src +:+ dataAlgebraic el) →
  ∃ w' v,
    handleSquareClick target w = (Ok tt, w')
    ∧ isValidMove g src (dataAlgebraic el) (playerTurn w) = Ok v
    ∧ game w' = game w
    ∧ selectedSquare w' = None
    ∧ shown (if bool_decide (src = dataAlgebraic el)
             then "Selection cancelled."
             else if v then "Incorrect move. Try again."
             else "Invalid move for that piece.")
            (messageArea w').
Proof.
  intros Hel Hp Hpz Hsel Hb Hg Hwf Hexp.
  destruct (isValidMove_total g src (dataAlgebraic el) (playerTurn w) Hwf)
    as [v Hv].
  unfold handleSquareClick. js_run. rewrite Hel. js_run. rewrite Hp. js_run.
  rewrite Hsel. js_run. destruct (deselect_run src w) as (page & ->). js_run.
  case_bool_decide as Hsame.
  - rewrite (proj2 (String.eqb_eq _ _) Hsame). message_run.
    eexists _, v. split; [reflexivity|]. by js_proj.
  - rewrite (proj2 (String.eqb_neq _ _) Hsame). js_run. rewrite Hb.
    erewrite callIsValidMove_run by (js_proj; exact Hg).
    rewrite Hv. js_run. destruct v; cbn [negb]; js_run.
    + erewrite thePuzzle_run by (js_proj; done). js_run.
      rewrite bool_decide_false by done. message_run.
      eexists _, true. split; [reflexivity|]. by js_proj.
    + message_run. eexists _, false. split; [reflexivity|]. by js_proj.
Qed.

(** * The tests of the page and of the glyphs, on the embedding *)

(** tests/tests.js, testGetPieceUnicode, and tests/chess.test.ts,
    getPieceUnicode: the glyphs by their code points. *)
Example test_getPieceUnicode :
  getPieceUnicode (Piece "P") = [9817] ∧ getPieceUnicode (Piece "p") = [9823]
  ∧ getPieceUnicode (Piece "R") = [9814] ∧ getPieceUnicode (Piece "r") = [9820]
  ∧ getPieceUnicode (Piece "N") = [9816] ∧ getPieceUnicode (Piece "n") = [9822]
  ∧ getPieceUnicode (Piece "B") = [9815] ∧ getPieceUnicode (Piece "b") = [9821]
  ∧ getPieceUnicode (Piece "Q") = [9813] ∧ getPieceUnicode (Piece "q") = [9819]
  ∧ getPieceUnicode (Piece "K") = [9812] ∧ getPieceUnicode (Piece "k") = [9818]
  ∧ getPieceUnicode (Piece "X") = [] ∧ getPieceUnicode Null = [].
Proof. by vm_compute. Qed.

(** tests/main.test.ts is written for js/main.ts and replaces [isValidMove]
    and [makeMove] by mocks.  Its tests of [initializeBoardUI],
    [displayPieces], [loadPuzzleByIndex] and [handleSquareClick] in which
    the mocks answer as the engine does are run here on js/main.js, with
    the engine itself. *)

(** initializeBoardUI: should create 64 squares with correct classes and
    attributes. *)
Example test_initializeBoardUI :
  length (squaresOf readyWorld) = 64%nat
  ∧ (dataAlgebraic <$> squaresOf readyWorld !! 0%nat) = Some "a8"%string
  ∧ (classList <$> squaresOf readyWorld !! 0%nat)
    = Some ["square"; "light-square"]%string
  ∧ (classList <$> squaresOf readyWorld !! 1%nat)
    = Some ["square"; "dark-square"]%string
  ∧ (dataAlgebraic <$> squaresOf readyWorld !! 63%nat) = Some "h1"%string
  ∧ (classList <$> squaresOf readyWorld !! 63%nat)
    = Some ["square"; "light-square"]%string.
Proof. by vm_compute. Qed.

(** displayPieces: should display pieces on the board correctly. *)
Example test_displayPieces :
  let w :=
    after (boardState ← callFenToBoard
             "rnbqkbnr/pppppppp/8/8/8/8/PPPPPPPP/RNBQKBNR w KQkq - 0 1";
           displayPieces (Some boardState)) readyWorld in
  (squareText <$> squareNamed "a8" w) = Some (getPieceUnicode (Piece "r"))
  ∧ (pieceClasses <$> squareNamed "a8" w) = Some [["piece"; "black"]%string]
  ∧ (squareText <$> squareNamed "e2" w) = Some (getPieceUnicode (Piece "P"))
  ∧ (pieceClasses <$> squareNamed "e2" w) = Some [["piece"; "white"]%string]
  ∧ (squareText <$> squareNamed "d4" w) = Some [].
Proof. by vm_compute. Qed.

(** Puzzle Loading: loadPuzzleByIndex should load a specific puzzle. *)
Example test_loadPuzzleByIndex :
  let w := loadedWorld 1 in
  (puzzleId <$> (currentPuzzle w ≫= (puzzles w !!.))) = Some "p2"%string
  ∧ (textContent <$> puzzle_description (document w))
    = Some "Test Puzzle 2"%string
  ∧ (squareText <$> squareNamed "a1" w) = Some (getPieceUnicode (Piece "R"))
  ∧ (textContent <$> turn_indicator (document w))
    = Some "White to move"%string.
Proof. by vm_compute. Qed.

(** handleSquareClick: should select a piece on first valid click. *)
Example test_select :
  let w := clickedWorld 0 52 in
  (dataAlgebraic <$> squaresOf (loadedWorld 0) !! 52%nat) = Some "e2"%string
  ∧ (classList <$> squareNamed "e2" w)
    = Some ["square"; "light-square"; "selected"]%string
  ∧ selectedSquare w = Some "e2"%string
  ∧ (textContent <$> messageArea w)
    = Some "Piece selected. Click destination square."%string.
Proof. by vm_compute. Qed.

(** handleSquareClick: should do nothing if selecting opponent piece or
    empty square first (e7, then d4). *)
Example test_no_selection :
  let w1 := clickedWorld 0 12 in
  let w2 := after (handleSquareClick 35) w1 in
  (dataAlgebraic <$> squaresOf (loadedWorld 0) !! 12%nat) = Some "e7"%string
  ∧ (classList <$> squareNamed "e7" w1)
    = Some ["square"; "dark-square"]%string
  ∧ selectedSquare w1 = None
  ∧ (textContent <$> messageArea w1)
    = Some "Not your turn or not your piece."%string
  ∧ (dataAlgebraic <$> squaresOf w1 !! 35%nat) = Some "d4"%string
  ∧ (classList <$> squareNamed "d4" w2)
    = Some ["square"; "dark-square"]%string
  ∧ selectedSquare w2 = None
  ∧ (textContent <$> messageArea w2)
    = Some "Clicked an empty square. Select a piece."%string.
Proof. by vm_compute. Qed.

(** handleSquareClick: should handle puzzle solved scenario. *)
Example test_solved :
  let w0 := after (loadPuzzleByIndex 0) (set_puzzles [solvedPuzzle] readyWorld) in
  let w := after (handleSquareClick 0) (after (handleSquareClick 56) w0) in
  (dataAlgebraic <$> squaresOf w0 !! 56%nat) = Some "a1"%string
  ∧ (dataAlgebraic <$> squaresOf w0 !! 0%nat) = Some "a8"%string
  ∧ (currentBoardState w ≫= contents (js w))
    = match fenToBoard "R3k3/8/8/8/8/8/8/4K2R b K - 0 1" with
      | Ok g => Some g
      | Throw _ => None
      end
  ∧ (textContent <$> messageArea w) = Some "Puzzle Solved!"%string
  ∧ (styleDisplay <$> nextPuzzleButton w) = Some "block"%string.
Proof. by vm_compute. Qed.

(** handleSquareClick: should handle incorrect (but valid piece-wise) move
    (d2, then d4). *)
Example test_incorrect_move :
  let w := after (handleSquareClick 35) (clickedWorld 0 51) in
  (dataAlgebraic <$> squaresOf (loadedWorld 0) !! 51%nat) = Some "d2"%string
  ∧ (textContent <$> messageArea w)
    = Some "Incorrect move. Try again."%string
  ∧ (squareText <$> squareNamed "d2" w) = Some (getPieceUnicode (Piece "P"))
  ∧ (squareText <$> squareNamed "d4" w) = Some [].
Proof. by vm_compute. Qed.

(** handleSquareClick: should handle invalid (piece-wise) move (e2, then
    e5). *)
Example test_invalid_move :
  let w := after (handleSquareClick 28) (clickedWorld 0 52) in
  (dataAlgebraic <$> squaresOf (loadedWorld 0) !! 28%nat) = Some "e5"%string
  ∧ (textContent <$> messageArea w)
    = Some "Invalid move for that piece."%string.
Proof. by vm_compute. Qed.

(** ** The engine on concrete positions *)

(** From the starting position the knight on g1 may go to f3. *)
Lemma knight_moves_witness :
  isValidMove startPosition "g1" "f3" White = Ok true.
Proof.
  destruct (knight_moves startPosition "g1" "f3" White
              {| row := 7; col := 6 |} {| row := 5; col := 5 |}
              eq_refl eq_refl eq_refl eq_refl)
    as (v & Hv & Hiff).
  rewrite Hv. f_equal. apply Hiff.
  split; [reflexivity | left; split; reflexivity].
Defined.

(** z9 is no square. *)
Lemma isValidMove_invalid_square_witness :
  isValidMove startPosition "z9" "e4" White = Ok false.
Proof.
  apply (isValidMove_invalid_square startPosition "z9" "e4" White).
  left. reflexivity.
Defined.

(** A board without rows. *)
Lemma isValidMove_missing_row_witness :
  isValidMove [] "e2" "e4" White = Throw TypeError.
Proof.
  apply (isValidMove_missing_row [] "e2" "e4" White
           {| row := 6; col := 4 |} {| row := 4; col := 4 |});
    [reflexivity | reflexivity | cbn; lia].
Defined.



(** e2-e2 applied to the starting position removes the pawn. *)
Lemma makeMove_same_square_witness :
  ∃ σ' b' g',
    makeMove startState startBoard "e2" "e2" = Ok (σ', b')
    ∧ contents σ' b' = Some g'
    ∧ get g' 6 4 = Null ∧ get g' 6 3 = Piece "P".
Proof.
  destruct (makeMove_same_square startState startBoard startPosition "e2"
              {| row := 6; col := 4 |})
    as (σ' & b' & g' & Hrun & Hg' & Hcells);
    [by vm_compute | reflexivity | reflexivity |].
  exists σ', b', g'. repeat split; try assumption.
  - rewrite Hcells by (unfold valid_index; lia). reflexivity.
  - rewrite Hcells by (unfold valid_index; lia). reflexivity.
Defined.

(** e2-e4 and e4-e2 give the starting position again. *)
Lemma makeMove_there_and_back_witness :
  ∃ σ1 b1 σ2 b2,
    makeMove startState startBoard "e2" "e4" = Ok (σ1, b1)
    ∧ makeMove σ1 b1 "e4" "e2" = Ok (σ2, b2)
    ∧ contents σ2 b2 = Some startPosition
    ∧ contents σ2 startBoard = Some startPosition.
Proof.
  apply (makeMove_there_and_back startState startBoard startPosition
           "e2" "e4" {| row := 6; col := 4 |} {| row := 4; col := 4 |});
    [by vm_compute | reflexivity | reflexivity | reflexivity | reflexivity].
Defined.

(** After e2-e4 nothing moves from e2. *)
Lemma vacated_square_cannot_move_witness :
  ∃ σ' b' g',
    makeMove startState startBoard "e2" "e4" = Ok (σ', b')
    ∧ contents σ' b' = Some g'
    ∧ isValidMove g' "e2" "e3" White = Ok false.
Proof.
  destruct (vacated_square_cannot_move startState startBoard startPosition
              "e2" "e4" {| row := 6; col := 4 |} {| row := 4; col := 4 |})
    as (σ' & b' & g' & Hrun & Hg' & _ & Hno);
    [by vm_compute | reflexivity | reflexivity | reflexivity |].
  exists σ', b', g'. repeat split; try assumption. apply Hno.
Defined.

(** e2-e4 from the starting position keeps the 32 pieces. *)
Lemma makeMove_count_witness :
  ∃ σ' b' g',
    makeMove startState startBoard "e2" "e4" = Ok (σ', b')
    ∧ contents σ' b' = Some g'
    ∧ countSquares truthy g' = 32.
Proof.
  destruct (makeMove_count startState startBoard startPosition
              "e2" "e4" {| row := 6; col := 4 |} {| row := 4; col := 4 |})
    as (σ' & b' & g' & Hrun & Hg' & Hcount);
    [by vm_compute | reflexivity | reflexivity | reflexivity |].
  exists σ', b', g'. repeat split; try assumption.
  rewrite Hcount by reflexivity. reflexivity.
Defined.

(** Two rank strings: rows 0 and 1 as described, six empty rows. *)
Lemma fenToBoard_rows_witness :
  fenToBoard "k7/2QQ w - - 0 1"
  = Ok ([ [Piece "k"; Null; Null; Null; Null; Null; Null; Null];
          [Null; Null; Piece "Q"; Piece "Q"; Null; Null; Null; Null] ]
        ++ replicate 6 emptyRow).
Proof.
  apply (fenToBoard_rows "k7/2QQ w - - 0 1"). vm_compute. lia.
Defined.

(** A pawn in a ninth rank string. *)
Lemma fenToBoard_throws_iff_witness :
  fenToBoard "8/8/8/8/8/8/8/8/p" = Throw TypeError.
Proof.
  apply (proj2 (fenToBoard_throws_iff "8/8/8/8/8/8/8/8/p")).
  exists "p"%string. split; [|discriminate].
  vm_compute. left.
Defined.

(** The starting position with and without the other fields. *)
Lemma fenToBoard_ignores_fields_witness :
  fenToBoard "rnbqkbnr/pppppppp/8/8/8/8/PPPPPPPP/RNBQKBNR w KQkq - 0 1"
  = fenToBoard "rnbqkbnr/pppppppp/8/8/8/8/PPPPPPPP/RNBQKBNR".
Proof.
  apply (fenToBoard_ignores_fields
           "rnbqkbnr/pppppppp/8/8/8/8/PPPPPPPP/RNBQKBNR" "w KQkq - 0 1").
  reflexivity.
Defined.

(** The starting position is an 8x8 grid of nulls and piece codes. *)
Lemma fenToBoard_cells_witness :
  wf_board startPosition = true
  ∧ ∀ r c, valid_index r → valid_index c →
      get startPosition r c = Null
      ∨ ∃ ch, get startPosition r c = Piece ch ∧ isDigit ch = false.
Proof.
  apply (fenToBoard_cells
           "rnbqkbnr/pppppppp/8/8/8/8/PPPPPPPP/RNBQKBNR w KQkq - 0 1").
  reflexivity.
Defined.

(** A position description with too few ranks and a rank that is too long
    still gives a board that can be asked. *)
Lemma parsed_board_is_safe_witness :
  ∃ g v, fenToBoard "rnbqkbnrr/8/xx" = Ok g
         ∧ isValidMove g "a8" "a1" Black = Ok v.
Proof.
  destruct (fenToBoard "rnbqkbnrr/8/xx") as [g|e] eqn:Hg;
    [|by vm_compute in Hg].
  destruct (parsed_board_is_safe "rnbqkbnrr/8/xx" g "a8" "a1" Black Hg)
    as [v Hv].
  by exists g, v.
Defined.



(** The white rook on a8 takes the knight on c8, and so does the black rook
    on a1 of the mirrored board with the white knight on c1. *)
Lemma isValidMove_colour_symmetry_witness :
  isValidMove (mirror rookPosition) "a1" "c1" Black
  = isValidMove rookPosition "a8" "c8" White.
Proof.
  apply (isValidMove_colour_symmetry rookPosition "a8" "c8" White
           {| row := 0; col := 0 |} {| row := 0; col := 2 |} "a1" "c1");
    reflexivity.
Defined.

(** ** The page on the example puzzles *)

(** Closes a hypothesis about the example page by evaluation. *)
Ltac computed :=
  first [ lia
        | vm_compute; first [reflexivity | discriminate | lia]
        | apply (bool_decide_unpack _); vm_compute; exact I ].

(** The chessboard of the example page gets its 64 squares. *)
Lemma initializeBoardUI_builds_board_witness :
  initializeBoardUI startWorld
  = (Ok tt,
     set_js (consoleError (js startWorld) "Chessboard UI initialized.")
       (set_document
          (withSquares (Some freshSquares) (document startWorld))
          startWorld)).
Proof.
  apply (proj1 (proj2 (initializeBoardUI_builds_board startWorld)) []).
  reflexivity.
Defined.

(** With the first puzzle loaded, the square e1 shows the white king. *)
Lemma displayPieces_shows_board_witness :
  ∃ squares' sq,
    displayPieces (Some (boardVar (loadedWorld 0))) (loadedWorld 0)
    = (Ok tt,
       set_js (consoleError (js (loadedWorld 0)) "Pieces displayed on board.")
         (set_document
            (withSquares (Some squares') (document (loadedWorld 0)))
            (loadedWorld 0)))
    ∧ squares' !! 60%nat = Some sq
    ∧ dataAlgebraic sq = "e1"%string
    ∧ children sq
      = [ {| pieceText := [9812];
             pieceClassList := ["piece"; "white"]%string |} ].
Proof.
  edestruct displayPieces_shows_board
    with (b := boardVar (loadedWorld 0)) (g := startPosition)
         (w := loadedWorld 0)
    as (squares' & Hrun & _ & _ & Hshows); [computed ..|].
  destruct (Hshows 7 4) as (name & sq & Hname & Hsq & Hn & Hch);
    [unfold valid_index; lia ..|].
  vm_compute in Hname. injection Hname as <-.
  exists squares', sq. split; [exact Hrun|]. split; [exact Hsq|].
  split; [exact Hn | exact Hch].
Defined.

(** With the first puzzle loaded, a click on e2 selects the pawn. *)
Lemma first_click_selects_own_piece_witness :
  ∃ w',
    handleSquareClick 52 (loadedWorld 0) = (Ok tt, w')
    ∧ game w' = game (loadedWorld 0)
    ∧ selectedSquare w' = Some "e2"%string
    ∧ shown "Piece selected. Click destination square." (messageArea w').
Proof.
  edestruct first_click_selects_own_piece
    with (w := loadedWorld 0) (target := 52%nat) (g := startPosition)
    as (w' & Hrun & Hgame & Hsel & Hmsg); [computed ..|].
  vm_compute in Hsel. vm_compute in Hmsg.
  exists w'. split; [exact Hrun|]. split; [exact Hgame|].
  split; [exact Hsel | exact Hmsg].
Defined.

(** With e2 selected, e2-e3 is a valid move and not the solution. *)
Lemma second_click_rejected_witness :
  ∃ w',
    handleSquareClick 44 (clickedWorld 0 52) = (Ok tt, w')
    ∧ game w' = game (clickedWorld 0 52)
    ∧ selectedSquare w' = None
    ∧ shown "Incorrect move. Try again." (messageArea w').
Proof.
  edestruct second_click_rejected
    with (w := clickedWorld 0 52) (target := 44%nat) (g := startPosition)
    as (w' & v & Hrun & Hv & Hgame & Hsel & Hmsg); [computed ..|].
  vm_compute in Hv. injection Hv as <-. vm_compute in Hmsg.
  exists w'. split; [exact Hrun|]. split; [exact Hgame|].
  split; [exact Hsel | exact Hmsg].
Defined.

(** With e2 selected, the click on e4 changes the game: it is the move of
    the solution. *)
Lemma click_changes_game_only_by_solution_witness :
  ∃ src el g,
    selectedSquare (clickedWorld 0 52) = Some src
    ∧ (chessboard (document (clickedWorld 0 52)) ≫= (.!! 36%nat)) = Some el
    ∧ src ≠ dataAlgebraic el
    ∧ boardOf (clickedWorld 0 52) (currentBoardState (clickedWorld 0 52))
      = Ok g
    ∧ isValidMove g src (dataAlgebraic el) (playerTurn (clickedWorld 0 52))
      = Ok true
    ∧ expectedMove (clickedWorld 0 52) = Some (src +:+ dataAlgebraic el).
Proof.
  apply (click_changes_game_only_by_solution (clickedWorld 0 52) 36).
  intros H. apply (f_equal (λ x, x.1.2)) in H. vm_compute in H.
  discriminate H.
Defined.

(** The second puzzle: with a1 selected, the click on a8 solves it. *)
Lemma correct_last_move_solves_witness :
  ∃ w' b' g' btn,
    handleSquareClick 0 (clickedWorld 1 56) = (Ok tt, w')
    ∧ currentBoardState w' = Some b'
    ∧ contents (js w') b' = Some g'
    ∧ get g' 0 0 = Piece "R" ∧ get g' 7 0 = Null
    ∧ playerTurn w' = playerTurn (clickedWorld 1 56)
    ∧ shown "Puzzle Solved!" (messageArea w')
    ∧ nextPuzzleButton w' = Some btn
    ∧ textContent btn = "Next Puzzle"%string
    ∧ styleDisplay btn = "block"%string.
Proof.
  edestruct correct_last_move_solves
    with (w := clickedWorld 1 56) (target := 0%nat)
         (g := boardContents (clickedWorld 1 56))
    as (w' & from & to & b' & squares' & Hrun & Hf & Ht & Hb & Hg & _ & _
        & _ & _ & Hturn & _ & Hmsg & Hbtn); [computed ..|].
  vm_compute in Hf. injection Hf as <-. vm_compute in Ht. injection Ht as <-.
  vm_compute in Hg.
  eexists w', b', _, _. split; [exact Hrun|]. split; [exact Hb|].
  split; [exact Hg|]. split; [reflexivity|]. split; [reflexivity|].
  split; [exact Hturn|]. split; [exact Hmsg|]. split; [exact Hbtn|].
  split; vm_compute; reflexivity.
Defined.

(** The first puzzle: with e2 selected, the click on e4 plays e2-e4 and the
    reply e7-e5, which solves the puzzle; Black stays the side to move. *)
Lemma correct_move_gets_reply_witness :
  ∃ w' b' g',
    handleSquareClick 36 (clickedWorld 0 52) = (Ok tt, w')
    ∧ currentBoardState w' = Some b'
    ∧ contents (js w') b' = Some g'
    ∧ get g' 4 4 = Piece "P" ∧ get g' 3 4 = Piece "p"
    ∧ get g' 6 4 = Null ∧ get g' 1 4 = Null
    ∧ expectedMove w' = None
    ∧ playerTurn w' = Black
    ∧ shown "Puzzle Solved! (after computer move)" (messageArea w').
Proof.
  edestruct correct_move_gets_reply
    with (w := clickedWorld 0 52) (target := 36%nat) (g := startPosition)
    as (w' & cfrom & cto & b' & squares' & Hrun & Hf & Ht & Hb & Hg & _ & _
        & Hpz & Hp & _ & Hturn & Hmsg & _); [computed ..|].
  vm_compute in Hf. injection Hf as <-. vm_compute in Ht. injection Ht as <-.
  vm_compute in Hg. vm_compute in Hturn. vm_compute in Hmsg.
  eexists w', b', _. split; [exact Hrun|]. split; [exact Hb|].
  split; [exact Hg|]. do 4 (split; [reflexivity|]).
  split; [|split; [exact Hturn | exact Hmsg]].
  unfold expectedMove. rewrite Hp, Hpz. vm_compute. reflexivity.
Defined.

(** The third puzzle: e2-e4 is played, the reply e7-e4 is not, and the
    solution still expects it. *)
Lemma invalid_reply_is_skipped_witness :
  ∃ w',
    handleSquareClick 36 (clickedWorld 2 52) = (Ok tt, w')
    ∧ expectedMove w' = Some "e7e4"%string
    ∧ playerTurn w' = playerTurn (clickedWorld 2 52)
    ∧ shown "Error in puzzle solution (computer move)." (messageArea w').
Proof.
  edestruct invalid_reply_is_skipped
    with (w := clickedWorld 2 52) (target := 36%nat) (g := startPosition)
    as (w' & b' & squares' & Hrun & _ & _ & _ & _ & _ & Hexp & _ & Hturn
        & Hmsg & _); [computed ..|].
  exists w'. split; [exact Hrun|]. split; [exact Hexp|].
  split; [exact Hturn | exact Hmsg].
Defined.


(** Loading the first puzzle: the starting position, White to move. *)
Lemma loadPuzzleByIndex_loads_witness :
  ∃ w' b,
    loadPuzzleByIndex 0 readyWorld = (Ok tt, w')
    ∧ currentPuzzle w' = Some 0%nat
    ∧ playerTurn w' = White
    ∧ currentBoardState w' = Some b
    ∧ contents (js w') b = Some startPosition
    ∧ selectedSquare w' = None
    ∧ shown "Test Puzzle 1" (puzzle_description (document w'))
    ∧ shown "White to move" (turn_indicator (document w')).
Proof.
  edestruct loadPuzzleByIndex_loads
    with (w := readyWorld) (index := 0) (g := startPosition)
    as (w' & b & squares' & Hrun & Hp & _ & _ & Hturn & Hb & Hg & _ & _ & _
        & _ & _ & Hsel & Hd & Hti & _); [computed ..|].
  vm_compute in Hsel.
  exists w', b. split; [exact Hrun|]. split; [exact Hp|].
  split; [exact Hturn|]. split; [exact Hb|]. split; [exact Hg|].
  split; [exact Hsel|]. split; [exact Hd | exact Hti].
Defined.

(** Loading the fourth puzzle throws: it is the current puzzle, Black is to
    move, and the board is still that of the first puzzle. *)
Lemma loadPuzzleByIndex_bad_fen_witness :
  ∃ w',
    loadPuzzleByIndex 3 (loadedWorld 0) = (Throw TypeError, w')
    ∧ currentPuzzle w' = Some 3%nat
    ∧ playerTurn w' = Black
    ∧ currentBoardState w' = currentBoardState (loadedWorld 0)
    ∧ document w' = document (loadedWorld 0).
Proof.
  edestruct loadPuzzleByIndex_bad_fen
    with (w := loadedWorld 0) (index := 3) (e := TypeError)
    as (w' & Hrun & Hp & _ & _ & Hturn & Hb & _ & Hdoc & _);
    [computed ..|].
  exists w'. split; [exact Hrun|]. split; [exact Hp|].
  split; [exact Hturn|]. split; [exact Hb | exact Hdoc].
Defined.
